(** * ckgroup: schema-driven batch ingestion, DDL generation and result mapping

    A shallow embedding of [db/ckgroup/ckconnv2.go].  The Go code works on
    [reflect.Value]s and talks to a ClickHouse driver; here the reflected
    values are a tagged tree, the driver is an interface (a type class) whose
    calls are recorded in a log, and every Go function is a Rocq function of
    the same name. *)

From stdpp Require Import gmap strings list fin_maps pretty sorting.
From Stdlib Require Import Ascii ZArith Lia.

Set Warnings "-register-all,-clear-no-such-hyp".
Set Default Proof Using "Type".

Open Scope string_scope.
Open Scope Z_scope.
Open Scope list_scope.

(** ** Outcomes of running Go code

    A Go function either returns, panics, or (for the one loop of the package
    whose step may be zero) does not return within the fuel given to it. *)

Inductive outcome (A : Type) : Type :=
| Ret (a : A)
| Panic (msg : string)
| OutOfFuel.
Arguments Ret {A} a.
Arguments Panic {A} msg.
Arguments OutOfFuel {A}.

Definition obind {A B} (x : outcome A) (k : A → outcome B) : outcome B :=
  match x with
  | Ret a => k a
  | Panic m => Panic m
  | OutOfFuel => OutOfFuel
  end.

(** ** The [int] type: 64-bit two's complement *)

Definition max_int : Z := 2 ^ 63 - 1.
Definition min_int : Z := - 2 ^ 63.
Definition wrap64 (z : Z) : Z := (z + 2 ^ 63) mod 2 ^ 64 - 2 ^ 63.
Definition int_add (a b : Z) : Z := wrap64 (a + b).
Definition int_sub (a b : Z) : Z := wrap64 (a - b).

(** ** Package [strings] and [fmt] *)

Module GoStrings.

(** [strings.Split(s, sep)] for a one-byte separator: always at least one
    element, and [Split("", sep)] is the one-element slice holding "". *)
Fixpoint Split (s : string) (sep : ascii) : list string :=
  match s with
  | EmptyString => [EmptyString]
  | String c s' =>
      if Ascii.eqb c sep then EmptyString :: Split s' sep
      else match Split s' sep with
           | h :: t => String c h :: t
           | [] => [String c EmptyString]
           end
  end.

(** [strings.ToLower] on the ASCII range; other bytes are left alone. *)
Definition lower_ascii (c : ascii) : ascii :=
  let n := nat_of_ascii c in
  if (Nat.leb 65 n && Nat.leb n 90)%bool then ascii_of_nat (n + 32) else c.

Fixpoint ToLower (s : string) : string :=
  match s with
  | EmptyString => EmptyString
  | String c s' => String (lower_ascii c) (ToLower s')
  end.

(** [strings.Join(elems, sep)] *)
Fixpoint Join (elems : list string) (sep : string) : string :=
  match elems with
  | [] => ""
  | [x] => x
  | x :: rest => x +:+ sep +:+ Join rest sep
  end.

(** [strings.Contains(s, substr)] *)
Fixpoint Contains (s substr : string) : bool :=
  if String.prefix substr s then true
  else match s with
       | EmptyString => false
       | String _ s' => Contains s' substr
       end.

End GoStrings.

(** [%d] of [fmt.Sprintf] / [fmt.Errorf]. *)
Definition fmt_d (z : Z) : string := pretty z.

(** ** Errors

    An [error] value carries its message and, when it was built with the
    [%w] verb, the error it wraps. *)

Inductive error : Type :=
| mkError (msg : string) (cause : option error).

Definition Error (e : error) : string := match e with mkError m _ => m end.
Definition Unwrap (e : error) : option error := match e with mkError _ c => c end.

(** [fmt.Errorf(prefix + ": %w", err)] *)
Definition Errorf_w (prefix : string) (err : error) : error :=
  mkError (prefix +:+ ": " +:+ Error err) (Some err).
(** [fmt.Errorf(msg)] without a wrapped error *)
Definition Errorf (msg : string) : error := mkError msg None.

(** ** Package [reflect] *)

Inductive Kind : Set :=
| Invalid | Bool | Int | Int8 | Int16 | Int32 | Int64
| Uint | Uint8 | Uint16 | Uint32 | Uint64 | Uintptr
| Float32 | Float64 | Complex64 | Complex128
| Array | Chan | Func | Interface | Map | Pointer | Slice
| String_ | Struct | UnsafePointer.

#[global] Instance Kind_eq_dec : EqDecision Kind.
Proof. solve_decision. Defined.

(** A struct tag in the conventional format, as the ordered list of its
    [key:"value"] pairs. *)
Definition StructTag : Type := list (string * string).

(** [tag.Get(key)]: the value of the first pair with that key, "" if none. *)
Fixpoint Tag_Get (tag : StructTag) (key : string) : string :=
  match tag with
  | [] => ""
  | (k, v) :: rest => if String.eqb k key then v else Tag_Get rest key
  end.

(** [reflect.StructField], without its [Type] (kept beside it in
    [TStruct]). *)
Record StructField : Type := mkField {
  Name : string;
  PkgPath : string;
  Tag : StructTag
}.

#[global] Instance StructField_eq_dec : EqDecision StructField.
Proof. solve_decision. Defined.

(** [field.IsExported()] *)
Definition IsExported (f : StructField) : bool := String.eqb (PkgPath f) "".

(** [reflect.Type]: a finite tree. *)
Inductive GoType : Type :=
| TBasic (k : Kind)
| TArray (n : nat) (elem : GoType)
| TSlice (elem : GoType)
| TPtr (elem : GoType)
| TStruct (fields : list (StructField * GoType)).

(** [t.Kind()] *)
Definition Type_Kind (t : GoType) : Kind :=
  match t with
  | TBasic k => k
  | TArray _ _ => Array
  | TSlice _ => Slice
  | TPtr _ => Pointer
  | TStruct _ => Struct
  end.

(** The payload of a value the package never looks into. *)
Inductive Scalar : Type :=
| SBool (b : bool)
| SInt (z : Z)
| SFloat (bits : Z)
| SString (s : string)
| SRef (id : option nat).

(** [reflect.Value].  [VInvalid] is the zero [reflect.Value] (what
    [reflect.ValueOf(nil)] and [Elem()] of a nil pointer give). *)
Inductive Value : Type :=
| VInvalid
| VBasic (k : Kind) (s : Scalar)
| VStruct (fields : list (StructField * Value))
| VArray (elem : GoType) (xs : list Value)
| VSlice (elem : GoType) (xs : list Value)
| VPtr (elem : GoType) (target : option Value).

(** [v.Type()] / [reflect.TypeOf]; the nil [Type] of an invalid value is
    stood for by [TBasic Invalid]. *)
Fixpoint TypeOf (v : Value) : GoType :=
  match v with
  | VInvalid => TBasic Invalid
  | VBasic k _ => TBasic k
  | VStruct fs => TStruct (map (λ fv, (fst fv, TypeOf (snd fv))) fs)
  | VArray e xs => TArray (length xs) e
  | VSlice e _ => TSlice e
  | VPtr e _ => TPtr e
  end.

(** The zero value of a type ([reflect.New(t).Elem()]). *)
Fixpoint zero (t : GoType) : Value :=
  match t with
  | TBasic k =>
      VBasic k (match k with
                | Bool => SBool false
                | String_ => SString ""
                | Float32 | Float64 | Complex64 | Complex128 => SFloat 0
                | Chan | Func | Interface | Map | UnsafePointer => SRef None
                | _ => SInt 0
                end)
  | TArray n e => VArray e (replicate n (zero e))
  | TSlice e => VSlice e []
  | TPtr e => VPtr e None
  | TStruct fs => VStruct (map (λ ft, (fst ft, zero (snd ft))) fs)
  end.

(** [t.Elem()] *)
Definition Type_Elem (t : GoType) : outcome GoType :=
  match t with
  | TArray _ e | TSlice e | TPtr e => Ret e
  | _ => Panic "reflect: Elem of invalid type"
  end.

(** [t.NumField()] together with the [t.Field(i)] of every [i] below it. *)
Definition Type_Fields (t : GoType) : outcome (list StructField) :=
  match t with
  | TStruct fs => Ret (map fst fs)
  | _ => Panic "reflect: NumField of non-struct type"
  end.

(** [v.Elem()] on a pointer. *)
Definition Value_Elem (v : Value) : outcome Value :=
  match v with
  | VPtr _ (Some x) => Ret x
  | VPtr _ None => Ret VInvalid
  | _ => Panic "reflect: call of reflect.Value.Elem on non-pointer Value"
  end.

(** [v.Field(i)] *)
Definition Value_Field (v : Value) (i : nat) : outcome Value :=
  match v with
  | VStruct fs =>
      match fs !! i with
      | Some fv => Ret (snd fv)
      | None => Panic "reflect: Field index out of range"
      end
  | _ => Panic "reflect: call of reflect.Value.Field on non-struct Value"
  end.

(** [v.Index(j)] on a slice, with Go's bounds check. *)
Definition Value_Index (xs : list Value) (j : Z) : outcome Value :=
  if (j <? 0) then Panic "reflect: slice index out of range"
  else match xs !! Z.to_nat j with
       | Some x => Ret x
       | None => Panic "reflect: slice index out of range"
       end.

(** ** Wire values: what is handed to the driver as [interface{}] *)

Inductive Wire : Type :=
| WNil                                   (* the nil interface *)
| WRaw (v : Value)                       (* [fieldValue.Interface()] *)
| WSlice (xs : list Wire)                (* [[]interface{}] *)
| WMaps (ms : list (gmap string Wire)).  (* [[]map[string]interface{}] *)

(** ** The client *)

Record Column : Type := mkColumn { col_Name : string; col_Type : string }.

Record Config : Type := mkConfig {
  Hosts : string;
  Database : string;
  Username : string;
  Password : string;
  BatchSize : Z;
  Debug : bool
}.

(** [ClickHouseClient]; its [conn] and [db] handles are the driver state
    threaded through every call below. *)
Record ClickHouseClient : Type := mkClient { batchSize : Z }.

(** *** getColumnName *)

Definition getColumnName (field : StructField) : string :=
  let tag := Tag_Get (Tag field) "db" in
  if negb (String.eqb tag "") then hd "" (GoStrings.Split tag ",")
  else
    let tag := Tag_Get (Tag field) "json" in
    if negb (String.eqb tag "") then hd "" (GoStrings.Split tag ",")
    else GoStrings.ToLower (Name field).

(** *** analyzeStructure *)

Fixpoint analyze_fields (fields : list StructField) (columns : list string)
  : list string :=
  match fields with
  | [] => columns
  | field :: rest =>
      if negb (IsExported field) then analyze_fields rest columns
      else
        let columnName := getColumnName field in
        if String.eqb columnName "-" then analyze_fields rest columns
        else analyze_fields rest (columns ++ [columnName])
  end.

Definition analyzeStructure (sample : Value)
  : outcome (list string * option error) :=
  match sample with
  | VInvalid => Panic "invalid memory address or nil pointer dereference"
  | _ =>
      let t := TypeOf sample in
      obind (if decide (Type_Kind t = Pointer) then Type_Elem t else Ret t)
        (λ t,
          if decide (Type_Kind t ≠ Struct) then
            Ret ([], Some (Errorf "data must be struct or pointer to struct"))
          else
            obind (Type_Fields t) (λ fields,
              Ret (analyze_fields fields [], None)))
  end.

(** *** convertValue *)

Section convert.
Variable convertValue : Value → outcome Wire.

(** The inner loop over the fields of one element of a struct slice. *)
Fixpoint convert_fields (fs : list (StructField * Value))
    (elemMap : gmap string Wire) : outcome (gmap string Wire) :=
  match fs with
  | [] => Ret elemMap
  | fv :: rest =>
      if negb (IsExported (fst fv)) then convert_fields rest elemMap
      else
        let fieldName := getColumnName (fst fv) in
        if negb (String.eqb fieldName "-") then
          obind (convertValue (snd fv)) (λ w,
            convert_fields rest (<[fieldName := w]> elemMap))
        else convert_fields rest elemMap
  end.

(** The outer loop over the elements. *)
Fixpoint convert_elems (xs : list Value) (result : list (gmap string Wire))
  : outcome Wire :=
  match xs with
  | [] => Ret (WMaps result)
  | elem :: rest =>
      match elem with
      | VStruct fs =>
          obind (convert_fields fs ∅) (λ elemMap,
            convert_elems rest (result ++ [elemMap]))
      | _ => Panic "reflect: call of reflect.Value.NumField on non-struct Value"
      end
  end.
End convert.

Fixpoint convertValue (fieldValue : Value) : outcome Wire :=
  match fieldValue with
  | VInvalid => Ret WNil
  | VArray elemType xs | VSlice elemType xs =>
      if Nat.eqb (length xs) 0 then Ret (WSlice [])
      else if decide (Type_Kind elemType = Struct) then
        convert_elems convertValue xs []
      else Ret (WRaw fieldValue)
  | VPtr _ None => Ret WNil
  | VPtr _ (Some x) => convertValue x
  | _ => Ret (WRaw fieldValue)
  end.

(** *** extractValues *)

Fixpoint extract_fields (fields : list StructField) (i : nat) (v : Value)
    (columns : list string) (values : list Wire) (columnIndex : nat)
  : outcome (list Wire) :=
  match fields with
  | [] => Ret values
  | field :: rest =>
      obind (Value_Field v i) (λ fieldValue,
        if negb (IsExported field) then
          extract_fields rest (S i) v columns values columnIndex
        else
          let columnName := getColumnName field in
          if String.eqb columnName "-" then
            extract_fields rest (S i) v columns values columnIndex
          else if Nat.leb (length columns) columnIndex then Ret values
          else
            obind (convertValue fieldValue) (λ value,
              extract_fields rest (S i) v columns (values ++ [value])
                (S columnIndex)))
  end.

Definition extractValues (item : Value) (columns : list string)
  : outcome (list Wire * option error) :=
  match item with
  | VInvalid => Panic "invalid memory address or nil pointer dereference"
  | _ =>
      let v := item in
      let t := TypeOf item in
      obind (if decide (Type_Kind t = Pointer)
             then obind (Value_Elem v) (λ v, obind (Type_Elem t) (λ t, Ret (v, t)))
             else Ret (v, t))
        (λ vt,
          obind (Type_Fields (snd vt)) (λ fields,
            obind (extract_fields fields 0 (fst vt) columns [] 0) (λ values,
              Ret (values, None))))
  end.

(** ** The store driver

    [driver.Conn], [driver.Batch], [*sql.DB] and [*sql.Rows] are interfaces
    of the ClickHouse driver and of [database/sql]; the package only calls
    them.  A driver is any state type with these operations. *)

Definition Batch : Type := nat.

(** The result of a query, as [*sql.Rows] delivers it: the column names (or
    the error of [rows.Columns()]), the rows that [rows.Next()] steps over,
    the final [rows.Err()], and what [rows.Close()] returns when the rows
    are closed after a row was read. *)
Record Rows : Type := mkRows {
  rows_Columns : list string + error;
  rows_data : list (list Scalar);
  rows_Err : option error;
  rows_Close_error : option error
}.

(** [clickhouse.Options], the fields the constructor sets. *)
Record Options : Type := mkOptions {
  Addr : list string;
  Auth_Database : string;
  Auth_Username : string;
  Auth_Password : string;
  opt_Debug : bool;
  Settings : list (string * Z);
  Compression : option string;
  DialTimeout_s : Z;
  MaxOpenConns : Z;
  MaxIdleConns : Z;
  ConnMaxLifetime_s : Z
}.

Class Driver (D : Type) : Type := {
  clickhouse_Open : Options → D → option error * D;
  conn_Ping : D → option error * D;
  clickhouse_OpenDB : Options → D → D;
  conn_PrepareBatch : string → D → (Batch + error) * D;
  batch_Append : Batch → list Wire → D → option error * D;
  batch_Send : Batch → D → option error * D;
  conn_Exec : string → list Wire → D → option error * D;
  db_QueryContext : string → list Wire → D → (Rows + error) * D;
  (** [database/sql]'s conversion of one cell into a destination of the
      given type *)
  sql_convertAssign : GoType → Scalar → Value + error
}.

(** Every call that crosses into the driver, with what it returned. *)
Inductive Event : Type :=
| EvOpen (o : Options) (r : option error)
| EvPing (r : option error)
| EvOpenDB (o : Options)
| EvPrepareBatch (sql : string) (r : Batch + error)
| EvAppend (b : Batch) (values : list Wire) (r : option error)
| EvSend (b : Batch) (r : option error)
| EvExec (query : string) (args : list Wire) (r : option error)
| EvQuery (query : string) (args : list Wire) (r : Rows + error)
| EvRowsClose.

(** The package-level variable [CKCONN] lives in the world beside the driver
    state and the log. *)
Record World (D : Type) : Type := mkWorld {
  drv : D;
  log : list Event;
  CKCONN : ClickHouseClient
}.
Arguments mkWorld {D} drv log CKCONN.
Arguments drv {D} w.
Arguments log {D} w.
Arguments CKCONN {D} w.

Definition M (D A : Type) : Type := World D → outcome A * World D.

Definition ret {D A} (a : A) : M D A := λ w, (Ret a, w).

Definition bind {D A B} (m : M D A) (k : A → M D B) : M D B :=
  λ w, match m w with
       | (Ret a, w') => k a w'
       | (Panic msg, w') => (Panic msg, w')
       | (OutOfFuel, w') => (OutOfFuel, w')
       end.

Definition lift {D A} (x : outcome A) : M D A := λ w, (x, w).

Notation "x <- m ;; k" := (bind m (λ x, k))
  (at level 100, m at next level, right associativity,
   format "'[v' x  <-  m  ;; '/' k ']'").

(** One driver call: run it on the driver state and record it. *)
Definition call {D A} (op : D → A * D) (ev : A → Event) : M D A :=
  λ w, let '(r, d) := op (drv w) in
       (Ret r, mkWorld d (log w ++ [ev r]) (CKCONN w)).

Section client.
Context {D : Type} `{!Driver D}.

(** *** NewClickHouseClient *)

Definition NewClickHouseClient (config : Config)
  : M D (ClickHouseClient + error) :=
  let addr := GoStrings.Split (Hosts config) "," in
  let opts :=
    mkOptions addr (Database config) (Username config) (Password config)
      (Debug config) [("max_execution_time", 60)] (Some "lz4")
      30 10 5 3600 in
  err <- call (clickhouse_Open opts) (EvOpen opts) ;;
  match err with
  | Some err => ret (inr (Errorf_w "failed to connect to ClickHouse" err))
  | None =>
      err <- call conn_Ping EvPing ;;
      match err with
      | Some err => ret (inr (Errorf_w "failed to ping ClickHouse" err))
      | None =>
          let dbopts :=
            mkOptions addr (Database config) (Username config)
              (Password config) false [] None 0 0 0 0 in
          _ <- call (λ d, (tt, clickhouse_OpenDB dbopts d))
                    (λ _, EvOpenDB dbopts) ;;
          let batchSize := BatchSize config in
          let batchSize := if batchSize <=? 0 then 1000 else batchSize in
          let ckconn := mkClient batchSize in
          λ w, (Ret (inl ckconn), mkWorld (drv w) (log w) ckconn)
      end
  end.

(** *** prepareBatch *)

Definition prepareBatch (c : ClickHouseClient) (tableName : string)
    (columns : list string) : M D (Batch + error) :=
  let sql := "INSERT INTO " +:+ tableName +:+ " (" +:+
             GoStrings.Join columns ", " +:+ ")" in
  call (conn_PrepareBatch sql) (EvPrepareBatch sql).

(** *** BatchInsert *)

(** The inner loop [for j := i; j < end; j++], [n] iterations left. *)
Fixpoint append_loop (batch : Batch) (xs : list Value)
    (columns : list string) (j : Z) (n : nat) : M D (option error) :=
  match n with
  | O => ret None
  | S n' =>
      item <- lift (Value_Index xs j) ;;
      r <- lift (extractValues item columns) ;;
      match snd r with
      | Some err =>
          ret (Some (mkError ("failed to extract values from item " +:+
                              fmt_d j +:+ ": " +:+ Error err) (Some err)))
      | None =>
          err <- call (batch_Append batch (fst r)) (EvAppend batch (fst r)) ;;
          match err with
          | Some err => ret (Some (Errorf_w "failed to append data to batch" err))
          | None => append_loop batch xs columns (j + 1) n'
          end
      end
  end.

(** The outer loop [for i := 0; i < dataLen; i += c.batchSize]. *)
Fixpoint insert_loop (fuel : nat) (c : ClickHouseClient)
    (tableName : string) (xs : list Value) (dataLen : Z)
    (columns : list string) (i : Z) : M D (option error) :=
  if negb (i <? dataLen) then ret None
  else
    match fuel with
    | O => lift OutOfFuel
    | S fuel' =>
        let end_ := int_add i (batchSize c) in
        let end_ := if end_ >? dataLen then dataLen else end_ in
        r <- prepareBatch c tableName columns ;;
        match r with
        | inr err => ret (Some (Errorf_w "failed to prepare batch" err))
        | inl batch =>
            err <- append_loop batch xs columns i (Z.to_nat (end_ - i)) ;;
            match err with
            | Some err => ret (Some err)
            | None =>
                err <- call (batch_Send batch) (EvSend batch) ;;
                match err with
                | Some err =>
                    ret (Some (mkError
                      ("failed to send batch " +:+ fmt_d i +:+ "-" +:+
                       fmt_d (int_sub end_ 1) +:+ ": " +:+ Error err)
                      (Some err)))
                | None =>
                    insert_loop fuel' c tableName xs dataLen columns
                      (int_add i (batchSize c))
                end
            end
        end
    end.

(** [data] is any value; each element [dataValue.Index(j).Interface()] of a
    slice is the element itself (for a slice of interfaces, the value the
    interface holds, [VInvalid] when it holds nil).  [fuel] bounds the
    rounds of the outer loop, which does not advance when the batch size is
    zero. *)
Definition BatchInsert (fuel : nat) (c : ClickHouseClient)
    (tableName : string) (data : Value) : M D (option error) :=
  match data with
  | VSlice _ xs =>
      let dataLen := Z.of_nat (length xs) in
      if dataLen =? 0 then ret None
      else
        firstElem <- lift (Value_Index xs 0) ;;
        r <- lift (analyzeStructure firstElem) ;;
        match snd r with
        | Some err =>
            ret (Some (Errorf_w "failed to analyze data structure" err))
        | None => insert_loop fuel c tableName xs dataLen (fst r) 0
        end
  | _ => ret (Some (Errorf "data must be a slice"))
  end.

(** *** Exec *)

Definition Exec (c : ClickHouseClient) (query : string) (args : list Wire)
  : M D (option error) :=
  call (conn_Exec query args) (EvExec query args).

End client.

(** ** Result mapping *)

(** *** findStructField

    The field is returned as its index in the struct ([None] for the zero
    [reflect.Value]). *)

Fixpoint find_field (fields : list StructField) (i : nat)
    (columnName : string) : option nat :=
  match fields with
  | [] => None
  | field :: rest =>
      if negb (IsExported field) then find_field rest (S i) columnName
      else
        let fieldColumnName := getColumnName field in
        if String.eqb fieldColumnName columnName then Some i
        else find_field rest (S i) columnName
  end.

Definition findStructField (structValue : Value) (columnName : string)
  : outcome (option nat) :=
  obind (Type_Fields (TypeOf structValue)) (λ fields,
    Ret (find_field fields 0 columnName)).

(** One entry of [scanDest]: the address of a field of the new record, or a
    fresh [*interface{}] that nobody reads. *)
Inductive ScanTarget : Type :=
| FieldAddr (i : nat) (t : GoType)
| Dummy.

Definition dquote : string := String (ascii_of_nat 34) EmptyString.

Section scan.
Context {D : Type} `{!Driver D}.

(** [rows.Scan(dest...)] of [database/sql]: the cells are converted and
    stored one by one, in column order; the first conversion that fails
    ends the scan with its error.  A [*interface{}] destination accepts
    every cell. *)
Fixpoint scan_cells (dest : list ScanTarget) (row : list Scalar) (i : Z)
    (columns : list string) (fields : list (StructField * Value))
  : list (StructField * Value) * option error :=
  match dest, row with
  | d :: dest', cell :: row' =>
      match d with
      | Dummy => scan_cells dest' row' (i + 1) columns fields
      | FieldAddr k t =>
          match fields !! k with
          | Some fv =>
              match sql_convertAssign t cell with
              | inl v =>
                  scan_cells dest' row' (i + 1) columns
                    (<[k := (fst fv, v)]> fields)
              | inr err =>
                  (fields,
                   Some (mkError
                     ("sql: Scan error on column index " +:+ fmt_d i +:+
                      ", name " +:+ dquote +:+
                      default "" (columns !! Z.to_nat i) +:+ dquote +:+
                      ": " +:+ Error err) (Some err)))
              end
          | None => scan_cells dest' row' (i + 1) columns fields
          end
      end
  | _, _ => (fields, None)
  end.

Definition rows_Scan (dest : list ScanTarget) (row : list Scalar)
    (columns : list string) (fields : list (StructField * Value))
  : list (StructField * Value) * option error :=
  if negb (Nat.eqb (length dest) (length row)) then
    (fields,
     Some (Errorf ("sql: expected " +:+ fmt_d (Z.of_nat (length row)) +:+
                   " destination arguments in Scan, not " +:+
                   fmt_d (Z.of_nat (length dest)))))
  else scan_cells dest row 0 columns fields.

(** *** QueryToStruct *)

(** The loop [for i, col := range columns] that fills [scanDest]:
    [field.IsValid() && field.CanSet()] holds for every field found, since
    it is an exported field of an addressable struct. *)
Fixpoint scan_dest (structValue : Value) (columns : list string)
  : outcome (list ScanTarget) :=
  match columns with
  | [] => Ret []
  | col :: rest =>
      obind (findStructField structValue col) (λ field,
        obind (match field with
               | Some i =>
                   obind (Value_Field structValue i) (λ fv,
                     Ret (FieldAddr i (TypeOf fv)))
               | None => Ret Dummy
               end) (λ d,
          obind (scan_dest structValue rest) (λ ds, Ret (d :: ds))))
  end.

(** The body of [for rows.Next() { ... }] for one row: the new element, or
    the error of [rows.Scan]. *)
Definition scan_row (isPtr : bool) (actualElemType : GoType)
    (columns : list string) (row : list Scalar) : outcome (Value + error) :=
  let structValue := zero actualElemType in
  obind (scan_dest structValue columns) (λ scanDest,
    match structValue with
    | VStruct fields =>
        match rows_Scan scanDest row columns fields with
        | (_, Some err) => Ret (inr err)
        | (fields', None) =>
            Ret (inl (if isPtr : bool
                      then VPtr actualElemType (Some (VStruct fields'))
                      else VStruct fields'))
        end
    | _ => Panic "reflect: call of reflect.Value.Field on non-struct Value"
    end).

Fixpoint rows_loop (isPtr : bool) (actualElemType : GoType)
    (columns : list string) (rows : list (list Scalar))
    (sliceValue : list Value) : outcome (list Value * option error) :=
  match rows with
  | [] => Ret (sliceValue, None)
  | row :: rest =>
      obind (scan_row isPtr actualElemType columns row) (λ r,
        match r with
        | inr err => Ret (sliceValue, Some err)
        | inl newElem =>
            rows_loop isPtr actualElemType columns rest
              (sliceValue ++ [newElem])
        end)
  end.

(** [c.Query] *)
Definition Query (c : ClickHouseClient) (query : string) (args : list Wire)
  : M D (Rows + error) :=
  call (db_QueryContext query args) (EvQuery query args).

Definition rows_Close : M D unit :=
  λ w, (Ret tt, mkWorld (drv w) (log w ++ [EvRowsClose]) (CKCONN w)).

(** [dest] is passed by pointer; the function returns what [dest] points
    to afterwards, beside the error. *)
Definition QueryToStruct (c : ClickHouseClient) (dest : Value)
    (query : string) (args : list Wire) : M D (Value * option error) :=
  match dest with
  | VPtr pt (Some (VSlice elemType sliceValue)) =>
      let isPtr := bool_decide (Type_Kind elemType = Pointer) in
      actualElemType <- lift (if isPtr then Type_Elem elemType
                              else Ret elemType) ;;
      if decide (Type_Kind actualElemType ≠ Struct) then
        ret (dest, Some (Errorf "slice elements must be structs"))
      else
        rows <- Query c query args ;;
        match rows with
        | inr err => ret (dest, Some err)
        | inl rows =>
            match rows_Columns rows with
            | inr err =>
                _ <- rows_Close ;; ret (dest, Some err)
            | inl columns =>
                r <- lift (rows_loop isPtr actualElemType columns
                             (rows_data rows) sliceValue) ;;
                _ <- rows_Close ;;
                ret (VPtr pt (Some (VSlice elemType (fst r))),
                     match snd r with
                     | Some err => Some err
                     | None => rows_Err rows
                     end)
            end
        end
  | _ => ret (dest, Some (Errorf "dest must be a pointer to slice"))
  end.

End scan.

(** ** DDL *)

Section ddl.
Context {D : Type} `{!Driver D}.

Definition nl : string := String (ascii_of_nat 10) EmptyString.

(** [for _, col := range cols { if col.Name == "created_at" ... break }] *)
Fixpoint hasCreatedAt (cols : list Column) : bool :=
  match cols with
  | [] => false
  | col :: rest =>
      if String.eqb (col_Name col) "created_at" then true
      else hasCreatedAt rest
  end.

(** The column loop shared by both builders: [sb] is the builder so far,
    [i] the index of the head of [cols], [n] is [len(cols)]. *)
Fixpoint write_columns (cols : list Column) (i n : Z) (sb : string)
  : string :=
  match cols with
  | [] => sb
  | col :: rest =>
      let sb := sb +:+ "  " +:+ col_Name col +:+ " " +:+ col_Type col in
      let sb := if i <? n - 1 then sb +:+ "," +:+ nl else sb in
      write_columns rest (i + 1) n sb
  end.

Definition create_database_stmt (database : string) : string :=
  "CREATE DATABASE IF NOT EXISTS " +:+ database +:+ " ON CLUSTER bms_cluster".

Definition create_table_stmt (database table order desc : string)
    (cols : list Column) : string :=
  let sb := "CREATE TABLE IF NOT EXISTS " +:+ database +:+ "." +:+ table +:+
            " ON CLUSTER bms_cluster (" +:+ nl in
  let sb := write_columns cols 0 (Z.of_nat (length cols)) sb in
  let sb := sb +:+ nl +:+ ")" +:+ nl +:+
            "ENGINE = ReplicatedMergeTree('/clickhouse/tables/" +:+
            database +:+ "/{shard}/" +:+ table +:+ "', '{replica}')" +:+ nl in
  let sb := sb +:+ "PARTITION BY toYYYYMM(created_at)" +:+ nl in
  let sb := sb +:+ "ORDER BY (" +:+ order +:+ ", intHash64(created_at))" +:+ nl in
  let sb := sb +:+ "SAMPLE BY intHash64(created_at)" +:+ nl in
  let sb := sb +:+ "SETTINGS index_granularity = 8192" +:+ nl in
  sb +:+ "COMMENT '" +:+ desc +:+ "';".

Definition CreateTable (c : ClickHouseClient)
    (database table order desc : string) (cols : list Column)
  : M D (option error) :=
  if negb (hasCreatedAt cols) then
    ret (Some (Errorf ("created_at column is required for table " +:+
                       database +:+ "." +:+ table)))
  else
    err <- Exec c (create_database_stmt database) [] ;;
    match err with
    | Some err => ret (Some err)
    | None => Exec c (create_table_stmt database table order desc cols) []
    end.

Definition create_distributed_stmt (distDB localTable desc : string)
    (cols : list Column) : string :=
  let sb := "CREATE TABLE IF NOT EXISTS " +:+ distDB +:+ "." +:+
            (localTable +:+ "_distributed") +:+
            " ON CLUSTER bms_cluster (" +:+ nl in
  let sb := write_columns cols 0 (Z.of_nat (length cols)) sb in
  let sb := sb +:+ nl +:+ ")" +:+ nl +:+
            "ENGINE = Distributed('bms_cluster', '" +:+ distDB +:+
            "', '" +:+ localTable +:+ "')" +:+ nl in
  sb +:+ "COMMENT '" +:+ desc +:+ "';".

Definition CreateDistributedTable (c : ClickHouseClient)
    (distDB localTable desc : string) (cols : list Column)
  : M D (option error) :=
  if Z.of_nat (length cols) =? 0 then
    ret (Some (Errorf "columns must be provided"))
  else
    err <- Exec c (create_database_stmt distDB) [] ;;
    match err with
    | Some err => ret (Some err)
    | None =>
        Exec c (create_distributed_stmt distDB localTable desc cols) []
    end.

End ddl.

(** ** A scripted driver

    A test double: every driver call that can fail takes its answer from a
    script (an exhausted script answers success); batch handles are numbered
    as they are prepared; queries return the queued result sets. *)

Module Scripted.

Record State : Type := mkState {
  script : list (option error);
  next_batch : Batch;
  results : list Rows
}.

Definition answer (s : State) : option error * State :=
  match script s with
  | [] => (None, s)
  | r :: rest => (r, mkState rest (next_batch s) (results s))
  end.

Definition is_int_kind (k : Kind) : bool :=
  match k with
  | Int | Int8 | Int16 | Int32 | Int64
  | Uint | Uint8 | Uint16 | Uint32 | Uint64 => true
  | _ => false
  end.

Definition convertAssign (t : GoType) (cell : Scalar) : Value + error :=
  match t, cell with
  | TBasic String_, SString s => inl (VBasic String_ (SString s))
  | TBasic Bool, SBool b => inl (VBasic Bool (SBool b))
  | TBasic k, SInt z =>
      if is_int_kind k then inl (VBasic k (SInt z))
      else inr (Errorf "converting driver.Value type int64 to a non-integer")
  | _, _ => inr (Errorf "unsupported Scan, storing driver.Value into type")
  end.

#[global] Instance driver : Driver State := {|
  clickhouse_Open := λ _ s, answer s;
  conn_Ping := answer;
  clickhouse_OpenDB := λ _ s, s;
  conn_PrepareBatch := λ _ s,
    match answer s with
    | (Some err, s') => (inr err, s')
    | (None, s') =>
        (inl (next_batch s'),
         mkState (script s') (S (next_batch s')) (results s'))
    end;
  batch_Append := λ _ _ s, answer s;
  batch_Send := λ _ s, answer s;
  conn_Exec := λ _ _ s, answer s;
  db_QueryContext := λ _ _ s,
    match answer s with
    | (Some err, s') => (inr err, s')
    | (None, s') =>
        match results s' with
        | [] => (inl (mkRows (inl []) [] None None), s')
        | r :: rest => (inl r, mkState (script s') (next_batch s') rest)
        end
    end;
  sql_convertAssign := convertAssign
|}.

Definition world (script : list (option error)) (results : list Rows)
  : World State :=
  mkWorld (mkState script 0%nat results) [] (mkClient 0).

End Scripted.

(** ** A store that honours IF NOT EXISTS

    A second test double, for the provisioning calls: the store keeps the
    set of the objects it holds, each named by the statement that created
    it.  A create-if-not-exists statement is accepted whether or not its
    object is there, and adds it when it is not; any other statement is
    refused. *)

Module Store.

Definition State : Type := gset string.

Definition exec (query : string) (s : State) : option error * State :=
  if (String.prefix "CREATE DATABASE IF NOT EXISTS " query ||
      String.prefix "CREATE TABLE IF NOT EXISTS " query)%bool
  then (None, {[query]} ∪ s)
  else (Some (Errorf "statement refused"), s).

#[global] Instance driver : Driver State := {|
  clickhouse_Open := λ _ s, (None, s);
  conn_Ping := λ s, (None, s);
  clickhouse_OpenDB := λ _ s, s;
  conn_PrepareBatch := λ _ s, (inl 0%nat, s);
  batch_Append := λ _ _ s, (None, s);
  batch_Send := λ _ s, (None, s);
  conn_Exec := λ query _ s, exec query s;
  db_QueryContext := λ _ _ s, (inl (mkRows (inl []) [] None None), s);
  sql_convertAssign := λ _ _, inr (Errorf "no rows")
|}.

End Store.

(** *** QueryRow and Count *)

(** [sql.ErrNoRows] *)
Definition ErrNoRows : error := Errorf "sql: no rows in result set".

Section count.
Context {D : Type} `{!Driver D}.

(** [c.QueryRow]: [QueryRowContext] runs the query at once; the [*sql.Row]
    it returns holds the rows, or the error of the query. *)
Definition QueryRow (c : ClickHouseClient) (query : string) (args : list Wire)
  : M D (Rows + error) :=
  call (db_QueryContext query args) (EvQuery query args).

(** [row.Scan(&count)] of [database/sql], for a destination that holds
    [count]: what the destination holds afterwards, and the error.  The error
    of the query comes back as it is; without a first row the error is
    [rows.Err()] or [sql.ErrNoRows]; else the first row is scanned as
    [rows.Scan] does, and when that succeeds the error is what
    [rows.Close()] returns.  [Scan] closes the rows itself, within
    [database/sql]: the package makes no call for it. *)
Definition Row_Scan (row : Rows + error) (count : Value)
  : M D (Value * option error) :=
  match row with
  | inr err => ret (count, Some err)
  | inl rows =>
      match rows_data rows with
      | [] => ret (count, Some (default ErrNoRows (rows_Err rows)))
      | cells :: _ =>
          let dest := [(mkField "count" "" [], count)] in
          let columns := match rows_Columns rows with
                         | inl columns => columns
                         | inr _ => []
                         end in
          let r := rows_Scan [FieldAddr 0 (TypeOf count)] cells columns dest in
          ret (default count (snd <$> fst r !! 0%nat),
               match snd r with
               | Some err => Some err
               | None => rows_Close_error rows
               end)
      end
  end.

Definition Count (c : ClickHouseClient) (tableName where_ : string)
    (args : list Wire) : M D (Value * option error) :=
  let query := "SELECT COUNT(*) FROM " +:+ tableName in
  let query := if negb (String.eqb where_ "")
               then query +:+ " WHERE " +:+ where_ else query in
  let count := VBasic Int64 (SInt 0) in
  row <- QueryRow c query args ;;
  Row_Scan row count.

End count.

(** * Package [encrypt]: a repeating-key XOR cipher with a checksum

    A [byte] is an [ascii] (eight bits); a [[]byte] is a list of them, and
    [[]byte(str)] and [string(data)] change the representation only.  The
    functions that encode in place return what the caller's slice holds
    afterwards. *)

(** ** Package [encoding/hex] *)

Module hex.

Inductive error : Type :=
| ErrLength
| InvalidByteError (c : ascii).

(** [hextable[n]] for [n < 16] *)
Definition hextable (n : N) : ascii :=
  default "0"%char
    (String.list_ascii_of_string "0123456789abcdef" !! N.to_nat n).

(** [EncodeToString]: two lower-case digits per byte, high nibble first. *)
Fixpoint EncodeToString (src : list ascii) : string :=
  match src with
  | [] => ""
  | v :: rest =>
      String (hextable (N.shiftr (N_of_ascii v) 4))
        (String (hextable (N.land (N_of_ascii v) 15)) (EncodeToString rest))
  end.

(** [reverseHexTable[c]], [None] for the entries that are [0xff]. *)
Definition reverseHexTable (c : ascii) : option N :=
  let n := N_of_ascii c in
  if (48 <=? n)%N && (n <=? 57)%N then Some (n - 48)%N
  else if (97 <=? n)%N && (n <=? 102)%N then Some (n - 97 + 10)%N
  else if (65 <=? n)%N && (n <=? 70)%N then Some (n - 65 + 10)%N
  else None.

(** [Decode]: the bytes decoded before the first error, and that error. *)
Fixpoint Decode (src : list ascii) : list ascii * option error :=
  match src with
  | [] => ([], None)
  | [p] =>
      match reverseHexTable p with
      | None => ([], Some (InvalidByteError p))
      | Some _ => ([], Some ErrLength)
      end
  | p :: q :: rest =>
      match reverseHexTable p, reverseHexTable q with
      | None, _ => ([], Some (InvalidByteError p))
      | _, None => ([], Some (InvalidByteError q))
      | Some a, Some b =>
          let r := Decode rest in
          (ascii_of_N (N.lor (N.shiftl a 4) b) :: fst r, snd r)
      end
  end.

Definition DecodeString (s : string) : list ascii * option error :=
  Decode (String.list_ascii_of_string s).

End hex.

(** ** The cipher *)

Module encrypt.

Record SimpleEncrypt : Type := mkSimpleEncrypt { Key : string }.

(** [[]byte(str)] and [string(data)] *)
Definition bytes (str : string) : list ascii := String.list_ascii_of_string str.
Definition string_ (data : list ascii) : string :=
  String.string_of_list_ascii data.

(** [int(b)], [byte(n)] and [a ^ b] on bytes *)
Definition int_of_byte (b : ascii) : Z := Z.of_N (N_of_ascii b).
Definition byte_of_int (n : Z) : ascii := ascii_of_N (Z.to_N (n mod 256)).
Definition xor_byte (a b : ascii) : ascii :=
  ascii_of_N (N.lxor (N_of_ascii a) (N_of_ascii b)).

(** *** calaCheckCode *)

(** The loop [for i := 0; i < len(src); i++ { check += int(src[i]) }] *)
Fixpoint check_loop (src : list ascii) (check : Z) : Z :=
  match src with
  | [] => check
  | b :: rest => check_loop rest (int_add check (int_of_byte b))
  end.

Definition calaCheckCode (src : list ascii) : list ascii :=
  let check := check_loop src 0 in
  [byte_of_int (Z.land (Z.shiftr check 8) 255);
   byte_of_int (Z.land check 255)].

(** *** verify

    [src[:len(src)-2]] panics on a slice shorter than two bytes. *)
Definition verify (src : list ascii) : outcome bool :=
  if (length src <? 2)%nat then Panic "slice bounds out of range"
  else
    let v := calaCheckCode (take (length src - 2) src) in
    Ret (bool_decide (v = drop (length src - 2) src)).

(** *** doEncode *)

(** The inner loop [for j := 0; j < len(tmp); j, i = j+1, i+1], from the
    key bytes that are left: the bytes, the index [i], and whether the loop
    was left by [break THEFOR]. *)
Fixpoint key_loop (tmp : list ascii) (bs : list ascii) (i : nat)
  : list ascii * nat * bool :=
  match tmp with
  | [] => (bs, i, false)
  | k :: tmp' =>
      match bs !! i with
      | None => (bs, i, true)
      | Some b => key_loop tmp' (<[i := xor_byte b k]> bs) (S i)
      end
  end.

(** The outer loop [for i := 0; i < len(bs); { ... }]; [fuel] bounds its
    rounds, since a round with an empty key does not advance [i]. *)
Fixpoint encode_loop (fuel : nat) (tmp : list ascii) (bs : list ascii)
    (i : nat) : outcome (list ascii) :=
  if negb (i <? length bs)%nat then Ret bs
  else
    match fuel with
    | O => OutOfFuel
    | S fuel' =>
        let '(bs', i', stop) := key_loop tmp bs i in
        if stop : bool then Ret bs' else encode_loop fuel' tmp bs' i'
    end.

Definition doEncode (fuel : nat) (s : SimpleEncrypt) (bs : list ascii)
  : outcome (list ascii) :=
  let tmp := bytes (Key s) in
  encode_loop fuel tmp bs 0.

(** *** The hexadecimal variants *)

Definition Encode2Hex (fuel : nat) (s : SimpleEncrypt) (str : string)
  : outcome string :=
  let data := bytes str in
  obind (doEncode fuel s data) (λ data,
    Ret (hex.EncodeToString data)).

Definition Encode2HexByCheck (fuel : nat) (s : SimpleEncrypt) (str : string)
  : outcome string :=
  let data := bytes str in
  obind (doEncode fuel s data) (λ data,
    let v := calaCheckCode data in
    let data := data ++ v in
    Ret (hex.EncodeToString data)).

Definition Decode4Hex (fuel : nat) (s : SimpleEncrypt) (str : string)
  : outcome string :=
  let data := fst (hex.DecodeString str) in
  obind (doEncode fuel s data) (λ data,
    Ret (string_ data)).

Definition Decode4HexByCheck (fuel : nat) (s : SimpleEncrypt) (str : string)
  : outcome string :=
  let data := fst (hex.DecodeString str) in
  if (length data <? 2)%nat then Ret ""
  else
    obind (verify data) (λ ok,
      if negb ok then Ret ""
      else
        let data := take (length data - 2) data in
        obind (doEncode fuel s data) (λ data,
          Ret (string_ data))).

(** *** The variants that work in place

    [data = append(data, v...)] and [data = []byte{}] assign to the
    parameter: the caller's slice keeps its length, and its bytes are those
    left by [doEncode]. *)

Definition Encode (fuel : nat) (s : SimpleEncrypt) (data : list ascii)
  : outcome (list ascii) :=
  doEncode fuel s data.

Definition EncodeByCheck (fuel : nat) (s : SimpleEncrypt) (data : list ascii)
  : outcome (list ascii) :=
  obind (doEncode fuel s data) (λ data,
    let v := calaCheckCode data in
    let _data := data ++ v in
    Ret data).

Definition Decode (fuel : nat) (s : SimpleEncrypt) (data : list ascii)
  : outcome (list ascii) :=
  doEncode fuel s data.

Definition DecodeByCheck (fuel : nat) (s : SimpleEncrypt) (data : list ascii)
  : outcome (list ascii) :=
  if (length data <? 2)%nat then Ret data
  else
    obind (verify data) (λ ok,
      if negb ok then
        let _data : list ascii := [] in
        Ret data
      else doEncode fuel s data).

End encrypt.

(** * Package [logger]: the rotating log file *)

(** ** Package [os]: an ideal file system

    A file system is a map from paths to contents.  Its operations fail
    only for a file that is not there or a handle that has been closed;
    directories are not modelled, so [os.MkdirAll] has nothing to do. *)

Module os.

Abbreviation FS := (gmap string (list ascii)) (only parsing).

Definition ErrNotExist : error := Errorf "no such file or directory".
Definition ErrClosed : error := Errorf "file already closed".

(** [*os.File]: the path the file was opened at, and whether [Close] has
    been called on it. *)
Record File : Type := mkFile { file_name : string; file_closed : bool }.

(** [os.Stat(name)], its error only *)
Definition Stat (name : string) (fs : FS) : option error :=
  match fs !! name with
  | Some _ => None
  | None => Some ErrNotExist
  end.

(** [os.Rename(oldpath, newpath)]: [newpath] is replaced if it exists. *)
Definition Rename (oldpath newpath : string) (fs : FS) : option error * FS :=
  match fs !! oldpath with
  | Some content => (None, <[newpath := content]> (delete oldpath fs))
  | None => (Some ErrNotExist, fs)
  end.

(** [os.OpenFile(name, os.O_CREATE|os.O_WRONLY|os.O_APPEND, 0644)] *)
Definition OpenFile (name : string) (fs : FS) : File * FS :=
  (mkFile name false,
   match fs !! name with
   | Some _ => fs
   | None => <[name := []]> fs
   end).

(** [file.Stat()] followed by [stat.Size()] *)
Definition File_Size (f : File) (fs : FS) : Z :=
  Z.of_nat (length (default [] (fs !! file_name f))).

(** [file.Write(p)] on a file opened with [O_APPEND] *)
Definition File_Write (f : File) (p : list ascii) (fs : FS)
  : (Z * option error) * FS :=
  if file_closed f then ((0, Some ErrClosed), fs)
  else ((Z.of_nat (length p), None),
        <[file_name f := default [] (fs !! file_name f) ++ p]> fs).

(** [file.Close()] *)
Definition File_Close (f : File) : option error * File :=
  if file_closed f then (Some ErrClosed, f)
  else (None, mkFile (file_name f) true).

End os.

(** ** The rotator

    The methods have a pointer receiver: they take the rotator and the file
    system and return both beside their results. *)

Module logger.

Record LogRotator : Type := mkLogRotator {
  filename : string;
  maxSize : Z;
  maxBackups : Z;
  currentSize : Z;
  file : os.File
}.

(** *** backupFilename *)

Definition backupFilename (r : LogRotator) (num : Z) : string :=
  if num =? 0 then filename r +:+ ".1"
  else filename r +:+ "." +:+ fmt_d (int_add num 1).

(** *** openFile *)

(** On the ideal file system neither [os.OpenFile] nor [file.Stat] fails, so
    the error of [openFile] is nil. *)
Definition openFile (r : LogRotator) (fs : os.FS)
  : option error * LogRotator * os.FS :=
  let '(file, fs) := os.OpenFile (filename r) fs in
  let size := os.File_Size file fs in
  (None, mkLogRotator (filename r) (maxSize r) (maxBackups r) size file, fs).

(** *** NewRotator *)

(** On the ideal file system [os.MkdirAll] has nothing to do and does not
    fail; the errors of [os.MkdirAll] and [openFile], which [NewRotator]
    hands back on a real one, do not arise here. *)
Definition NewRotator (filename : string) (maxSize maxBackups : Z)
    (fs : os.FS) : (LogRotator + error) * os.FS :=
  if maxSize <=? 0 then (inr (Errorf "maxSize 必须大于 0"), fs)
  else if maxBackups <? 0 then (inr (Errorf "maxBackups 不能为负数"), fs)
  else
    (* the nil [file] of the literal is stood for by a closed handle *)
    let r := mkLogRotator filename maxSize maxBackups 0 (os.mkFile "" true) in
    match openFile r fs with
    | (Some err, _, fs) => (inr err, fs)
    | (None, r, fs) => (inl r, fs)
    end.

(** *** rotate *)

(** The loop [for i := r.maxBackups; i > 0; i--], at [i]. *)
Fixpoint rename_backups (r : LogRotator) (i : nat) (fs : os.FS) : os.FS :=
  match i with
  | O => fs
  | S i' =>
      let oldPath := backupFilename r (Z.of_nat i') in
      let newPath := backupFilename r (Z.of_nat i) in
      let fs := match os.Stat oldPath fs with
                | None => snd (os.Rename oldPath newPath fs)
                | Some _ => fs
                end in
      rename_backups r i' fs
  end.

Definition rotate (r : LogRotator) (fs : os.FS)
  : option error * LogRotator * os.FS :=
  match os.File_Close (file r) with
  | (Some err, _) => (Some err, r, fs)
  | (None, closed) =>
      let r := mkLogRotator (filename r) (maxSize r) (maxBackups r)
                 (currentSize r) closed in
      let fs := rename_backups r (Z.to_nat (maxBackups r)) fs in
      match os.Rename (filename r) (backupFilename r 0) fs with
      | (Some err, fs) => (Some err, r, fs)
      | (None, fs) => openFile r fs
      end
  end.

(** *** Write *)

Definition Write (r : LogRotator) (p : list ascii) (fs : os.FS)
  : (Z * option error) * LogRotator * os.FS :=
  let rotated :=
    if int_add (currentSize r) (Z.of_nat (length p)) >? maxSize r
    then rotate r fs else (None, r, fs) in
  match rotated with
  | (Some err, r, fs) => ((0, Some err), r, fs)
  | (None, r, fs) =>
      let '((n, err), fs) := os.File_Write (file r) p fs in
      ((n, err),
       mkLogRotator (filename r) (maxSize r) (maxBackups r)
         (int_add (currentSize r) n) (file r),
       fs)
  end.

(** *** Close *)

Definition Close (r : LogRotator) : option error * LogRotator :=
  let '(err, closed) := os.File_Close (file r) in
  (err, mkLogRotator (filename r) (maxSize r) (maxBackups r)
          (currentSize r) closed).

(** *** getShortPath *)

Definition getShortPath (file : string) : string :=
  let parts := GoStrings.Split file "/" in
  if (2 <? length parts)%nat
  then GoStrings.Join (drop (length parts - 2) parts) "/"
  else file.

(** *** Entry.WithFields

    [Fields] is a [map[string]interface{}]; the type of its values, of the
    [*Logger] and of [time.Time] are left open. *)

Record Entry (V LoggerRef TimeT : Type) : Type := mkEntry {
  Logger : LoggerRef;
  Time : TimeT;
  Level : Z;
  Message : string;
  Fields : gmap string V;
  File : string;
  Line : Z;
  Func : string;
  callDepth : Z
}.
Arguments mkEntry {V LoggerRef TimeT}.
Arguments Logger {V LoggerRef TimeT} e.
Arguments Time {V LoggerRef TimeT} e.
Arguments Level {V LoggerRef TimeT} e.
Arguments Message {V LoggerRef TimeT} e.
Arguments Fields {V LoggerRef TimeT} e.
Arguments File {V LoggerRef TimeT} e.
Arguments Line {V LoggerRef TimeT} e.
Arguments Func {V LoggerRef TimeT} e.
Arguments callDepth {V LoggerRef TimeT} e.

(** [for k, v := range m { newFields[k] = v }]: the runtime chooses the
    order in which the entries of [m] come. *)
Definition range_assign {V : Type} (entries : list (string * V))
    (newFields : gmap string V) : gmap string V :=
  foldl (λ m kv, <[fst kv := snd kv]> m) newFields entries.

(** [order1] and [order2] are the orders in which the two loops see the
    entries of [e.Fields] and of [fields]. *)
Definition WithFields {V LoggerRef TimeT : Type} (e : Entry V LoggerRef TimeT)
    (fields : gmap string V) (order1 order2 : list (string * V))
  : Entry V LoggerRef TimeT :=
  let newFields : gmap string V := ∅ in
  let newFields := range_assign order1 newFields in
  let newFields := range_assign order2 newFields in
  mkEntry (Logger e) (Time e) (Level e) (Message e) newFields (File e)
    (Line e) (Func e) (callDepth e).

End logger.

(** * Package [utils]: helpers on slices of strings and integers *)

Module utils.

(** *** RemoveRepeatedElement *)

(** The inner loop [for j := i + 1; j < len(arr); j++], over the elements
    behind [arr[i]]: whether one of them equals it. *)
Fixpoint repeated (x : string) (later : list string) : bool :=
  match later with
  | [] => false
  | y :: later' => if String.eqb x y then true else repeated x later'
  end.

(** The outer loop, from element [i] on. *)
Fixpoint remove_loop (arr : list string) (newArr : list string)
  : list string :=
  match arr with
  | [] => newArr
  | x :: rest =>
      let repeat_ := repeated x rest in
      remove_loop rest (if negb repeat_ then newArr ++ [x] else newArr)
  end.

Definition RemoveRepeatedElement (arr : list string) : list string :=
  remove_loop arr [].

(** *** SetListStringadd *)

Definition SetListStringadd (list1 list2 : list string) : list string :=
  RemoveRepeatedElement (list1 ++ list2).

(** *** RemoveDuplicatesAndEmpty *)

(** The loop at index [i]; [prev] is [a[i-1]], [None] when [i] is 0. *)
Fixpoint duplicates_loop (prev : option string) (a : list string)
    (ret : list string) : list string :=
  match a with
  | [] => ret
  | x :: rest =>
      if match prev with
         | Some p => String.eqb p x
         | None => false
         end || Nat.eqb (String.length x) 0
      then duplicates_loop (Some x) rest ret
      else duplicates_loop (Some x) rest (ret ++ [x])
  end.

Definition RemoveDuplicatesAndEmpty (a : list string) : list string :=
  duplicates_loop None a [].

(** *** ListMaxVal *)

(** The loop [for i := 1; i < len(list); i++], over the elements from
    [list[1]] on. *)
Fixpoint max_loop (rest : list Z) (maxval : Z) : Z :=
  match rest with
  | [] => maxval
  | x :: rest' => max_loop rest' (if maxval <? x then x else maxval)
  end.

(** [list[0]] panics on an empty slice. *)
Definition ListMaxVal (list : list Z) : outcome Z :=
  match list with
  | [] => Panic "index out of range [0] with length 0"
  | first :: rest => Ret (max_loop rest first)
  end.

(** *** StringToSlice *)

(** [strings.ReplaceAll(s, old, new)] for a one-byte [old]. *)
Fixpoint ReplaceAll (s : string) (old : ascii) (new : string) : string :=
  match s with
  | EmptyString => EmptyString
  | String c s' =>
      if Ascii.eqb c old then new +:+ ReplaceAll s' old new
      else String c (ReplaceAll s' old new)
  end.

Definition StringToSlice (s : string) : list string :=
  let s := ReplaceAll s "[" "" in
  let s := ReplaceAll s "]" "" in
  GoStrings.Split s ",".

End utils.

(** * Values that share storage

    The values of the client's model ([Value]) are finite trees: each slice
    holds its elements and each pointer its referent.  In Go a slice and a pointer refer to
    storage, and a value reached through them can refer to the same storage
    again.  Here a slice is a header (the address of its backing array and
    its length) and a pointer an address, both into a store.  A slice or an
    array carries the kind of its element type, which is all that
    conversion reads of the type: a recursive type has no finite
    [GoType]. *)

Module Shared.

Inductive Value : Type :=
| VInvalid
| VBasic (k : Kind) (s : Scalar)
| VStruct (fields : list (StructField * Value))
| VArray (elemKind : Kind) (xs : list Value)
| VSlice (elemKind : Kind) (array : nat) (len : nat)
| VPtr (target : option nat).

Inductive Wire : Type :=
| WNil
| WRaw (v : Value)
| WSlice (xs : list Wire)
| WMaps (ms : list (gmap string Wire)).

(** *** convertValue, over a store *)

Section convert.
Variable convertValue : Value → outcome Wire.

Fixpoint convert_fields (fs : list (StructField * Value))
    (elemMap : gmap string Wire) : outcome (gmap string Wire) :=
  match fs with
  | [] => Ret elemMap
  | fv :: rest =>
      if negb (IsExported (fst fv)) then convert_fields rest elemMap
      else
        let fieldName := getColumnName (fst fv) in
        if negb (String.eqb fieldName "-") then
          obind (convertValue (snd fv)) (λ w,
            convert_fields rest (<[fieldName := w]> elemMap))
        else convert_fields rest elemMap
  end.

Fixpoint convert_elems (xs : list Value) (result : list (gmap string Wire))
  : outcome Wire :=
  match xs with
  | [] => Ret (WMaps result)
  | elem :: rest =>
      match elem with
      | VStruct fs =>
          obind (convert_fields fs ∅) (λ elemMap,
            convert_elems rest (result ++ [elemMap]))
      | _ => Panic "reflect: call of reflect.Value.NumField on non-struct Value"
      end
  end.

(** The slice and array case, on the elements [xs] of [fieldValue]. *)
Definition convert_seq (fieldValue : Value) (elemKind : Kind)
    (xs : list Value) : outcome Wire :=
  if Nat.eqb (length xs) 0 then Ret (WSlice [])
  else if decide (elemKind = Struct) then convert_elems xs []
  else Ret (WRaw fieldValue).
End convert.

(** The elements of a slice: the first [len] cells of its backing array.
    A nil slice has length 0 and no backing array. *)
Definition elements (store : gmap nat (list Value)) (array len : nat)
  : list Value :=
  match store !! array with
  | Some elems => take len elems
  | None => []
  end.

(** [fuel] bounds the depth of the recursion, which follows the store.  A
    pointer is nil or the address of one cell; an address with no cell does
    not arise in Go. *)
Fixpoint convertValue (fuel : nat) (store : gmap nat (list Value))
    (fieldValue : Value) : outcome Wire :=
  match fuel with
  | O => OutOfFuel
  | S fuel' =>
      match fieldValue with
      | VInvalid => Ret WNil
      | VArray elemKind xs =>
          convert_seq (convertValue fuel' store) fieldValue elemKind xs
      | VSlice elemKind array len =>
          convert_seq (convertValue fuel' store) fieldValue elemKind
            (elements store array len)
      | VPtr None => Ret WNil
      | VPtr (Some target) =>
          match store !! target with
          | Some [x] => convertValue fuel' store x
          | _ => Panic "invalid memory address or nil pointer dereference"
          end
      | _ => Ret (WRaw fieldValue)
      end
  end.



End Shared.

(** * Vocabulary of the properties *)

(** The part of [s] before its first comma. *)
Fixpoint before_comma (s : string) : string :=
  match s with
  | EmptyString => EmptyString
  | String c s' => if Ascii.eqb c "," then EmptyString
                   else String c (before_comma s')
  end.

(** The resolution rule in the words of the specification: the storage tag
    wins over the serialization tag, which wins over the field name. *)
Inductive resolves_to (f : StructField) : string → Prop :=
| by_storage_tag :
    Tag_Get (Tag f) "db" ≠ "" →
    resolves_to f (before_comma (Tag_Get (Tag f) "db"))
| by_serialization_tag :
    Tag_Get (Tag f) "db" = "" →
    Tag_Get (Tag f) "json" ≠ "" →
    resolves_to f (before_comma (Tag_Get (Tag f) "json"))
| by_field_name :
    Tag_Get (Tag f) "db" = "" →
    Tag_Get (Tag f) "json" = "" →
    resolves_to f (GoStrings.ToLower (Name f)).

(** The fields that get a column: exported, and not resolved to "-". *)
Definition has_column (f : StructField) : bool :=
  IsExported f && negb (String.eqb (getColumnName f) "-").

(** Well-formed values: a slice or array whose element type is a struct
    type holds structs, as Go's typing ensures. *)
Definition is_struct (v : Value) : bool :=
  match v with VStruct _ => true | _ => false end.

Fixpoint wf (v : Value) : bool :=
  match v with
  | VStruct fs => forallb (λ fv, wf (snd fv)) fs
  | VArray e xs | VSlice e xs =>
      forallb (λ x, (if decide (Type_Kind e = Struct) then is_struct x
                     else true) && wf x) xs
  | VPtr _ (Some x) => wf x
  | _ => true
  end.

(** A record: a struct, or a non-nil pointer to one whose fields are those
    of the pointer's element type.  [record_fields] gives its fields. *)
Definition record_fields (item : Value)
  : option (list (StructField * Value)) :=
  match item with
  | VStruct fs => Some fs
  | VPtr (TStruct tfs) (Some (VStruct fs)) =>
      if decide (map fst tfs = map fst fs) then Some fs else None
  | _ => None
  end.

(** The events a call added to the log. *)
Definition new_events {D} (w w' : World D) : list Event :=
  drop (length (log w)) (log w').

(** The column names of a struct type ([[]] for any other type). *)
Definition type_columns (t : GoType) : list string :=
  match t with
  | TStruct tfs => map getColumnName (List.filter has_column (map fst tfs))
  | _ => []
  end.

(** [fields]-records: records whose field list is [fields] and whose field
    values are well formed.  A homogeneous sequence is one of
    [fields]-records for a single [fields]. *)
Definition is_record_of (fields : list StructField) (item : Value) : bool :=
  match record_fields item with
  | Some fs => bool_decide (map fst fs = fields) &&
               forallb (λ fv, wf (snd fv)) fs
  | None => false
  end.

(** The fields of a record that get a column, with their values. *)
Definition included (fs : list (StructField * Value))
  : list (StructField * Value) :=
  List.filter (λ fv, has_column (fst fv)) fs.

(** ** Traces of an ingestion call *)

(** The statement [prepareBatch] hands to the driver. *)
Definition insert_sql (tableName : string) (columns : list string) : string :=
  "INSERT INTO " +:+ tableName +:+ " (" +:+ GoStrings.Join columns ", " +:+ ")".

(** [evs] is one accepted [Append] per item of [items], in order, each with
    the tuple extracted from its item. *)
Definition appended (b : Batch) (columns : list string)
    (items : list Value) (evs : list Event) : Prop :=
  Forall2 (λ item ev, ∃ vs, extractValues item columns = Ret (vs, None) ∧
                            ev = EvAppend b vs None) items evs.

(** Chunk number [k] of [xs] for batch size [B]: records [k*B] up to
    [min ((k+1)*B) (length xs)]. *)
Definition chunk_at (B : Z) (xs : list Value) (k : nat) : list Value :=
  take (Z.to_nat B) (drop (k * Z.to_nat B) xs).

(** [ceil (N / B)] *)
Definition chunk_count (N B : Z) : nat := Z.to_nat ((N + B - 1) / B).

(** The loop counter of [BatchInsert] stays within [int]: the end of the
    last chunk, rounded up to a whole batch, is at most [max_int]. *)
Definition counter_in_range (N B : Z) : Prop :=
  Z.of_nat (chunk_count N B) * B ≤ max_int.

(** Whether a driver call recorded in the log failed, and with which
    error. *)
Definition event_error (ev : Event) : option error :=
  match ev with
  | EvOpen _ r | EvPing r | EvAppend _ _ r | EvSend _ r | EvExec _ _ r => r
  | EvPrepareBatch _ (inr err) | EvQuery _ _ (inr err) => Some err
  | _ => None
  end.

(** The message of the error for a failed send of the chunk that starts at
    record [i], in a sequence of [N] records cut by batch size [B]. *)
Definition send_error (i B N : Z) (err : error) : error :=
  mkError ("failed to send batch " +:+ fmt_d i +:+ "-" +:+
           fmt_d (Z.min (i + B) N - 1) +:+ ": " +:+ Error err) (Some err).

(** What the loop of [BatchInsert] does from record [i] on: its result and
    the driver calls it makes. *)
Inductive loop_trace (B : Z) (xs : list Value) (sql : string)
    (columns : list string)
  : Z → outcome (option error) → list Event → Prop :=
| lt_done i :
    Z.of_nat (length xs) ≤ i →
    loop_trace B xs sql columns i (Ret None) []
| lt_out_of_fuel i :
    i < Z.of_nat (length xs) →
    loop_trace B xs sql columns i OutOfFuel []
| lt_prepare_failed i err :
    i < Z.of_nat (length xs) →
    loop_trace B xs sql columns i
      (Ret (Some (Errorf_w "failed to prepare batch" err)))
      [EvPrepareBatch sql (inr err)]
| lt_panicked i b k evs msg :
    i < Z.of_nat (length xs) →
    appended b columns (take k (drop (Z.to_nat i) xs)) evs →
    loop_trace B xs sql columns i (Panic msg)
      (EvPrepareBatch sql (inl b) :: evs)
| lt_append_failed i b k item vs err evs :
    i < Z.of_nat (length xs) →
    (k < Z.to_nat B)%nat →
    appended b columns (take k (drop (Z.to_nat i) xs)) evs →
    drop (Z.to_nat i) xs !! k = Some item →
    extractValues item columns = Ret (vs, None) →
    loop_trace B xs sql columns i
      (Ret (Some (Errorf_w "failed to append data to batch" err)))
      (EvPrepareBatch sql (inl b) :: evs ++ [EvAppend b vs (Some err)])
| lt_send_failed i b err evs :
    i < Z.of_nat (length xs) →
    appended b columns (take (Z.to_nat B) (drop (Z.to_nat i) xs)) evs →
    loop_trace B xs sql columns i
      (Ret (Some (send_error i B (Z.of_nat (length xs)) err)))
      (EvPrepareBatch sql (inl b) :: evs ++ [EvSend b (Some err)])
| lt_next i b evs r rest :
    i < Z.of_nat (length xs) →
    appended b columns (take (Z.to_nat B) (drop (Z.to_nat i) xs)) evs →
    loop_trace B xs sql columns (i + B) r rest →
    loop_trace B xs sql columns i r
      (EvPrepareBatch sql (inl b) :: evs ++ EvSend b None :: rest).

(** The driver calls of one fully processed chunk: a batch is prepared, every
    record of chunk [k] is appended to it, and it is sent. *)
Definition chunk_run (B : Z) (xs : list Value) (sql : string)
    (columns : list string) (k : nat) (evs : list Event) : Prop :=
  ∃ b aevs, evs = EvPrepareBatch sql (inl b) :: aevs ++ [EvSend b None] ∧
            appended b columns (chunk_at B xs k) aevs.

(** The size the specification gives chunk [k] of [n] chunks. *)
Definition expected_chunk_size (N B : Z) (n k : nat) : Z :=
  if (S k <? n)%nat then B
  else if N mod B =? 0 then B else N mod B.

(** ** Table provisioning, in the words of the specification *)

(** The table specification of the specification document: it has a
    [cluster] field.  [CreateTable] and [CreateDistributedTable] have no
    parameter for it, so a caller holding a [TableSpec] can only pass the
    other fields on. *)
Record TableSpec : Type := mkTableSpec {
  ts_database : string;
  ts_table : string;
  ts_cluster : string;
  ts_orderKey : string;
  ts_partitionColumn : string;
  ts_columns : list Column;
  ts_description : string
}.

Definition createClusteredTable {D : Type} `{!Driver D}
    (c : ClickHouseClient) (spec : TableSpec) : M D (option error) :=
  CreateTable c (ts_database spec) (ts_table spec) (ts_orderKey spec)
    (ts_description spec) (ts_columns spec).

Definition createDistributedTable {D : Type} `{!Driver D}
    (c : ClickHouseClient) (spec : TableSpec) : M D (option error) :=
  CreateDistributedTable c (ts_database spec) (ts_table spec)
    (ts_description spec) (ts_columns spec).

(** A statement handed to the driver has an [ON CLUSTER] clause that names
    [cluster]. *)
Definition names_cluster (cluster : string) (ev : Event) : Prop :=
  match ev with
  | EvExec query _ _ =>
      GoStrings.Contains query ("ON CLUSTER " +:+ cluster) = true
  | _ => True
  end.

(** The statement of the specification: both builders emit their statements
    on the cluster of the table specification. *)
Definition emits_on_cluster_of_spec (spec : TableSpec) : Prop :=
  ∀ (D : Type) (driver : Driver D) (c : ClickHouseClient) (w : World D),
    Forall (names_cluster (ts_cluster spec))
      (new_events w (snd (createClusteredTable c spec w))) ∧
    Forall (names_cluster (ts_cluster spec))
      (new_events w (snd (createDistributedTable c spec w))).

(** A statement with create-if-not-exists semantics. *)
Definition if_not_exists (ev : Event) : Prop :=
  match ev with
  | EvExec query args _ =>
      args = [] ∧
      (String.prefix "CREATE DATABASE IF NOT EXISTS " query = true ∨
       String.prefix "CREATE TABLE IF NOT EXISTS " query = true)
  | _ => False
  end.

(** ** Result mapping, in the words of the specification *)

(** The cell bound to field [k] of the destination record: that of the last
    result column whose name resolves to field [k] ([None] when no column
    does). *)
Fixpoint bound_cell (fields : list StructField) (columns : list string)
    (row : list Scalar) (k : nat) : option Scalar :=
  match columns, row with
  | col :: columns', cell :: row' =>
      match bound_cell fields columns' row' k with
      | Some c => Some c
      | None =>
          if decide (find_field fields 0 col = Some k) then Some cell
          else None
      end
  | _, _ => None
  end.

(** The scan target the mapper builds for a column. *)
Definition target_of (tfs : list (StructField * GoType)) (col : string)
  : ScanTarget :=
  match find_field (map fst tfs) 0 col with
  | Some i =>
      match tfs !! i with
      | Some ft => FieldAddr i (snd ft)
      | None => Dummy
      end
  | None => Dummy
  end.

(** [rec] is the record bound from [row]: a fresh record of the
    destination type in which every field holds the converted cell bound to
    it, or its zero value when no column is bound to it. *)
Definition binds {D : Type} `{!Driver D} (isPtr : bool)
    (tfs : list (StructField * GoType)) (columns : list string)
    (row : list Scalar) (rec : Value) : Prop :=
  ∃ fs',
    rec = (if isPtr then VPtr (TStruct tfs) (Some (VStruct fs'))
           else VStruct fs') ∧
    map fst fs' = map fst tfs ∧
    ∀ k f t, tfs !! k = Some (f, t) →
      ∃ v, fs' !! k = Some (f, v) ∧
           match bound_cell (map fst tfs) columns row k with
           | None => v = zero t
           | Some cell => sql_convertAssign t cell = inl v
           end.

(** Why a row can fail to bind: [rows.Scan] got a row of another width, or a
    cell of a matched column did not convert into its field. *)
Definition bind_failure {D : Type} `{!Driver D}
    (tfs : list (StructField * GoType)) (columns : list string)
    (row : list Scalar) (e : error) : Prop :=
  length row ≠ length columns ∨
  ∃ j col cell k f t cause,
    columns !! j = Some col ∧ row !! j = Some cell ∧
    find_field (map fst tfs) 0 col = Some k ∧
    tfs !! k = Some (f, t) ∧
    sql_convertAssign t cell = inr cause ∧
    Unwrap e = Some cause.

(** ** Construction *)

(** [config] with another batch size. *)
Definition with_batch_size (config : Config) (b : Z) : Config :=
  mkConfig (Hosts config) (Database config) (Username config)
    (Password config) b (Debug config).

Definition is_client {A B} (r : outcome (A + B)) : bool :=
  match r with Ret (inl _) => true | _ => false end.

(** The options the constructor opens the native connection and the
    [database/sql] handle with. *)
Definition conn_options (config : Config) : Options :=
  mkOptions (GoStrings.Split (Hosts config) ",") (Database config)
    (Username config) (Password config) (Debug config)
    [("max_execution_time", 60)] (Some "lz4") 30 10 5 3600.

Definition db_options (config : Config) : Options :=
  mkOptions (GoStrings.Split (Hosts config) ",") (Database config)
    (Username config) (Password config) false [] None 0 0 0 0.

(** ** Sample data *)

Module Sample.

Definition exported (name : string) (tag : StructTag) : StructField :=
  mkField name "" tag.

(** [type Tag struct { Key string `db:"key"`; Val string `json:"val,omitempty"` }] *)
Definition TagT : GoType :=
  TStruct [ (exported "Key" [("db", "key")], TBasic String_);
            (exported "Val" [("json", "val,omitempty")], TBasic String_) ].

Definition tag (k v : string) : Value :=
  VStruct [ (exported "Key" [("db", "key")], VBasic String_ (SString k));
            (exported "Val" [("json", "val,omitempty")],
             VBasic String_ (SString v)) ].

(** A record type that uses every resolution rule at once, a skipped field,
    an unexported field, a nested record slice and a pointer. *)
Definition event (id : Z) (name : string) (tags : list Value) : Value :=
  VStruct
    [ (exported "ID" [("db", "id,pk"); ("json", "ident")], VBasic Uint64 (SInt id));
      (exported "Name" [("json", "name,omitempty")], VBasic String_ (SString name));
      (exported "Age" [], VBasic Int (SInt 30));
      (exported "Skip" [("db", "-")], VBasic Int (SInt 1));
      (mkField "hidden" "ckgroup" [], VBasic Int (SInt 2));
      (exported "Tags" [("db", "tags")], VSlice TagT tags);
      (exported "Note" [("db", "note")], VPtr (TBasic String_) None) ].

Definition events (n : nat) : list Value :=
  map (λ i, event (Z.of_nat i) "x" [tag "a" "b"]) (seq 0 n).

Definition EventT : GoType := TypeOf (event 0 "" []).

(** [type Row struct { ID uint64 `db:"id"` }], and [n] such rows. *)
Definition RowT : GoType :=
  TStruct [ (exported "ID" [("db", "id")], TBasic Uint64) ].

Definition rows (n : nat) : list Value :=
  map (λ i, VStruct [ (exported "ID" [("db", "id")],
                       VBasic Uint64 (SInt (Z.of_nat i))) ]) (seq 0 n).

(** The kinds of the driver calls in a log: P(repare), A(ppend), S(end). *)
Definition kinds (evs : list Event) : list string :=
  map (λ ev, match ev with
             | EvPrepareBatch _ _ => "P"
             | EvAppend _ _ _ => "A"
             | EvSend _ _ => "S"
             | _ => "-"
             end) evs.

(** The table of the specification's DDL scenario. *)
Definition table_spec : TableSpec :=
  mkTableSpec "d" "t" "c" "id" "created_at"
    [mkColumn "id" "UInt64"; mkColumn "created_at" "DateTime"] "events".

(** [type User struct { ID int64 `db:"id"`; Name string `json:"name"` }] *)
Definition UserT : list (StructField * GoType) :=
  [ (exported "ID" [("db", "id")], TBasic Int64);
    (exported "Name" [("json", "name")], TBasic String_) ].

(** Five rows over columns id, name, extra_unmapped; the [id] cell of the
    third row is text. *)
Definition user_rows : Rows :=
  mkRows (inl ["id"; "name"; "extra_unmapped"])
    [ [SInt 1; SString "a"; SInt 9];
      [SInt 2; SString "b"; SString "zz"];
      [SString "bad"; SString "c"; SInt 9];
      [SInt 4; SString "d"; SInt 9];
      [SInt 5; SString "e"; SInt 9] ]
    None None.

End Sample.

(** ** Vocabulary of the further properties *)

(** The line that declares a column in a CREATE TABLE statement. *)
Definition column_decl (col : Column) : string :=
  "  " +:+ col_Name col +:+ " " +:+ col_Type col.

(** A value that is neither a struct nor a pointer to a struct. *)
Definition not_a_record (v : Value) : bool :=
  match v with
  | VInvalid | VStruct _ => false
  | VBasic k _ => bool_decide (k ≠ Struct ∧ k ≠ Pointer)
  | VArray _ _ | VSlice _ _ => true
  | VPtr e _ => bool_decide (Type_Kind e ≠ Struct)
  end.

(** The last field of a record that gets the column [key]. *)
Definition last_named (key : string) (fs : list (StructField * Value))
  : option (StructField * Value) :=
  last (List.filter
          (λ fv, has_column (fst fv) && String.eqb (getColumnName (fst fv)) key)
          fs).

(** Element types of the destination slice of [QueryToStruct]: the ones it
    maps rows into, and the ones it refuses. *)
Definition accepted_elem (elemType : GoType) : bool :=
  match elemType with
  | TStruct _ | TPtr (TStruct _) => true
  | _ => false
  end.

Definition rejected_elem (elemType : GoType) : bool :=
  match elemType with
  | TPtr e => bool_decide (Type_Kind e ≠ Struct)
  | TBasic Pointer => false
  | t => bool_decide (Type_Kind t ≠ Struct)
  end.

(** ** Vocabulary of the cipher *)

(** The bytes [bs] under the key, repeated: byte [n] is combined with byte
    [n mod len(key)] of the key. *)
Definition xor_key (key bs : list ascii) : list ascii :=
  imap (λ n b, encrypt.xor_byte b
                 (default "000"%char (key !! (n mod length key)%nat))) bs.

(** The state of [doEncode] when its index is [i]: the bytes below [i] are
    encoded, the others are as they were. *)
Definition encoded_up_to (key bs cur : list ascii) (i : nat) : Prop :=
  length cur = length bs ∧
  ∀ n b, bs !! n = Some b →
    cur !! n = Some (if (n <? i)%nat
                     then encrypt.xor_byte b
                            (default "000"%char (key !! (n mod length key)%nat))
                     else b).

(** The sum of the bytes. *)
Definition byte_sum (src : list ascii) : Z :=
  foldr (λ b acc, encrypt.int_of_byte b + acc) 0 src.

(** ** Vocabulary of the rotator *)

(** A rotator in service: its file is open at its path, the log file is
    there, and [currentSize] is its size. *)
Definition in_service (r : logger.LogRotator) (fs : os.FS) : Prop :=
  logger.file r = os.mkFile (logger.filename r) false ∧
  ∃ content, fs !! logger.filename r = Some content ∧
             logger.currentSize r = Z.of_nat (length content).

(** The rotators that differ in [currentSize] and in the state of the file
    handle only. *)
Definition same_settings (r r' : logger.LogRotator) : Prop :=
  logger.filename r' = logger.filename r ∧
  logger.maxSize r' = logger.maxSize r ∧
  logger.maxBackups r' = logger.maxBackups r.

(** A rotator in service over a log file of three bytes. *)
Definition sample_rotator : logger.LogRotator :=
  logger.mkLogRotator "log" 5 1 3 (os.mkFile "log" false).

Definition sample_fs : gmap string (list ascii) :=
  {[ "log" := String.list_ascii_of_string "abc" ]}.

(** ** Vocabulary of the helpers *)

(** Whether the byte [c] occurs in [s]. *)
Fixpoint has_byte (c : ascii) (s : string) : bool :=
  match s with
  | EmptyString => false
  | String c' s' => Ascii.eqb c' c || has_byte c s'
  end.

(** How often the byte [c] occurs in [s]. *)
Fixpoint count_byte (c : ascii) (s : string) : nat :=
  match s with
  | EmptyString => 0%nat
  | String c' s' => ((if Ascii.eqb c' c then 1 else 0) + count_byte c s')%nat
  end.

(** An entry with one field, and two new fields. *)
Definition sample_entry : logger.Entry string unit unit :=
  logger.mkEntry tt tt 1 "started" {[ "user" := "ann" ]} "main.go" 10 "main" 3.

Definition sample_fields : gmap string string :=
  {[ "user" := "bob"; "port" := "80" ]}.

(** ** Conversion, in the words of the specification *)



(** * Properties *)

(** ** Column-name resolution *)


Lemma Split_nonempty s sep : GoStrings.Split s sep ≠ [].
Proof. destruct s as [|c s]; simpl; [done|]. destruct (Ascii.eqb c sep); [done|]. by destruct (GoStrings.Split s sep). Qed.

Lemma Split_hd s : hd "" (GoStrings.Split s ",") = before_comma s.
Proof.
  induction s as [|c s IH]; simpl; [done|].
  destruct (Ascii.eqb c ","); [done|].
  pose proof (Split_nonempty s ",") as Hne.
  destruct (GoStrings.Split s ",") as [|h t]; [done|].
  simpl in *. by rewrite IH.
Qed.



Lemma getColumnName_resolves f : resolves_to f (getColumnName f).
Proof.
  unfold getColumnName.
  destruct (String.eqb_spec (Tag_Get (Tag f) "db") "") as [Hdb|Hdb]; simpl.
  - destruct (String.eqb_spec (Tag_Get (Tag f) "json") "") as [Hjs|Hjs]; simpl.
    + by apply by_field_name.
    + rewrite Split_hd. by apply by_serialization_tag.
  - rewrite Split_hd. by apply by_storage_tag.
Qed.

Lemma resolves_to_functional f c1 c2 :
  resolves_to f c1 → resolves_to f c2 → c1 = c2.
Proof. intros H1 H2; destruct H1; destruct H2; congruence. Qed.

Lemma analyze_fields_spec fields columns :
  analyze_fields fields columns =
  columns ++ map getColumnName (List.filter has_column fields).
Proof.
  revert columns; induction fields as [|f fs IH]; intros columns; simpl.
  - by rewrite app_nil_r.
  - unfold has_column at 1.
    destruct (IsExported f); simpl; [|apply IH].
    destruct (String.eqb (getColumnName f) "-"); simpl; [apply IH|].
    rewrite IH, <- app_assoc. done.
Qed.

Lemma analyzeStructure_struct fs :
  analyzeStructure (VStruct fs) =
  Ret (map getColumnName (List.filter has_column (map fst fs)), None).
Proof.
  unfold analyzeStructure; simpl.
  rewrite analyze_fields_spec, map_map. simpl. done.
Qed.

(** C5.  Every field resolves to exactly one column name, the one the
    precedence rule gives: the part before the first comma of the [db] tag
    when that tag is non-empty, else of the [json] tag when that one is
    non-empty, else the lower-cased field name.  The column list of a record
    is the list of these names over its exported fields not resolved to "-",
    in declaration order: a skipped field leaves no slot behind. *)
Theorem column_name_precedence (f : StructField)
    (fs : list (StructField * Value)) :
  resolves_to f (getColumnName f) ∧
  (∀ c, resolves_to f c ↔ c = getColumnName f) ∧
  analyzeStructure (VStruct fs) =
    Ret (map getColumnName (List.filter has_column (map fst fs)), None) ∧
  (∀ g, g ∈ List.filter has_column (map fst fs) ↔
        g ∈ map fst fs ∧ IsExported g = true ∧ getColumnName g ≠ "-").
Proof.
  split; [apply getColumnName_resolves|].
  split.
  { intros c; split.
    - intros Hc. eapply resolves_to_functional; [exact Hc|apply getColumnName_resolves].
    - intros ->. apply getColumnName_resolves. }
  split; [apply analyzeStructure_struct|].
  intros g. rewrite !list_elem_of_In, filter_In. unfold has_column.
  rewrite andb_true_iff, negb_true_iff.
  destruct (String.eqb_spec (getColumnName g) "-"); intuition congruence.
Qed.

(** ** Value conversion *)

(** Induction over values that reaches into fields, elements and
    referents. *)
Lemma Value_ind' (P : Value → Prop) :
  P VInvalid →
  (∀ k s, P (VBasic k s)) →
  (∀ fs, Forall (λ fv, P (snd fv)) fs → P (VStruct fs)) →
  (∀ e xs, Forall P xs → P (VArray e xs)) →
  (∀ e xs, Forall P xs → P (VSlice e xs)) →
  (∀ e, P (VPtr e None)) →
  (∀ e x, P x → P (VPtr e (Some x))) →
  ∀ v, P v.
Proof.
  intros Hinv Hbasic Hstruct Harr Hslice Hnil Hptr.
  fix IH 1. intros [ |k s|fs|e xs|e xs|e [x|]].
  - exact Hinv.
  - apply Hbasic.
  - apply Hstruct. induction fs as [|fv fs IHfs]; constructor; [apply IH|exact IHfs].
  - apply Harr. induction xs as [|x xs IHxs]; constructor; [apply IH|exact IHxs].
  - apply Hslice. induction xs as [|x xs IHxs]; constructor; [apply IH|exact IHxs].
  - apply Hptr, IH.
  - apply Hnil.
Qed.

Lemma convert_fields_total fs :
  Forall (λ fv, wf (snd fv) = true → ∃ w, convertValue (snd fv) = Ret w) fs →
  forallb (λ fv, wf (snd fv)) fs = true →
  ∀ m, ∃ m', convert_fields convertValue fs m = Ret m'.
Proof.
  induction 1 as [|fv fs Hfv _ IH]; intros Hwf m; simpl in *; [eauto|].
  apply andb_true_iff in Hwf as [Hwf1 Hwf2].
  destruct (IsExported (fst fv)); simpl; [|by apply IH].
  destruct (String.eqb (getColumnName (fst fv)) "-"); simpl; [by apply IH|].
  destruct (Hfv Hwf1) as [w ->]; simpl. by apply IH.
Qed.

Lemma convert_elems_total e xs :
  Forall (λ x, ∀ fs, x = VStruct fs → wf x = true → ∀ m,
            ∃ m', convert_fields convertValue fs m = Ret m') xs →
  forallb (λ x, (if decide (Type_Kind e = Struct) then is_struct x else true)
                && wf x) xs = true →
  Type_Kind e = Struct →
  ∀ result, ∃ ms, convert_elems convertValue xs result = Ret (WMaps ms).
Proof.
  intros Hxs Hwf He.
  induction Hxs as [|x xs Hx _ IH]; intros result; simpl in *; [eauto|].
  apply andb_true_iff in Hwf as [Hwf1 Hwf2].
  apply andb_true_iff in Hwf1 as [Hs Hwfx].
  destruct (decide (Type_Kind e = Struct)); [|done].
  destruct x; try discriminate Hs.
  destruct (Hx _ eq_refl Hwfx ∅) as [m' ->]; simpl. by apply IH.
Qed.

Lemma convert_seq_total e xs v :
  Forall (λ x, (wf x = true → ∃ w, convertValue x = Ret w) ∧
               (∀ fs, x = VStruct fs → wf x = true →
                  ∀ m, ∃ m', convert_fields convertValue fs m = Ret m')) xs →
  forallb (λ x, (if decide (Type_Kind e = Struct) then is_struct x else true)
                && wf x) xs = true →
  ∃ w, (if Nat.eqb (length xs) 0 then Ret (WSlice [])
        else if decide (Type_Kind e = Struct)
             then convert_elems convertValue xs []
             else Ret (WRaw v)) = Ret w.
Proof.
  intros IH Hwf.
  assert (Hf : Forall (λ x, ∀ fs, x = VStruct fs → wf x = true → ∀ m,
            ∃ m', convert_fields convertValue fs m = Ret m') xs).
  { eapply Forall_impl; [exact IH|]. simpl. intros x [_ Hx]. exact Hx. }
  pose proof (convert_elems_total e xs Hf Hwf) as Hce.
  destruct (Nat.eqb (length xs) 0); [eauto|].
  destruct (decide (Type_Kind e = Struct)) as [He|He]; [|eauto].
  destruct (Hce He []) as [ms Hms]. rewrite Hms. eauto.
Qed.

Lemma convertValue_wf_total v :
  (wf v = true → ∃ w, convertValue v = Ret w) ∧
  (∀ fs, v = VStruct fs → wf v = true →
     ∀ m, ∃ m', convert_fields convertValue fs m = Ret m').
Proof.
  induction v as [ |k s|fs IH|e xs IH|e xs IH|e|e x IH] using Value_ind';
    (split; [|try discriminate]); simpl; eauto.
  - intros fs' [= <-] Hwf. apply convert_fields_total; [|done].
    eapply Forall_impl; [exact IH|]. simpl. intros fv [H _]. exact H.
  - intros Hwf. by apply convert_seq_total.
  - intros Hwf. by apply convert_seq_total.
  - intros Hwf. by apply IH.
Qed.

(** The maps built for a sequence of structs. *)


Lemma convert_elems_spec cv xs result w :
  convert_elems cv xs result = Ret w →
  ∃ ms, w = WMaps (result ++ ms) ∧
        Forall2 (λ x m, ∃ fs, x = VStruct fs ∧
                              convert_fields cv fs ∅ = Ret m) xs ms.
Proof.
  revert result; induction xs as [|x xs IH]; intros result; simpl.
  - intros [= <-]. exists []. by rewrite app_nil_r.
  - destruct x as [ | |fs| | | ]; try discriminate.
    destruct (convert_fields cv fs ∅) as [m| |] eqn:Hm; simpl; try discriminate.
    intros H. apply IH in H as (ms & -> & Hms).
    exists (m :: ms). rewrite <- app_assoc. split; [done|].
    constructor; eauto.
Qed.

(** Conversion of a finite tree never fails: every well-formed value
    converts to some wire value (the function has no error result, and no
    [reflect] call in it panics).  The zero [reflect.Value] and a nil pointer give nil, a
    pointer gives what its referent gives, an empty sequence gives the empty
    [[]interface{}]; every other shape but a non-empty sequence of structs
    is passed through as the raw value. *)
Theorem convertValue_never_fails (v : Value) :
  wf v = true →
  (∃ w, convertValue v = Ret w) ∧
  match v with
  | VInvalid | VPtr _ None => convertValue v = Ret WNil
  | VPtr _ (Some x) => convertValue v = convertValue x
  | VArray e xs | VSlice e xs =>
      (xs = [] → convertValue v = Ret (WSlice [])) ∧
      (xs ≠ [] → Type_Kind e ≠ Struct → convertValue v = Ret (WRaw v)) ∧
      (xs ≠ [] → Type_Kind e = Struct →
       ∃ ms, convertValue v = Ret (WMaps ms) ∧ length ms = length xs)
  | VBasic _ _ | VStruct _ => convertValue v = Ret (WRaw v)
  end.
Proof.
  intros Hwf. split; [by apply convertValue_wf_total|].
  assert (Hseq : ∀ e xs (u : Value),
    forallb (λ x, (if decide (Type_Kind e = Struct) then is_struct x
                   else true) && wf x) xs = true →
    convertValue u = (if Nat.eqb (length xs) 0 then Ret (WSlice [])
                      else if decide (Type_Kind e = Struct)
                           then convert_elems convertValue xs []
                           else Ret (WRaw u)) →
    (xs = [] → convertValue u = Ret (WSlice [])) ∧
    (xs ≠ [] → Type_Kind e ≠ Struct → convertValue u = Ret (WRaw u)) ∧
    (xs ≠ [] → Type_Kind e = Struct →
     ∃ ms, convertValue u = Ret (WMaps ms) ∧ length ms = length xs)).
  { intros e xs u Hxs Hu.
    assert (Hf : Forall (λ x, ∀ fs, x = VStruct fs → wf x = true → ∀ m,
              ∃ m', convert_fields convertValue fs m = Ret m') xs).
    { apply Forall_forall. intros y _ fs -> Hw.
      by apply (convertValue_wf_total (VStruct fs)). }
    pose proof (convert_elems_total e xs Hf Hxs) as Hce. clear Hxs.
    rewrite Hu. clear Hu. split; [by intros ->|].
    destruct xs as [|x xs0]; [by split|].
    change (Nat.eqb (length (x :: xs0)) 0) with false. cbv iota.
    split; intros Hne He.
    - by destruct (decide (Type_Kind e = Struct)).
    - destruct (decide (Type_Kind e = Struct)); [|done].
      destruct (Hce He []) as [ms Hms]. exists ms. split; [done|].
      apply convert_elems_spec in Hms as (ms' & [= ->] & Hms').
      by apply Forall2_length in Hms'. }
  destruct v as [ |k s|fs|e xs|e xs|e [x|]]; try done.
  - by apply (Hseq e xs).
  - by apply (Hseq e xs).
Qed.

Lemma convertValue_never_fails_witness :
  wf (Sample.event 7 "n" [Sample.tag "a" "b"]) = true ∧
  ∃ w, convertValue (Sample.event 7 "n" [Sample.tag "a" "b"]) = Ret w.
Proof.
  split; [reflexivity|].
  apply (convertValue_never_fails (Sample.event 7 "n" [Sample.tag "a" "b"])).
  reflexivity.
Defined.

(** ** Nested record sequences *)





(** ** Extraction of one record *)

Lemma extract_fields_ok columns suffix :
  ∀ prefix values k,
    forallb (λ fv, wf (snd fv)) suffix = true →
    (k + length (included suffix) ≤ length columns)%nat →
    ∃ ws,
      extract_fields (map fst suffix) (length prefix)
        (VStruct (prefix ++ suffix)) columns values k = Ret (values ++ ws) ∧
      Forall2 (λ fv w, convertValue (snd fv) = Ret w) (included suffix) ws.
Proof.
  induction suffix as [|fv suffix IH]; intros prefix values k Hwf Hlen; simpl.
  { exists []. by rewrite app_nil_r. }
  simpl in Hwf. apply andb_true_iff in Hwf as [Hwf1 Hwf2].
  rewrite list_lookup_middle by done. simpl.
  assert (Hstep : prefix ++ fv :: suffix = (prefix ++ [fv]) ++ suffix)
    by (by rewrite <- app_assoc).
  assert (Hlen' : S (length prefix) = length (prefix ++ [fv]))
    by (rewrite length_app; simpl; lia).
  unfold included in *. simpl in Hlen. unfold has_column at 1 in Hlen.
  unfold has_column at 1.
  destruct (IsExported (fst fv)); simpl in *.
  - destruct (String.eqb (getColumnName (fst fv)) "-"); simpl in *.
    + rewrite Hstep, Hlen'. by apply IH.
    + destruct (Nat.leb_spec (length columns) k) as [Hle|Hgt]; [lia|].
      destruct (proj1 (convertValue_wf_total (snd fv)) Hwf1) as [w Hw].
      rewrite Hw. simpl. rewrite Hstep, Hlen'.
      destruct (IH (prefix ++ [fv]) (values ++ [w]) (S k) Hwf2) as (ws & -> & Hws);
        [lia|].
      exists (w :: ws). rewrite <- app_assoc. split; [done|]. by constructor.
  - rewrite Hstep, Hlen'. by apply IH.
Qed.

Lemma extractValues_record item fs columns :
  record_fields item = Some fs →
  forallb (λ fv, wf (snd fv)) fs = true →
  (length (included fs) ≤ length columns)%nat →
  ∃ values, extractValues item columns = Ret (values, None) ∧
            Forall2 (λ fv w, convertValue (snd fv) = Ret w) (included fs) values.
Proof.
  intros Hrec Hwf Hlen.
  destruct (extract_fields_ok columns fs [] [] 0%nat Hwf) as (ws & Hws & Hall);
    [simpl; lia|]. simpl in Hws.
  exists ws. split; [|done].
  destruct item as [ |k s|fs'|e xs|e xs|e [x|]]; simpl in Hrec; try discriminate.
  - injection Hrec as ->. unfold extractValues; simpl.
    rewrite map_map.
    change (map _ fs) with (map fst fs). by rewrite Hws.
  - destruct e as [ | | | |tfs]; try discriminate.
    destruct x as [ | |fs'| | | ]; try discriminate.
    destruct (decide (map fst tfs = map fst fs')) as [Heq|]; [|discriminate].
    injection Hrec as ->. unfold extractValues; simpl.
    rewrite Heq. by rewrite Hws.
  - destruct e; discriminate.
Qed.

Lemma analyzeStructure_record item fs :
  record_fields item = Some fs →
  analyzeStructure item =
  Ret (map (λ fv, getColumnName (fst fv)) (included fs), None).
Proof.
  assert (Hmap : ∀ l : list (StructField * Value),
    map getColumnName (List.filter has_column (map fst l)) =
    map (λ fv, getColumnName (fst fv)) (included l)).
  { induction l as [|fv l IH]; simpl; [done|]. unfold included in *. simpl.
    destruct (has_column (fst fv)); simpl; by rewrite IH. }
  intros Hrec.
  destruct item as [ |k s|fs'|e xs|e xs|e [x|]]; simpl in Hrec; try discriminate.
  - injection Hrec as ->. by rewrite analyzeStructure_struct, Hmap.
  - destruct e as [ | | | |tfs]; try discriminate.
    destruct x as [ | |fs'| | | ]; try discriminate.
    destruct (decide (map fst tfs = map fst fs')) as [Heq|]; [|discriminate].
    injection Hrec as ->. unfold analyzeStructure; simpl.
    by rewrite analyze_fields_spec, Heq, Hmap.
  - destruct e; discriminate.
Qed.

Lemma extractValues_no_error item columns values err :
  extractValues item columns = Ret (values, err) → err = None.
Proof.
  unfold extractValues. destruct item; try discriminate;
    repeat match goal with
    | |- obind ?x _ = _ → _ => destruct x; simpl; try discriminate
    end; congruence.
Qed.

(** Only the outer loop of [BatchInsert] consumes fuel. *)
Lemma convert_fields_no_fuel fs :
  Forall (λ fv, convertValue (snd fv) ≠ OutOfFuel) fs →
  ∀ m, convert_fields convertValue fs m ≠ OutOfFuel.
Proof.
  induction 1 as [|fv fs Hfv _ IH]; intros m; simpl; [done|].
  destruct (IsExported (fst fv)); simpl; [|apply IH].
  destruct (String.eqb (getColumnName (fst fv)) "-"); simpl; [apply IH|].
  destruct (convertValue (snd fv)); simpl; [apply IH|done|done].
Qed.

Lemma convert_elems_no_fuel xs :
  Forall (λ x, ∀ fs m, x = VStruct fs →
            convert_fields convertValue fs m ≠ OutOfFuel) xs →
  ∀ result, convert_elems convertValue xs result ≠ OutOfFuel.
Proof.
  induction 1 as [|x xs Hx _ IH]; intros result; simpl; [done|].
  destruct x as [ | |fs| | | ]; try done.
  specialize (Hx fs ∅ eq_refl).
  destruct (convert_fields convertValue fs ∅); simpl; [apply IH|done|done].
Qed.

Lemma convertValue_no_fuel v :
  convertValue v ≠ OutOfFuel ∧
  (∀ fs m, v = VStruct fs → convert_fields convertValue fs m ≠ OutOfFuel).
Proof.
  induction v as [ |k s|fs IH|e xs IH|e xs IH|e|e x IH] using Value_ind';
    (split; [|try discriminate]); simpl; try done.
  - intros fs' m [= <-]. apply convert_fields_no_fuel.
    eapply Forall_impl; [exact IH|]. by intros fv [H _].
  - destruct (Nat.eqb (length xs) 0); [done|].
    destruct (decide (Type_Kind e = Struct)); [|done].
    apply convert_elems_no_fuel.
    eapply Forall_impl; [exact IH|]. by intros x [_ H].
  - destruct (Nat.eqb (length xs) 0); [done|].
    destruct (decide (Type_Kind e = Struct)); [|done].
    apply convert_elems_no_fuel.
    eapply Forall_impl; [exact IH|]. by intros x [_ H].
  - apply IH.
Qed.

Lemma extract_fields_no_fuel fields :
  ∀ i v columns values k,
    extract_fields fields i v columns values k ≠ OutOfFuel.
Proof.
  induction fields as [|f fields IH]; intros i v columns values k; simpl;
    [done|].
  destruct (Value_Field v i) as [fv|msg|] eqn:Hf; simpl; [|done|].
  - destruct (IsExported f); simpl; [|apply IH].
    destruct (String.eqb (getColumnName f) "-"); [apply IH|].
    destruct (Nat.leb (length columns) k); [done|].
    pose proof (proj1 (convertValue_no_fuel fv)) as Hcv.
    destruct (convertValue fv); simpl; [apply IH|done|done].
  - unfold Value_Field in Hf. destruct v; try done.
    by destruct (_ !! i).
Qed.

Lemma extractValues_no_fuel item columns :
  extractValues item columns ≠ OutOfFuel.
Proof.
  unfold extractValues. destruct item as [ |k s|fs|e xs|e xs|e x]; try done;
    simpl.
  - destruct k; simpl; done.
  - pose proof (extract_fields_no_fuel (map fst (map (λ fv, (fv.1, TypeOf fv.2)) fs))
                  0 (VStruct fs) columns [] 0) as H.
    destruct (extract_fields _ _ _ _ _ _); simpl; done.
  - destruct x as [x|]; simpl; destruct e as [ | | | |tfs]; simpl; try done.
    + pose proof (extract_fields_no_fuel (map fst tfs) 0 x columns [] 0) as H.
      destruct (extract_fields _ _ _ _ _ _); simpl; done.
    + pose proof (extract_fields_no_fuel (map fst tfs) 0 VInvalid columns [] 0) as H.
      destruct (extract_fields _ _ _ _ _ _); simpl; done.
Qed.

Lemma analyzeStructure_no_fuel sample : analyzeStructure sample ≠ OutOfFuel.
Proof.
  unfold analyzeStructure.
  destruct sample as [ |k s|fs|e xs|e xs|e x]; try done; simpl.
  - by destruct k.
  - destruct e as [k| | | |tfs]; simpl; try done. by destruct k.
Qed.

(** ** Chunking arithmetic *)

Lemma ceil_div_bounds N B :
  0 < B → (((N + B - 1) / B) - 1) * B < N ≤ ((N + B - 1) / B) * B.
Proof.
  intros HB. pose proof (Z.div_mod (N + B - 1) B ltac:(lia)) as Hdm.
  pose proof (Z.mod_pos_bound (N + B - 1) B HB) as Hm. nia.
Qed.

Lemma chunk_count_lt N B k :
  0 < B → 0 ≤ N → (k < chunk_count N B)%nat ↔ Z.of_nat k * B < N.
Proof.
  intros HB HN. unfold chunk_count.
  pose proof (ceil_div_bounds N B HB) as [Hlo Hhi].
  assert (0 ≤ (N + B - 1) / B) by (apply Z.div_pos; lia).
  split; intros Hk; [|apply Nat2Z.inj_lt; rewrite Z2Nat.id by done]; nia.
Qed.

Lemma chunk_at_length B xs k :
  0 < B →
  (k < chunk_count (Z.of_nat (length xs)) B)%nat →
  Z.of_nat (length (chunk_at B xs k)) =
  expected_chunk_size (Z.of_nat (length xs)) B
    (chunk_count (Z.of_nat (length xs)) B) k.
Proof.
  intros HB Hk. set (N := Z.of_nat (length xs)) in *.
  assert (HN : 0 ≤ N) by lia.
  unfold chunk_at, expected_chunk_size. rewrite length_take, length_drop.
  pose proof (proj1 (chunk_count_lt N B k HB HN) Hk) as Hlt.
  destruct (Nat.ltb_spec (S k) (chunk_count N B)) as [Hnext|Hlast].
  - apply (chunk_count_lt N B (S k) HB HN) in Hnext. lia.
  - assert (Hge : N ≤ Z.of_nat (S k) * B).
    { destruct (Z.le_gt_cases N (Z.of_nat (S k) * B)) as [|Hgt]; [done|].
      apply (chunk_count_lt N B (S k) HB HN) in Hgt. lia. }
    destruct (Z.eqb_spec (N mod B) 0) as [Hz|Hnz].
    + assert (N = Z.of_nat (S k) * B); [|lia].
      pose proof (Z.div_mod N B ltac:(lia)) as Hdm. rewrite Hz in Hdm.
      assert (Z.of_nat k < N / B) by nia.
      assert (N / B ≤ Z.of_nat (S k)) by nia.
      assert (N / B = Z.of_nat (S k)) as Hq by lia.
      rewrite Hq in Hdm. lia.
    + assert (Hmod : N mod B = N - Z.of_nat k * B).
      { symmetry. apply (Z.mod_unique_pos N B (Z.of_nat k)); [|lia].
        split; [lia|].
        destruct (Z.eq_dec N (Z.of_nat (S k) * B)) as [Heq|]; [|lia].
        exfalso. apply Hnz. rewrite Heq. apply Z.mod_mul. lia. }
      rewrite Hmod. lia.
Qed.

Lemma chunks_concat B xs n :
  concat (map (chunk_at B xs) (seq 0 n)) = take (n * Z.to_nat B) xs.
Proof.
  induction n as [|n IH]; [done|].
  rewrite seq_S, map_app, concat_app, IH. simpl. rewrite app_nil_r.
  unfold chunk_at. rewrite take_take_drop. f_equal. lia.
Qed.

Lemma chunks_cover B xs :
  0 < B →
  concat (map (chunk_at B xs)
            (seq 0 (chunk_count (Z.of_nat (length xs)) B))) = xs.
Proof.
  intros HB. rewrite chunks_concat. apply take_ge.
  pose proof (ceil_div_bounds (Z.of_nat (length xs)) B HB) as [_ Hhi].
  unfold chunk_count.
  assert (0 ≤ (Z.of_nat (length xs) + B - 1) / B) by (apply Z.div_pos; lia).
  nia.
Qed.

(** ** The ingestion loop *)

Lemma wrap64_small z : min_int ≤ z ≤ max_int → wrap64 z = z.
Proof.
  unfold wrap64, min_int, max_int.
  change (2 ^ 63) with 9223372036854775808.
  change (2 ^ 64) with 18446744073709551616.
  intros Hz. rewrite Z.mod_small; lia.
Qed.

Section ingestion.
Context {D : Type} `{!Driver D}.

Lemma call_run {A} (op : D → A * D) (ev : A → Event) (w : World D) :
  call op ev w =
  (Ret (op (drv w)).1,
   mkWorld (op (drv w)).2 (log w ++ [ev (op (drv w)).1]) (CKCONN w)).
Proof. unfold call. by destruct (op (drv w)). Qed.

Lemma append_loop_trace b columns xs n :
  ∀ j w r w',
    0 ≤ j →
    append_loop b xs columns j n w = (r, w') →
    ∃ evs, log w' = log w ++ evs ∧
      match r with
      | Ret None =>
          appended b columns (take n (drop (Z.to_nat j) xs)) evs ∧
          (n ≤ length (drop (Z.to_nat j) xs))%nat
      | Ret (Some e) =>
          ∃ k item vs err aevs,
            (k < n)%nat ∧
            appended b columns (take k (drop (Z.to_nat j) xs)) aevs ∧
            drop (Z.to_nat j) xs !! k = Some item ∧
            extractValues item columns = Ret (vs, None) ∧
            evs = aevs ++ [EvAppend b vs (Some err)] ∧
            e = Errorf_w "failed to append data to batch" err
      | Panic _ =>
          ∃ k, appended b columns (take k (drop (Z.to_nat j) xs)) evs
      | OutOfFuel => False
      end.
Proof.
  induction n as [|n IH]; intros j w r w' Hj; simpl.
  { intros [= <- <-]. exists []. rewrite app_nil_r. split; [done|].
    split; [constructor|lia]. }
  unfold bind at 1, lift at 1, Value_Index.
  destruct (Z.ltb_spec j 0) as [|_]; [lia|].
  destruct (xs !! Z.to_nat j) as [item|] eqn:Hitem.
  2:{ intros [= <- <-]. exists []. rewrite app_nil_r. split; [done|].
      exists 0%nat. constructor. }
  unfold bind at 1, lift at 1.
  pose proof (extractValues_no_fuel item columns) as Hnf.
  destruct (extractValues item columns) as [[vs eerr]| |] eqn:Hex;
    try (intros [= <- <-]; exists []; rewrite app_nil_r; split; [done|];
         exists 0%nat; constructor); [|done].
  pose proof (extractValues_no_error _ _ _ _ Hex) as ->. simpl.
  unfold bind at 1. rewrite call_run.
  destruct (batch_Append b vs (drv w)) as [aerr d'] eqn:Happ. simpl.
  pose proof (drop_S _ _ _ Hitem) as Hdrop.
  destruct aerr as [err|].
  - intros [= <- <-]. simpl. eexists. split; [done|].
    exists 0%nat, item, vs, err, []. rewrite Hdrop. simpl.
    split; [lia|]. split; [constructor|]. done.
  - intros Hrun. apply IH in Hrun as (evs & Hlog & Hr); [|lia]. simpl in Hlog.
    replace (Z.to_nat (j + 1)) with (S (Z.to_nat j)) in Hr by lia.
    exists (EvAppend b vs None :: evs). rewrite Hlog, <- app_assoc.
    split; [done|]. rewrite Hdrop.
    destruct r as [[e|]| |]; simpl.
    + destruct Hr as (k & item' & vs' & err & aevs & Hk & Happd & Hlook & Hex' & -> & ->).
      exists (S k), item', vs', err, (EvAppend b vs None :: aevs). simpl.
      split; [lia|]. split; [constructor; eauto|]. done.
    + destruct Hr as [Happd Hlen]. split; [|lia]. constructor; eauto.
    + destruct Hr as (k & Happd). exists (S k). simpl. constructor; eauto.
    + done.
Qed.

Lemma counter_step N B k :
  0 < B → 0 ≤ N → counter_in_range N B → Z.of_nat k * B < N →
  Z.of_nat k * B + B ≤ max_int.
Proof.
  intros HB HN Hrange Hk. apply chunk_count_lt in Hk; [|done..].
  unfold counter_in_range in Hrange. nia.
Qed.

Lemma insert_loop_trace c tableName xs columns fuel :
  ∀ k w r w',
    0 < batchSize c →
    counter_in_range (Z.of_nat (length xs)) (batchSize c) →
    insert_loop fuel c tableName xs (Z.of_nat (length xs)) columns
      (Z.of_nat k * batchSize c) w = (r, w') →
    ∃ evs, log w' = log w ++ evs ∧
           loop_trace (batchSize c) xs (insert_sql tableName columns) columns
             (Z.of_nat k * batchSize c) r evs.
Proof.
  set (B := batchSize c). set (N := Z.of_nat (length xs)).
  induction fuel as [|fuel IH]; intros k w r w' HB Hbound;
    set (i := Z.of_nat k * B); simpl; fold B; fold N.
  all: destruct (Z.ltb_spec i N) as [HiN|HiN]; simpl;
    [|intros [= <- <-]; exists []; rewrite app_nil_r; split; [done|];
      by constructor].
  { intros [= <- <-]. exists []. rewrite app_nil_r. split; [done|].
    by constructor. }
  assert (Hi : 0 ≤ i) by (unfold i; nia).
  assert (Hstep : i + B ≤ max_int)
    by (apply counter_step with N; [done|unfold N; lia|done|done]).
  assert (Hmax : max_int = 9223372036854775807) by reflexivity.
  assert (Hmin : min_int = -9223372036854775808) by reflexivity.
  unfold int_add. rewrite (wrap64_small (i + B)) by lia.
  replace (if i + B >? N then N else i + B) with (Z.min (i + B) N)
    by (destruct (Z.gtb_spec (i + B) N); lia).
  unfold int_sub. rewrite (wrap64_small (Z.min (i + B) N - 1)) by lia.
  unfold bind at 1, prepareBatch. rewrite call_run. fold (insert_sql tableName columns).
  destruct (conn_PrepareBatch (insert_sql tableName columns) (drv w))
    as [[b|perr] d1] eqn:Hprep; simpl.
  2:{ intros [= <- <-]. simpl. eexists. split; [done|]. by constructor. }
  unfold bind at 1.
  destruct (append_loop b xs columns i (Z.to_nat (Z.min (i + B) N - i)) _)
    as [ra w2] eqn:Happ.
  apply append_loop_trace in Happ as (aevs & Hlog2 & Hra); [|lia]. simpl in Hlog2.
  assert (Htake : take (Z.to_nat (Z.min (i + B) N - i)) (drop (Z.to_nat i) xs)
                  = take (Z.to_nat B) (drop (Z.to_nat i) xs)).
  { destruct (Z.le_gt_cases (i + B) N).
    - f_equal. lia.
    - rewrite !take_ge; [done| |]; rewrite length_drop; lia. }
  destruct ra as [[e|]|msg|].
  - intros [= <- <-]. rewrite Hlog2, <- app_assoc.
    destruct Hra as (k' & item & vs & err & evs & Hk & Happd & Hlook & Hex & -> & ->).
    eexists. split; [done|]. simpl.
    apply lt_append_failed with (k := k') (item := item); try done. lia.
  - destruct Hra as [Happd Hlen]. rewrite Htake in Happd.
    unfold bind at 1. rewrite call_run.
    destruct (batch_Send b (drv w2)) as [[serr|] d3] eqn:Hsend; simpl.
    + intros [= <- <-]. simpl. rewrite Hlog2, <- !app_assoc.
      eexists. split; [done|]. simpl. by apply lt_send_failed.
    + replace (i + B) with (Z.of_nat (S k) * B) by (unfold i; lia).
      intros Hrun. apply IH in Hrun as (rest & Hlog3 & Hrest); [|done..].
      simpl in Hlog3. rewrite Hlog3, Hlog2, <- !app_assoc.
      eexists. split; [done|]. simpl. apply lt_next; [done..|].
      by replace (i + B) with (Z.of_nat (S k) * B) by (unfold i; lia).
  - intros [= <- <-]. rewrite Hlog2, <- app_assoc.
    destruct Hra as (k' & Happd). eexists. split; [done|]. simpl.
    by apply lt_panicked with (k := k').
  - done.
Qed.

End ingestion.

(** ** What a run of the loop implies *)

Lemma loop_trace_chunks B xs sql columns i r evs :
  loop_trace B xs sql columns i r evs →
  r = Ret None →
  0 < B →
  ∀ k, i = Z.of_nat k * B →
    ∃ evss, evs = concat evss ∧
      Forall2 (chunk_run B xs sql columns)
        (seq k (chunk_count (Z.of_nat (length xs)) B - k)) evss.
Proof.
  set (N := Z.of_nat (length xs)).
  induction 1 as [i Hi|i Hi|i err Hi|i b k' evs msg Hi Happ
                 |i b k' item vs err evs Hi Hk Happ Hlook Hex
                 |i b err evs Hi Happ|i b evs r rest Hi Happ Hrest IH];
    intros Hr HB k ->; try discriminate.
  - exists []. split; [done|].
    replace (chunk_count N B - k)%nat with 0%nat; [constructor|].
    assert (¬ (k < chunk_count N B)%nat); [|lia].
    rewrite chunk_count_lt by lia. lia.
  - destruct (IH Hr HB (S k)) as (evss & -> & Hall); [lia|].
    exists ((EvPrepareBatch sql (inl b) :: evs ++ [EvSend b None]) :: evss).
    split. { simpl. by rewrite <- app_assoc. }
    assert (Hk : (k < chunk_count N B)%nat) by (rewrite chunk_count_lt; lia).
    replace (chunk_count N B - k)%nat with (S (chunk_count N B - S k)) by lia.
    simpl. constructor; [|done].
    exists b, evs. split; [done|]. unfold chunk_at.
    replace (k * Z.to_nat B)%nat with (Z.to_nat (Z.of_nat k * B)) by lia. done.
Qed.

Lemma loop_trace_failure_last B xs sql columns i r evs :
  loop_trace B xs sql columns i r evs →
  ∀ pre ev post err,
    evs = pre ++ ev :: post →
    event_error ev = Some err →
    post = [] ∧ ∃ e, r = Ret (Some e) ∧ Unwrap e = Some err.
Proof.
  assert (Happ_ok : ∀ b items aevs pre ev post err,
    appended b columns items aevs → aevs = pre ++ ev :: post →
    event_error ev = Some err → False).
  { intros b items aevs pre ev post err Happ. revert pre.
    induction Happ as [|item e items aevs (vs & _ & ->) _ IH]; intros pre Heq Herr.
    - by destruct pre.
    - destruct pre as [|p pre]; injection Heq as Hhd Htl; subst; [done|]. eauto. }
  assert (Hsplit : ∀ (l1 : list Event) x l2 pre ev post,
    l1 ++ x :: l2 = pre ++ ev :: post →
    (∃ mid, l1 = pre ++ ev :: mid) ∨ (pre = l1 ∧ ev = x ∧ post = l2) ∨
    (∃ mid, l2 = mid ++ ev :: post)).
  { induction l1 as [|y l1 IH]; intros x l2 pre ev post Heq; simpl in *.
    - destruct pre as [|p pre]; injection Heq as Hhd Htl; subst; [eauto|].
      right; right. eauto.
    - destruct pre as [|p pre]; injection Heq as Hhd Htl; subst.
      + left. by exists l1.
      + apply IH in Htl as [[mid ->]|[(-> & -> & ->)|[mid ->]]]; eauto. }
  induction 1 as [i Hi|i Hi|i err' Hi|i b k' evs msg Hi Happ
                 |i b k' item vs err' evs Hi Hk Happ Hlook Hex
                 |i b err' evs Hi Happ|i b evs r rest Hi Happ Hrest IH];
    intros pre ev post err Heq Herr.
  - by destruct pre.
  - by destruct pre.
  - destruct pre as [|p pre]; [|by destruct pre].
    injection Heq as <- <-. injection Herr as <-. eauto.
  - destruct pre as [|p pre]; injection Heq as Hhd Htl; subst; [done|].
    exfalso. eauto.
  - destruct pre as [|p pre]; injection Heq as Hhd Htl; subst; [done|].
    apply Hsplit in Htl as [[mid ->]|[(-> & -> & ->)|[mid Hnil]]].
    + exfalso. eauto.
    + injection Herr as <-. eauto.
    + by destruct mid.
  - destruct pre as [|p pre]; injection Heq as Hhd Htl; subst; [done|].
    apply Hsplit in Htl as [[mid ->]|[(-> & -> & ->)|[mid Hnil]]].
    + exfalso. eauto.
    + injection Herr as <-. unfold send_error. eauto.
    + by destruct mid.
  - destruct pre as [|p pre]; injection Heq as Hhd Htl; subst; [done|].
    apply Hsplit in Htl as [[mid ->]|[(-> & -> & ->)|[mid ->]]].
    + exfalso. eauto.
    + done.
    + eauto.
Qed.

(** The errors the loop returns: only the one for a failed send carries
    the place of the chunk, as the inclusive range of its record indices. *)
Lemma loop_trace_error_shape B xs sql columns i r evs :
  loop_trace B xs sql columns i r evs →
  0 < B →
  ∀ e, r = Ret (Some e) →
    ∃ cause,
      e = Errorf_w "failed to prepare batch" cause ∨
      e = Errorf_w "failed to append data to batch" cause ∨
      ∃ m : nat, i + Z.of_nat m * B < Z.of_nat (length xs) ∧
                 e = send_error (i + Z.of_nat m * B) B
                       (Z.of_nat (length xs)) cause.
Proof.
  induction 1 as [i Hi|i Hi|i err' Hi|i b k' evs msg Hi Happ
                 |i b k' item vs err' evs Hi Hk Happ Hlook Hex
                 |i b err' evs Hi Happ|i b evs r rest Hi Happ Hrest IH];
    intros HB e Hr; try discriminate.
  - injection Hr as <-. eauto.
  - injection Hr as <-. eauto.
  - injection Hr as <-. exists err'. right; right. exists 0%nat.
    rewrite Z.add_0_r. split; [lia|done].
  - destruct (IH HB e Hr) as (cause & [->|[->|(m & Hm & ->)]]); eauto.
    exists cause. right; right. exists (S m).
    replace (i + Z.of_nat (S m) * B) with (i + B + Z.of_nat m * B) by lia.
    done.
Qed.

Lemma loop_trace_appends B xs sql columns i r evs :
  loop_trace B xs sql columns i r evs →
  ∀ b vs res, EvAppend b vs res ∈ evs →
    ∃ item, item ∈ xs ∧ extractValues item columns = Ret (vs, None).
Proof.
  assert (Happ_in : ∀ b items aevs b' vs res,
    appended b columns items aevs → EvAppend b' vs res ∈ aevs →
    ∃ item, item ∈ items ∧ extractValues item columns = Ret (vs, None)).
  { intros b items aevs b' vs res Happ Hin.
    induction Happ as [|item e items aevs (vs' & Hex & ->) _ IH].
    - by apply elem_of_nil in Hin.
    - apply elem_of_cons in Hin as [[= -> -> ->]|Hin].
      + exists item. split; [left|done].
      + destruct (IH Hin) as (item' & Hin' & Hex'). exists item'.
        split; [by right|done]. }
  assert (Hsub : ∀ n m item, item ∈ take n (drop m xs) → item ∈ xs).
  { intros n m item Hin. apply elem_of_take in Hin as (j & Hj & _).
    rewrite lookup_drop in Hj. by apply list_elem_of_lookup_2 in Hj. }
  induction 1 as [i Hi|i Hi|i err' Hi|i b k' evs msg Hi Happ
                 |i b k' item vs' err' evs Hi Hk Happ Hlook Hex
                 |i b err' evs Hi Happ|i b evs r rest Hi Happ Hrest IH];
    intros b' vs res Hin.
  - by apply elem_of_nil in Hin.
  - by apply elem_of_nil in Hin.
  - apply elem_of_cons in Hin as [|Hin]; [done|]. by apply elem_of_nil in Hin.
  - apply elem_of_cons in Hin as [|Hin]; [done|].
    destruct (Happ_in _ _ _ _ _ _ Happ Hin) as (it & Hit & Hex). eauto.
  - apply elem_of_cons in Hin as [|Hin]; [done|].
    apply elem_of_app in Hin as [Hin|Hin].
    + destruct (Happ_in _ _ _ _ _ _ Happ Hin) as (it & Hit & Hex'). eauto.
    + apply list_elem_of_singleton in Hin as [= -> -> ->].
      exists item. split; [|done]. rewrite lookup_drop in Hlook.
      by apply list_elem_of_lookup_2 in Hlook.
  - apply elem_of_cons in Hin as [|Hin]; [done|].
    apply elem_of_app in Hin as [Hin|Hin].
    + destruct (Happ_in _ _ _ _ _ _ Happ Hin) as (it & Hit & Hex'). eauto.
    + by apply list_elem_of_singleton in Hin.
  - apply elem_of_cons in Hin as [|Hin]; [done|].
    apply elem_of_app in Hin as [Hin|Hin].
    + destruct (Happ_in _ _ _ _ _ _ Happ Hin) as (it & Hit & Hex'). eauto.
    + apply elem_of_cons in Hin as [|Hin]; [done|]. eauto.
Qed.

(** ** Ingestion calls *)

Section batch_insert.
Context {D : Type} `{!Driver D}.

Lemma new_events_app (w w' : World D) evs :
  log w' = log w ++ evs → new_events w w' = evs.
Proof. unfold new_events. intros ->. by rewrite drop_app_length. Qed.

Lemma BatchInsert_trace c tableName elemT xs fuel (w : World D) r w' :
  0 < batchSize c →
  counter_in_range (Z.of_nat (length xs)) (batchSize c) →
  BatchInsert fuel c tableName (VSlice elemT xs) w = (r, w') →
  ∃ evs, log w' = log w ++ evs ∧
    match xs with
    | [] => r = Ret None ∧ evs = []
    | first :: _ =>
        match analyzeStructure first with
        | Ret (columns, None) =>
            loop_trace (batchSize c) xs (insert_sql tableName columns) columns
              0 r evs
        | Ret (_, Some err) =>
            r = Ret (Some (Errorf_w "failed to analyze data structure" err)) ∧
            evs = []
        | Panic msg => r = Panic msg ∧ evs = []
        | OutOfFuel => r = OutOfFuel ∧ evs = []
        end
    end.
Proof.
  intros HB Hbound. unfold BatchInsert.
  destruct xs as [|first rest].
  { simpl. intros [= <- <-]. exists []. by rewrite app_nil_r. }
  set (xs := first :: rest) in *.
  assert (Hlen : (Z.of_nat (length xs) =? 0) = false)
    by (apply Z.eqb_neq; simpl; lia).
  rewrite Hlen. unfold bind at 1, lift at 1. simpl Value_Index. simpl.
  unfold bind at 1, lift at 1.
  destruct (analyzeStructure first) as [[columns [err|]]|msg|]; simpl.
  - intros [= <- <-]. exists []. by rewrite app_nil_r.
  - intros Hrun. fold xs in Hrun.
    change (Z.pos (Pos.of_succ_nat (length rest)))
      with (Z.of_nat (length xs)) in Hrun.
    exact (insert_loop_trace c tableName xs columns fuel 0%nat w r w'
             HB Hbound Hrun).
  - intros [= <- <-]. exists []. by rewrite app_nil_r.
  - intros [= <- <-]. exists []. by rewrite app_nil_r.
Qed.

(** With a positive batch size, as many units of fuel as there are records
    are enough for the loop to finish. *)
Lemma insert_loop_enough_fuel c tableName xs columns fuel :
  ∀ k (w : World D),
    0 < batchSize c →
    counter_in_range (Z.of_nat (length xs)) (batchSize c) →
    (length xs ≤ k + fuel)%nat →
    fst (insert_loop fuel c tableName xs (Z.of_nat (length xs)) columns
           (Z.of_nat k * batchSize c) w)
      ≠ OutOfFuel.
Proof.
  set (B := batchSize c). set (N := Z.of_nat (length xs)).
  induction fuel as [|fuel IH]; intros k w HB Hbound Hfuel;
    set (i := Z.of_nat k * B); simpl; fold B; fold N.
  all: destruct (Z.ltb_spec i N) as [HiN|HiN]; simpl; [|done].
  { unfold i, N in HiN. nia. }
  assert (Hi : 0 ≤ i) by (unfold i; nia).
  assert (Hstep : i + B ≤ max_int)
    by (apply counter_step with N; [done|unfold N; lia|done|done]).
  assert (Hmax : max_int = 9223372036854775807) by reflexivity.
  assert (Hmin : min_int = -9223372036854775808) by reflexivity.
  unfold int_add. rewrite (wrap64_small (i + B)) by lia.
  unfold bind at 1, prepareBatch. rewrite call_run.
  destruct (conn_PrepareBatch _ (drv w)) as [[b|perr] d1]; simpl; [|done].
  unfold bind at 1.
  destruct (append_loop b xs columns i _ _) as [ra w2] eqn:Happ.
  apply append_loop_trace in Happ as (aevs & _ & Hra); [|lia].
  destruct ra as [[e|]|msg|]; simpl; try done.
  unfold bind at 1. rewrite call_run.
  destruct (batch_Send b (drv w2)) as [[serr|] d3]; simpl; [done|].
  replace (i + B) with (Z.of_nat (S k) * B) by (unfold i; lia).
  apply IH; [done..|lia].
Qed.

Lemma BatchInsert_enough_fuel c tableName data fuel (w : World D) :
  0 < batchSize c →
  (∀ e xs, data = VSlice e xs →
     counter_in_range (Z.of_nat (length xs)) (batchSize c) ∧
     (length xs ≤ fuel)%nat) →
  fst (BatchInsert fuel c tableName data w) ≠ OutOfFuel.
Proof.
  intros HB Hdata. unfold BatchInsert.
  destruct data as [ |k s|fs|e xs|e xs|e x]; try done.
  destruct (Hdata e xs eq_refl) as [Hbound Hfuel].
  destruct xs as [|first rest]; [done|].
  set (xs := first :: rest) in *.
  assert (Hlen : (Z.of_nat (length xs) =? 0) = false)
    by (apply Z.eqb_neq; simpl; lia).
  rewrite Hlen. unfold bind at 1, lift at 1. simpl Value_Index. simpl.
  unfold bind at 1, lift at 1.
  destruct (analyzeStructure first) as [[columns [err|]]|msg|] eqn:Han;
    simpl; try done.
  - change (Z.pos (Pos.of_succ_nat (length rest)))
      with (Z.of_nat (length xs)).
    exact (insert_loop_enough_fuel c tableName xs columns fuel 0%nat w
             HB Hbound Hfuel).
  - by apply analyzeStructure_no_fuel in Han.
Qed.

(** Whatever the driver does, a driver call that fails is the last one of
    the call, and the call returns an error that wraps the driver's. *)
Lemma BatchInsert_stops_at_first_failure c tableName elemT xs fuel
    (w : World D) r w' :
  0 < batchSize c →
  counter_in_range (Z.of_nat (length xs)) (batchSize c) →
  BatchInsert fuel c tableName (VSlice elemT xs) w = (r, w') →
  ∀ pre ev post err,
    new_events w w' = pre ++ ev :: post →
    event_error ev = Some err →
    post = [] ∧ ∃ e, r = Ret (Some e) ∧ Unwrap e = Some err.
Proof.
  intros HB Hbound Hrun pre ev post err Hev Herr.
  apply BatchInsert_trace in Hrun as (evs & Hlog & Hshape); try done.
  rewrite (new_events_app _ _ _ Hlog) in Hev. subst evs.
  destruct xs as [|first rest].
  { destruct Hshape as [_ Hnil]. by destruct pre. }
  destruct (analyzeStructure first) as [[columns [aerr|]]|msg|];
    try (destruct Hshape as [_ Hnil]; by destruct pre).
  eapply loop_trace_failure_last; eauto.
Qed.

(** The errors an ingestion call returns once it has a slice of records. *)
Lemma BatchInsert_errors c tableName elemT xs fuel (w : World D) e w' :
  0 < batchSize c →
  counter_in_range (Z.of_nat (length xs)) (batchSize c) →
  BatchInsert fuel c tableName (VSlice elemT xs) w = (Ret (Some e), w') →
  ∃ cause,
    e = Errorf_w "failed to analyze data structure" cause ∨
    e = Errorf_w "failed to prepare batch" cause ∨
    e = Errorf_w "failed to append data to batch" cause ∨
    ∃ m : nat,
      Z.of_nat m * batchSize c < Z.of_nat (length xs) ∧
      e = send_error (Z.of_nat m * batchSize c) (batchSize c)
            (Z.of_nat (length xs)) cause.
Proof.
  intros HB Hbound Hrun.
  apply BatchInsert_trace in Hrun as (evs & _ & Hshape); try done.
  destruct xs as [|first rest]; [by destruct Hshape|].
  destruct (analyzeStructure first) as [[columns [aerr|]]|msg|];
    try (by destruct Hshape).
  - destruct Hshape as [[= ->] _]. eauto.
  - destruct (loop_trace_error_shape _ _ _ _ _ _ _ Hshape HB e eq_refl)
      as (cause & [->|[->|(m & Hm & ->)]]); eauto 6.
    rewrite Z.add_0_l in Hm |- *.
    exists cause. do 3 right. by exists m.
Qed.

End batch_insert.

(** C4.  A call that succeeds on [N] records with batch size [B > 0], the
    loop counter staying within [int], has
    made exactly the driver calls of [ceil (N / B)] chunks, one chunk after
    the other: chunk [k] is records [k*B ..], the chunks put end to end are
    the input, every chunk but the last has [B] records and the last has
    [N mod B], or [B] when [B] divides [N]. *)
Theorem BatchInsert_chunks {D : Type} `{!Driver D} (c : ClickHouseClient)
    (tableName : string) (elemT : GoType) (xs : list Value) (fuel : nat)
    (w w' : World D) :
  0 < batchSize c →
  counter_in_range (Z.of_nat (length xs)) (batchSize c) →
  BatchInsert fuel c tableName (VSlice elemT xs) w = (Ret None, w') →
  ∃ columns evss,
    (∀ first, head xs = Some first →
              analyzeStructure first = Ret (columns, None)) ∧
    new_events w w' = concat evss ∧
    Forall2 (chunk_run (batchSize c) xs (insert_sql tableName columns) columns)
      (seq 0 (chunk_count (Z.of_nat (length xs)) (batchSize c))) evss ∧
    length evss = chunk_count (Z.of_nat (length xs)) (batchSize c) ∧
    concat (map (chunk_at (batchSize c) xs)
              (seq 0 (chunk_count (Z.of_nat (length xs)) (batchSize c)))) = xs ∧
    ∀ k, (k < chunk_count (Z.of_nat (length xs)) (batchSize c))%nat →
         Z.of_nat (length (chunk_at (batchSize c) xs k)) =
         expected_chunk_size (Z.of_nat (length xs)) (batchSize c)
           (chunk_count (Z.of_nat (length xs)) (batchSize c)) k.
Proof.
  intros HB Hbound Hrun.
  apply BatchInsert_trace in Hrun as (evs & Hlog & Hshape); try done.
  apply new_events_app in Hlog. rewrite Hlog.
  assert (Hrest :
    concat (map (chunk_at (batchSize c) xs)
              (seq 0 (chunk_count (Z.of_nat (length xs)) (batchSize c)))) = xs ∧
    ∀ k, (k < chunk_count (Z.of_nat (length xs)) (batchSize c))%nat →
         Z.of_nat (length (chunk_at (batchSize c) xs k)) =
         expected_chunk_size (Z.of_nat (length xs)) (batchSize c)
           (chunk_count (Z.of_nat (length xs)) (batchSize c)) k).
  { split; [by apply chunks_cover|]. intros k. by apply chunk_at_length. }
  destruct xs as [|first rest].
  - destruct Hshape as [_ ->]. exists [], [].
    assert (Hc : chunk_count (Z.of_nat (length (@nil Value))) (batchSize c) = 0%nat).
    { unfold chunk_count. simpl. rewrite Z.div_small; lia. }
    rewrite Hc in *. simpl. split; [done|]. split; [done|].
    split; [constructor|]. split; [done|]. split; [done|]. lia.
  - destruct (analyzeStructure first) as [[columns [aerr|]]|msg|] eqn:Han;
      try (by destruct Hshape).
    destruct (loop_trace_chunks _ _ _ _ _ _ _ Hshape eq_refl HB 0%nat)
      as (evss & -> & Hall); [lia|].
    rewrite Nat.sub_0_r in Hall.
    exists columns, evss. split; [by intros ? [= <-]|]. split; [done|].
    split; [done|]. split; [|done].
    apply Forall2_length in Hall. by rewrite length_seq in Hall.
Qed.

Lemma BatchInsert_chunks_witness :
  ∃ columns evss,
    (∀ first, head (Sample.events 5) = Some first →
              analyzeStructure first = Ret (columns, None)) ∧
    new_events (Scripted.world [] [])
      (snd (BatchInsert 5 (mkClient 2) "events"
              (VSlice Sample.EventT (Sample.events 5)) (Scripted.world [] [])))
      = concat evss ∧
    Forall2 (chunk_run 2 (Sample.events 5) (insert_sql "events" columns) columns)
      (seq 0 (chunk_count 5 2)) evss ∧
    length evss = chunk_count 5 2 ∧
    concat (map (chunk_at 2 (Sample.events 5)) (seq 0 (chunk_count 5 2)))
      = Sample.events 5 ∧
    ∀ k, (k < chunk_count 5 2)%nat →
         Z.of_nat (length (chunk_at 2 (Sample.events 5) k)) =
         expected_chunk_size 5 2 (chunk_count 5 2) k.
Proof.
  apply (BatchInsert_chunks (mkClient 2) "events" Sample.EventT
           (Sample.events 5) 5 (Scripted.world [] [])).
  - reflexivity.
  - vm_compute. discriminate.
  - vm_compute. reflexivity.
Defined.

Lemma included_fields fs :
  map fst (included fs) = List.filter has_column (map fst fs).
Proof.
  induction fs as [|fv fs IH]; [done|]. unfold included in *. simpl.
  destruct (has_column (fst fv)); simpl; by rewrite IH.
Qed.

Lemma record_extraction fields first item :
  is_record_of fields first = true →
  is_record_of fields item = true →
  ∃ columns fs values,
    analyzeStructure first = Ret (columns, None) ∧
    record_fields item = Some fs ∧
    extractValues item columns = Ret (values, None) ∧
    length values = length columns ∧
    columns = map (λ fv, getColumnName (fst fv)) (included fs) ∧
    Forall2 (λ fv w, convertValue (snd fv) = Ret w) (included fs) values.
Proof.
  unfold is_record_of. intros Hfirst Hitem.
  destruct (record_fields first) as [fs0|] eqn:Hrec0; [|done].
  destruct (record_fields item) as [fs|] eqn:Hrec; [|done].
  apply andb_true_iff in Hfirst as [Hf0 _].
  apply andb_true_iff in Hitem as [Hf Hwf].
  apply bool_decide_eq_true in Hf0, Hf.
  assert (Hcols : map (λ fv, getColumnName (fst fv)) (included fs0) =
                  map (λ fv, getColumnName (fst fv)) (included fs)).
  { rewrite <- !(map_map fst getColumnName), !included_fields. congruence. }
  destruct (extractValues_record item fs
              (map (λ fv, getColumnName (fst fv)) (included fs)) Hrec Hwf)
    as (values & Hex & Hall); [by rewrite length_map|].
  exists (map (λ fv, getColumnName (fst fv)) (included fs)), fs, values.
  split; [by rewrite (analyzeStructure_record _ _ Hrec0), Hcols|].
  split; [done|]. split; [done|].
  split; [|done]. apply Forall2_length in Hall. by rewrite length_map.
Qed.

(** C3.  For a non-empty sequence of records of one shape, the column list
    read off element 0 has some length, and the tuple extracted from any
    record has that length: its entry [i] is the converted value of the
    [i]-th field that gets a column, and column [i] is the name that field
    resolves to.  The tuples that [BatchInsert] appends, in whatever chunk,
    are these tuples. *)
Theorem tuples_align_with_columns {D : Type} `{!Driver D}
    (fields : list StructField) (first : Value) (rest : list Value) :
  forallb (is_record_of fields) (first :: rest) = true →
  ∃ columns,
    analyzeStructure first = Ret (columns, None) ∧
    (∀ item, item ∈ first :: rest →
       ∃ fs values,
         record_fields item = Some fs ∧
         extractValues item columns = Ret (values, None) ∧
         length values = length columns ∧
         columns = map (λ fv, getColumnName (fst fv)) (included fs) ∧
         Forall2 (λ fv w, convertValue (snd fv) = Ret w) (included fs) values) ∧
    (∀ (c : ClickHouseClient) tableName elemT fuel (w : World D) r w',
       0 < batchSize c →
       counter_in_range (Z.of_nat (length (first :: rest))) (batchSize c) →
       BatchInsert fuel c tableName (VSlice elemT (first :: rest)) w = (r, w') →
       ∀ b vs res, EvAppend b vs res ∈ new_events w w' →
         length vs = length columns ∧
         ∃ item, item ∈ first :: rest ∧
                 extractValues item columns = Ret (vs, None)).
Proof.
  intros Hall. rewrite forallb_forall in Hall.
  assert (Hfirst : is_record_of fields first = true)
    by (apply Hall; by left).
  destruct (record_extraction fields first first Hfirst Hfirst)
    as (columns & _ & _ & Han & _).
  assert (Hitems : ∀ item, item ∈ first :: rest →
    ∃ fs values,
      record_fields item = Some fs ∧
      extractValues item columns = Ret (values, None) ∧
      length values = length columns ∧
      columns = map (λ fv, getColumnName (fst fv)) (included fs) ∧
      Forall2 (λ fv w, convertValue (snd fv) = Ret w) (included fs) values).
  { intros item Hin. apply list_elem_of_In, Hall in Hin.
    destruct (record_extraction fields first item Hfirst Hin)
      as (columns' & fs & values & Han' & H).
    rewrite Han in Han'. injection Han' as <-. eauto. }
  exists columns. split; [done|]. split; [done|].
  intros c tableName elemT fuel w r w' HB Hbound Hrun b vs res Hin.
  apply BatchInsert_trace in Hrun as (evs & Hlog & Hshape); try done.
  rewrite (new_events_app _ _ _ Hlog) in Hin. rewrite Han in Hshape.
  destruct (loop_trace_appends _ _ _ _ _ _ _ Hshape _ _ _ Hin)
    as (item & Hitem & Hex).
  split; [|eauto].
  destruct (Hitems item Hitem) as (fs & values & _ & Hex' & Hlen & _).
  rewrite Hex in Hex'. by injection Hex' as ->.
Qed.

Lemma tuples_align_with_columns_witness :
  ∃ columns,
    analyzeStructure (Sample.event 0 "x" [Sample.tag "a" "b"])
      = Ret (columns, None) ∧
    (∀ item, item ∈ Sample.events 3 →
       ∃ fs values,
         record_fields item = Some fs ∧
         extractValues item columns = Ret (values, None) ∧
         length values = length columns ∧
         columns = map (λ fv, getColumnName (fst fv)) (included fs) ∧
         Forall2 (λ fv w, convertValue (snd fv) = Ret w) (included fs) values) ∧
    (∀ (c : ClickHouseClient) tableName elemT fuel
       (w : World Scripted.State) r w',
       0 < batchSize c →
       counter_in_range (Z.of_nat (length (Sample.events 3))) (batchSize c) →
       BatchInsert fuel c tableName (VSlice elemT (Sample.events 3)) w
         = (r, w') →
       ∀ b vs res, EvAppend b vs res ∈ new_events w w' →
         length vs = length columns ∧
         ∃ item, item ∈ Sample.events 3 ∧
                 extractValues item columns = Ret (vs, None)).
Proof.
  apply (tuples_align_with_columns
           (map fst (match Sample.event 0 "" [] with
                     | VStruct fs => fs
                     | _ => []
                     end))
           (Sample.event 0 "x" [Sample.tag "a" "b"])
           (tail (Sample.events 3))).
  reflexivity.
Defined.

(** C1.  Five records, batch size 2.  When the driver rejects an append,
    the call returns the same error whether the append was in chunk 0-1 or
    in chunk 2-3: the message names no chunk.  When the driver rejects the
    send of chunk 2-3, the error names [2-3]. *)
Theorem append_failure_names_no_range :
  fst (BatchInsert 5 (mkClient 2) "events"
         (VSlice Sample.EventT (Sample.events 5))
         (Scripted.world [None; Some (Errorf "boom")] []))
  = Ret (Some (mkError "failed to append data to batch: boom"
                 (Some (Errorf "boom")))) ∧
  fst (BatchInsert 5 (mkClient 2) "events"
         (VSlice Sample.EventT (Sample.events 5))
         (Scripted.world [None; None; None; None; None; Some (Errorf "boom")] []))
  = Ret (Some (mkError "failed to append data to batch: boom"
                 (Some (Errorf "boom")))) ∧
  fst (BatchInsert 5 (mkClient 2) "events"
         (VSlice Sample.EventT (Sample.events 5))
         (Scripted.world
            [None; None; None; None; None; None; None; Some (Errorf "boom")] []))
  = Ret (Some (mkError "failed to send batch 2-3: boom"
                 (Some (Errorf "boom")))).
Proof. repeat split; vm_compute; reflexivity. Qed.

(** ** Table provisioning *)

Lemma prefix_app p s : String.prefix p (p +:+ s) = true.
Proof.
  induction p as [|a p IH]; simpl; [by destruct s|].
  by destruct (ascii_dec a a).
Qed.

Lemma prefix_app_l sub s1 s2 :
  String.prefix sub s1 = true → String.prefix sub (s1 +:+ s2) = true.
Proof.
  revert s1; induction sub as [|a sub IH]; intros s1; simpl.
  - intros _. by destruct (s1 +:+ s2).
  - destruct s1 as [|b s1]; simpl; [done|].
    destruct (ascii_dec a b); [apply IH|done].
Qed.

Lemma Contains_unfold s sub :
  GoStrings.Contains s sub =
  if String.prefix sub s then true
  else match s with
       | EmptyString => false
       | String _ s' => GoStrings.Contains s' sub
       end.
Proof. by destruct s. Qed.

Lemma Contains_app_l s1 s2 sub :
  GoStrings.Contains s1 sub = true → GoStrings.Contains (s1 +:+ s2) sub = true.
Proof.
  induction s1 as [|c s1 IH]; rewrite (Contains_unfold _ sub);
    rewrite (Contains_unfold (_ +:+ s2) sub).
  - destruct (String.prefix sub "") eqn:Hp; [|done]. intros _.
    by rewrite (prefix_app_l _ _ s2 Hp).
  - destruct (String.prefix sub (String c s1)) eqn:Hp.
    + intros _. by rewrite (prefix_app_l _ _ s2 Hp).
    + intros H. apply IH in H.
      change (String c s1 +:+ s2) with (String c (s1 +:+ s2)).
      cbv beta iota. rewrite H.
      by destruct (String.prefix sub (String c (s1 +:+ s2))).
Qed.

Lemma Contains_app_r s1 s2 sub :
  GoStrings.Contains s2 sub = true → GoStrings.Contains (s1 +:+ s2) sub = true.
Proof.
  intros H. induction s1 as [|c s1 IH]; [done|].
  rewrite Contains_unfold.
  change (String c s1 +:+ s2) with (String c (s1 +:+ s2)).
  cbv beta iota. rewrite IH.
  by destruct (String.prefix sub (String c (s1 +:+ s2))).
Qed.

Lemma write_columns_Contains cols sub :
  ∀ i n sb, GoStrings.Contains sb sub = true →
            GoStrings.Contains (write_columns cols i n sb) sub = true.
Proof.
  induction cols as [|col cols IH]; intros i n sb Hsb; simpl; [done|].
  apply IH. destruct (i <? n - 1); repeat apply Contains_app_l; done.
Qed.

Lemma write_columns_prefix cols p :
  ∀ i n sb, String.prefix p sb = true →
            String.prefix p (write_columns cols i n sb) = true.
Proof.
  induction cols as [|col cols IH]; intros i n sb Hsb; simpl; [done|].
  apply IH. destruct (i <? n - 1); repeat apply prefix_app_l; done.
Qed.

Lemma create_database_stmt_cluster database :
  GoStrings.Contains (create_database_stmt database) "ON CLUSTER bms_cluster"
  = true.
Proof. unfold create_database_stmt. by do 2 apply Contains_app_r. Qed.

Lemma create_table_stmt_cluster database table order desc cols :
  GoStrings.Contains (create_table_stmt database table order desc cols)
    "ON CLUSTER bms_cluster" = true.
Proof.
  unfold create_table_stmt. repeat apply Contains_app_l.
  apply write_columns_Contains. by do 4 apply Contains_app_r.
Qed.

Lemma create_distributed_stmt_cluster distDB localTable desc cols :
  GoStrings.Contains (create_distributed_stmt distDB localTable desc cols)
    "ON CLUSTER bms_cluster" = true.
Proof.
  unfold create_distributed_stmt. repeat apply Contains_app_l.
  apply write_columns_Contains. by do 4 apply Contains_app_r.
Qed.

Lemma hasCreatedAt_spec cols :
  hasCreatedAt cols = true ↔ ∃ col, col ∈ cols ∧ col_Name col = "created_at".
Proof.
  induction cols as [|col cols IH]; simpl.
  - split; [done|]. intros (col & Hin & _). by apply elem_of_nil in Hin.
  - destruct (String.eqb_spec (col_Name col) "created_at") as [Heq|Hne].
    + split; [|done]. intros _. exists col. split; [left|done].
    + rewrite IH. split; intros (col' & Hin & Hname).
      * exists col'. split; [by right|done].
      * apply elem_of_cons in Hin as [->|Hin]; [done|eauto].
Qed.

Section ddl_runs.
Context {D : Type} `{!Driver D}.

(** A run of two statements, the second only after the first was accepted. *)
Lemma two_statements (c : ClickHouseClient) q1 q2 (w : World D) :
  ∃ r w',
    (err <- Exec c q1 [] ;;
     match err with
     | Some err => ret (Some err)
     | None => Exec c q2 []
     end) w = (Ret r, w') ∧
    ((∃ err, r = Some err ∧ new_events w w' = [EvExec q1 [] (Some err)]) ∨
     new_events w w' = [EvExec q1 [] None; EvExec q2 [] r]).
Proof.
  unfold bind, Exec. rewrite call_run.
  destruct (conn_Exec q1 [] (drv w)) as [[err|] d1] eqn:H1; simpl.
  - eexists _, _. split; [done|]. left. exists err. split; [done|].
    by apply new_events_app.
  - rewrite call_run. simpl.
    destruct (conn_Exec q2 [] d1) as [r d2]. simpl.
    eexists _, _. split; [done|]. right.
    apply new_events_app. simpl. by rewrite <- app_assoc.
Qed.

End ddl_runs.

(** C8.  [CreateTable] returns its created_at-is-required error, with no
    statement issued and nothing else changed, exactly when no declared
    column is named [created_at].  When one is, the call issues the
    create-database statement and, once that is accepted, the create-table
    statement; both are IF NOT EXISTS statements that depend on the
    arguments only, so a repeated call issues them again; the call returns
    what the driver returned for the last statement issued, which is nil
    when the driver accepted both. *)
Theorem CreateTable_requires_created_at {D : Type} `{!Driver D}
    (c : ClickHouseClient) (database table order desc : string)
    (cols : list Column) (w : World D) :
  (hasCreatedAt cols = true ↔
   ∃ col, col ∈ cols ∧ col_Name col = "created_at") ∧
  if hasCreatedAt cols then
    ∃ r w',
      CreateTable c database table order desc cols w = (Ret r, w') ∧
      Forall if_not_exists (new_events w w') ∧
      ((∃ err, r = Some err ∧
               new_events w w' =
               [EvExec (create_database_stmt database) [] (Some err)]) ∨
       new_events w w' =
       [EvExec (create_database_stmt database) [] None;
        EvExec (create_table_stmt database table order desc cols) [] r]) ∧
      (r = None ↔ Forall (λ ev, event_error ev = None) (new_events w w') ∧
                  length (new_events w w') = 2%nat)
  else
    CreateTable c database table order desc cols w =
    (Ret (Some (Errorf ("created_at column is required for table " +:+
                        database +:+ "." +:+ table))), w).
Proof.
  split; [apply hasCreatedAt_spec|].
  unfold CreateTable. destruct (hasCreatedAt cols); simpl; [|done].
  destruct (two_statements c (create_database_stmt database)
              (create_table_stmt database table order desc cols) w)
    as (r & w' & Hrun & Hev).
  exists r, w'. split; [done|].
  assert (Hq1 : ∀ res, if_not_exists
            (EvExec (create_database_stmt database) [] res)).
  { intros res. split; [done|]. left. apply prefix_app. }
  assert (Hq2 : ∀ res, if_not_exists
            (EvExec (create_table_stmt database table order desc cols) [] res)).
  { intros res. split; [done|]. right.
    unfold create_table_stmt. repeat apply prefix_app_l.
    apply write_columns_prefix, prefix_app. }
  destruct Hev as [(err & -> & Hev)|Hev]; rewrite Hev.
  - split; [|split; [eauto|]].
    + apply Forall_cons. split; [apply Hq1|constructor].
    + split; [done|]. by intros [_ ?].
  - split; [|split; [eauto|]].
    + apply Forall_cons. split; [apply Hq1|].
      apply Forall_cons. split; [apply Hq2|constructor].
    + split.
      * intros ->. split; [|done]. by repeat constructor.
      * intros [Hall _]. apply Forall_cons in Hall as [_ Hall].
        by apply Forall_cons in Hall as [Hr _].
Qed.

Lemma new_events_same {D : Type} (w : World D) : new_events w w = [].
Proof. unfold new_events. by rewrite drop_all. Qed.

(** C2, as stated, fails: for the table of the specification's own
    scenario (database [d], table [t], cluster [c]) the statements go out
    [ON CLUSTER bms_cluster], not [ON CLUSTER c]. *)
Lemma cluster_of_spec_is_ignored :
  ¬ emits_on_cluster_of_spec Sample.table_spec.
Proof.
  intros H.
  destruct (H Scripted.State Scripted.driver (mkClient 1000)
              (Scripted.world [] [])) as [H1 _].
  vm_compute in H1. apply Forall_cons in H1 as [H1 _]. discriminate H1.
Qed.

(** On a store that honours IF NOT EXISTS, a call with a [created_at]
    column succeeds, and so does the same call again, which leaves the
    store as the first call left it. *)
Lemma CreateTable_twice (c : ClickHouseClient)
    (database table order desc : string) (cols : list Column)
    (w : World Store.State) :
  hasCreatedAt cols = true →
  ∃ w1 w2,
    CreateTable c database table order desc cols w = (Ret None, w1) ∧
    CreateTable c database table order desc cols w1 = (Ret None, w2) ∧
    drv w2 = drv w1.
Proof.
  intros Hcols. unfold CreateTable. rewrite Hcols. cbn [negb].
  assert (Hq1 : ∀ s, Store.exec (create_database_stmt database) s
                     = (None, {[create_database_stmt database]} ∪ s)).
  { intros s. unfold Store.exec, create_database_stmt.
    by rewrite prefix_app. }
  assert (Hq2 : ∀ s,
    Store.exec (create_table_stmt database table order desc cols) s
    = (None, {[create_table_stmt database table order desc cols]} ∪ s)).
  { intros s. unfold Store.exec.
    assert (String.prefix "CREATE TABLE IF NOT EXISTS "
              (create_table_stmt database table order desc cols) = true)
      as ->; [|by rewrite orb_true_r].
    unfold create_table_stmt. repeat apply prefix_app_l.
    apply write_columns_prefix, prefix_app. }
  assert (Hrun : ∀ w0 : World Store.State,
    (err <- Exec c (create_database_stmt database) [] ;;
     match err with
     | Some err => ret (Some err)
     | None => Exec c (create_table_stmt database table order desc cols) []
     end) w0
    = (Ret None,
       mkWorld ({[create_table_stmt database table order desc cols]} ∪
                ({[create_database_stmt database]} ∪ drv w0))
         ((log w0 ++ [EvExec (create_database_stmt database) [] None]) ++
          [EvExec (create_table_stmt database table order desc cols) [] None])
         (CKCONN w0))).
  { intros w0. unfold bind, Exec. rewrite call_run. cbn [conn_Exec Store.driver].
    rewrite Hq1. cbn [fst snd]. rewrite call_run.
    cbn [conn_Exec Store.driver drv]. by rewrite Hq2. }
  eexists _, _. split; [apply Hrun|]. split; [apply Hrun|].
  cbn [drv]. set_solver.
Qed.

(** ** The constructor *)

Lemma NewClickHouseClient_cases {D : Type} `{!Driver D}
    (config : Config) (w : World D) :
  (∃ err d1,
     clickhouse_Open (conn_options config) (drv w) = (Some err, d1) ∧
     NewClickHouseClient config w =
     (Ret (inr (Errorf_w "failed to connect to ClickHouse" err)),
      mkWorld d1 (log w ++ [EvOpen (conn_options config) (Some err)])
        (CKCONN w))) ∨
  (∃ err d1 d2,
     clickhouse_Open (conn_options config) (drv w) = (None, d1) ∧
     conn_Ping d1 = (Some err, d2) ∧
     NewClickHouseClient config w =
     (Ret (inr (Errorf_w "failed to ping ClickHouse" err)),
      mkWorld d2 ((log w ++ [EvOpen (conn_options config) None]) ++
                  [EvPing (Some err)]) (CKCONN w))) ∨
  (∃ d1 d2,
     clickhouse_Open (conn_options config) (drv w) = (None, d1) ∧
     conn_Ping d1 = (None, d2) ∧
     NewClickHouseClient config w =
     (Ret (inl (mkClient (if BatchSize config <=? 0 then 1000
                          else BatchSize config))),
      mkWorld (clickhouse_OpenDB (db_options config) d2)
        (((log w ++ [EvOpen (conn_options config) None]) ++ [EvPing None]) ++
         [EvOpenDB (db_options config)])
        (mkClient (if BatchSize config <=? 0 then 1000
                   else BatchSize config)))).
Proof.
  remember (NewClickHouseClient config w) as run eqn:Hrun.
  unfold NewClickHouseClient in Hrun.
  fold (conn_options config) in Hrun. fold (db_options config) in Hrun.
  unfold bind at 1 in Hrun. rewrite call_run in Hrun.
  destruct (clickhouse_Open (conn_options config) (drv w)) as [[err|] d1]
    eqn:Hopen; cbn [fst snd] in Hrun.
  { left. exists err, d1. by subst run. }
  right. unfold bind at 1 in Hrun. rewrite call_run in Hrun.
  cbn [drv log CKCONN] in Hrun.
  destruct (conn_Ping d1) as [[err|] d2] eqn:Hping; cbn [fst snd] in Hrun.
  { left. exists err, d1, d2. by subst run. }
  right. unfold bind at 1 in Hrun. rewrite call_run in Hrun.
  cbn [fst snd drv log CKCONN] in Hrun.
  exists d1, d2. by subst run.
Qed.

(** C10.  The constructor has no error for the batch size: it returns a
    client unless the driver fails to open or to ping, whatever
    [BatchSize] is; the client's batch size is [BatchSize] when that is
    positive and 1000 otherwise, hence positive, and with it the loop of an
    ingestion call over [n] records ends within [n] rounds. *)
Theorem NewClickHouseClient_batch_size {D : Type} `{!Driver D}
    (config : Config) (w : World D) :
  ∃ r w',
    NewClickHouseClient config w = (Ret r, w') ∧
    match r with
    | inl client =>
        batchSize client =
          (if BatchSize config <=? 0 then 1000 else BatchSize config) ∧
        0 < batchSize client ∧
        CKCONN w' = client ∧
        Forall (λ ev, event_error ev = None) (new_events w w') ∧
        ∀ tableName data fuel (w1 : World D),
          (∀ e xs, data = VSlice e xs →
             counter_in_range (Z.of_nat (length xs)) (batchSize client) ∧
             (length xs ≤ fuel)%nat) →
          fst (BatchInsert fuel client tableName data w1) ≠ OutOfFuel
    | inr e =>
        ∃ err ev,
          last (new_events w w') = Some ev ∧
          event_error ev = Some err ∧
          (e = Errorf_w "failed to connect to ClickHouse" err ∨
           e = Errorf_w "failed to ping ClickHouse" err)
    end ∧
    ∀ b, is_client (fst (NewClickHouseClient (with_batch_size config b) w))
         = is_client (Ret r).
Proof.
  destruct (NewClickHouseClient_cases config w)
    as [(err & d1 & Hopen & Hrun)|[(err & d1 & d2 & Hopen & Hping & Hrun)
       |(d1 & d2 & Hopen & Hping & Hrun)]];
    rewrite Hrun; eexists _, _; (split; [done|]); split.
  - exists err, (EvOpen (conn_options config) (Some err)).
    erewrite new_events_app by done. eauto.
  - intros b.
    destruct (NewClickHouseClient_cases (with_batch_size config b) w)
      as [(? & ? & ? & ->)|[(? & ? & ? & ? & ? & ->)|(? & ? & Hopen' & _)]];
      try done.
    change (conn_options (with_batch_size config b))
      with (conn_options config) in Hopen'. congruence.
  - exists err, (EvPing (Some err)).
    erewrite new_events_app; [|simpl; by rewrite <- app_assoc].
    rewrite last_snoc. eauto.
  - intros b.
    destruct (NewClickHouseClient_cases (with_batch_size config b) w)
      as [(? & ? & ? & ->)|[(? & ? & ? & ? & ? & ->)
         |(? & ? & Hopen' & Hping' & _)]]; try done.
    change (conn_options (with_batch_size config b))
      with (conn_options config) in Hopen'. congruence.
  - simpl.
    assert (Hpos : 0 < (if BatchSize config <=? 0 then 1000
                        else BatchSize config))
      by (destruct (Z.leb_spec (BatchSize config) 0); lia).
    split; [done|]. split; [done|]. split; [done|]. split.
    + erewrite new_events_app; [|simpl; by rewrite <- !app_assoc].
      by repeat constructor.
    + intros tableName data fuel w1 Hdata. by apply BatchInsert_enough_fuel.
  - intros b.
    destruct (NewClickHouseClient_cases (with_batch_size config b) w)
      as [(? & ? & Hopen' & _)|[(? & ? & ? & Hopen' & Hping' & _)
         |(? & ? & ? & ? & ->)]]; try done;
      change (conn_options (with_batch_size config b))
        with (conn_options config) in Hopen'; congruence.
Qed.

(** ** Result mapping *)

Lemma GoType_ind' (P : GoType → Prop) :
  (∀ k, P (TBasic k)) →
  (∀ n e, P e → P (TArray n e)) →
  (∀ e, P e → P (TSlice e)) →
  (∀ e, P e → P (TPtr e)) →
  (∀ fs, Forall (λ ft, P (snd ft)) fs → P (TStruct fs)) →
  ∀ t, P t.
Proof.
  intros Hb Ha Hs Hp Hst. fix IH 1. intros [k|n e|e|e|fs].
  - apply Hb.
  - apply Ha, IH.
  - apply Hs, IH.
  - apply Hp, IH.
  - apply Hst. induction fs as [|ft fs IHfs]; constructor; [apply IH|exact IHfs].
Qed.

Lemma TypeOf_zero t : TypeOf (zero t) = t.
Proof.
  induction t as [k|n e IH|e IH|e IH|fs IH] using GoType_ind'; simpl;
    try done.
  - by rewrite length_replicate.
  - f_equal. rewrite map_map. simpl.
    induction IH as [|[f t] fs Ht _ IHfs]; simpl; [done|].
    simpl in Ht. by rewrite Ht, IHfs.
Qed.

Lemma find_field_spec fields col :
  ∀ i k, find_field fields i col = Some k →
    ∃ j f, k = (i + j)%nat ∧ fields !! j = Some f ∧
           IsExported f = true ∧ getColumnName f = col.
Proof.
  induction fields as [|f fields IH]; intros i k; simpl; [done|].
  destruct (IsExported f) eqn:Hexp; simpl.
  - destruct (String.eqb_spec (getColumnName f) col) as [Heq|Hne].
    + intros [= <-]. exists 0%nat, f. split; [lia|]. done.
    + intros H. apply IH in H as (j & f' & -> & Hj & Hf).
      exists (S j), f'. split; [lia|]. done.
  - intros H. apply IH in H as (j & f' & -> & Hj & Hf).
    exists (S j), f'. split; [lia|]. done.
Qed.

Lemma find_field_none fields col :
  ∀ i, find_field fields i col = None →
    ∀ f, f ∈ fields → IsExported f = true → getColumnName f ≠ col.
Proof.
  induction fields as [|f fields IH]; intros i Hnone g Hin Hexp.
  { by apply elem_of_nil in Hin. }
  simpl in Hnone. apply elem_of_cons in Hin as [->|Hin].
  - rewrite Hexp in Hnone. simpl in Hnone.
    by destruct (String.eqb_spec (getColumnName f) col).
  - destruct (IsExported f); simpl in Hnone; [|by eapply IH].
    destruct (String.eqb (getColumnName f) col); [done|by eapply IH].
Qed.

(** The cell of a column that resolves to no field is bound to nothing:
    the bound cells are those of the row without it. *)
Lemma bound_cell_unmatched fields cols1 col cols2 cell row2 k :
  find_field fields 0 col = None →
  ∀ row1, length cols1 = length row1 →
    bound_cell fields (cols1 ++ col :: cols2) (row1 ++ cell :: row2) k =
    bound_cell fields (cols1 ++ cols2) (row1 ++ row2) k.
Proof.
  intros Hnone. induction cols1 as [|c1 cols1 IH]; intros [|x row1] Hlen;
    try discriminate; simpl.
  - rewrite Hnone. destruct (bound_cell fields cols2 row2 k); [done|].
    by destruct (decide (None = Some k)).
  - rewrite IH by (simpl in Hlen; lia). done.
Qed.

Section result_mapping.
Context {D : Type} `{!Driver D}.

Lemma scan_dest_targets tfs columns :
  scan_dest (zero (TStruct tfs)) columns = Ret (map (target_of tfs) columns).
Proof.
  induction columns as [|col columns IH]; [done|].
  cbn [scan_dest map]. rewrite IH.
  unfold findStructField. cbn [zero TypeOf Type_Fields obind].
  rewrite !map_map. cbn [fst snd].
  change (map (λ x : StructField * GoType, x.1) tfs) with (map fst tfs).
  unfold target_of.
  destruct (find_field (map fst tfs) 0 col) as [k|] eqn:Hfind; [|done].
  apply find_field_spec in Hfind as (j & f & -> & Hj & _). simpl in *.
  rewrite list_lookup_fmap in Hj.
  destruct (tfs !! j) as [[f' t]|] eqn:Htfs; [|done].
  unfold Value_Field. rewrite list_lookup_fmap, Htfs. simpl.
  by rewrite TypeOf_zero.
Qed.

Lemma scan_cells_bound tfs allcols columns :
  ∀ row i fields fields',
    map fst fields = map fst tfs →
    scan_cells (map (target_of tfs) columns) row i allcols fields
      = (fields', None) →
    map fst fields' = map fst tfs ∧
    ∀ k f t, tfs !! k = Some (f, t) →
      ∃ v0 v, fields !! k = Some (f, v0) ∧ fields' !! k = Some (f, v) ∧
              match bound_cell (map fst tfs) columns row k with
              | None => v = v0
              | Some cell => sql_convertAssign t cell = inl v
              end.
Proof.
  assert (Hlook : ∀ (fields : list (StructField * Value)) k f t,
    map fst fields = map fst tfs → tfs !! k = Some (f, t) →
    ∃ v0, fields !! k = Some (f, v0)).
  { intros fields k f t Hfst Hk.
    assert (map fst fields !! k = Some f) as Hf
      by (by rewrite Hfst, list_lookup_fmap, Hk).
    rewrite list_lookup_fmap in Hf.
    destruct (fields !! k) as [[f' v0]|]; [|done].
    injection Hf as ->. eauto. }
  induction columns as [|col columns IH]; intros row i fields fields' Hfst.
  { simpl. intros [= <-]. split; [done|]. intros k f t Hk.
    destruct (Hlook fields k f t Hfst Hk) as [v0 Hv0]. eauto. }
  destruct row as [|cell row].
  { simpl. intros [= <-]. split; [done|]. intros k f t Hk.
    destruct (Hlook fields k f t Hfst Hk) as [v0 Hv0]. eauto. }
  cbn [map scan_cells bound_cell]. unfold target_of at 1.
  destruct (find_field (map fst tfs) 0 col) as [i0|] eqn:Hfind.
  2:{ intros Hrun. destruct (IH _ _ _ _ Hfst Hrun) as [Hfst' Hall].
      split; [done|]. intros k f t Hk.
      destruct (Hall k f t Hk) as (v0 & v & Hv0 & Hv & Hb).
      exists v0, v. split; [done|]. split; [done|].
      destruct (bound_cell _ columns row k); [done|].
      by destruct (decide (None = Some k)). }
  destruct (tfs !! i0) as [[f0 t0]|] eqn:Hi0.
  2:{ intros Hrun. destruct (IH _ _ _ _ Hfst Hrun) as [Hfst' Hall].
      split; [done|]. intros k f t Hk.
      destruct (Hall k f t Hk) as (v0 & v & Hv0 & Hv & Hb).
      exists v0, v. split; [done|]. split; [done|].
      destruct (bound_cell _ columns row k); [done|].
      destruct (decide (Some i0 = Some k)) as [[= ->]|]; [congruence|done]. }
  cbn [snd].
  destruct (Hlook fields i0 f0 t0 Hfst Hi0) as [v00 Hv00]. rewrite Hv00.
  destruct (sql_convertAssign t0 cell) as [v1|err] eqn:Hconv; [|done].
  cbn [fst]. intros Hrun.
  assert (Hfst1 : map fst (<[i0 := (f0, v1)]> fields) = map fst tfs).
  { rewrite list_fmap_insert. cbn [fst].
    change (<[i0:=f0]> (map fst fields) = map fst tfs). rewrite Hfst.
    apply list_insert_id. by rewrite list_lookup_fmap, Hi0. }
  destruct (IH _ _ _ _ Hfst1 Hrun) as [Hfst' Hall].
  split; [done|]. intros k f t Hk.
  destruct (Hall k f t Hk) as (v0 & v & Hv0 & Hv & Hb).
  destruct (Hlook fields k f t Hfst Hk) as [v0' Hv0'].
  exists v0', v. split; [done|]. split; [done|].
  destruct (bound_cell _ columns row k); [done|]. subst v.
  destruct (decide (Some i0 = Some k)) as [[= ->]|Hne].
  - rewrite list_lookup_insert_eq in Hv0 by (by eapply lookup_lt_Some).
    injection Hv0 as <-. congruence.
  - rewrite list_lookup_insert_ne in Hv0 by congruence. congruence.
Qed.

Lemma scan_cells_failed tfs allcols columns :
  ∀ row i fields fields' e,
    map fst fields = map fst tfs →
    scan_cells (map (target_of tfs) columns) row i allcols fields
      = (fields', Some e) →
    ∃ j col cell k f t cause,
      columns !! j = Some col ∧ row !! j = Some cell ∧
      find_field (map fst tfs) 0 col = Some k ∧
      tfs !! k = Some (f, t) ∧
      sql_convertAssign t cell = inr cause ∧
      Unwrap e = Some cause.
Proof.
  assert (Hshift : ∀ (col0 : string) (cell0 : Scalar) columns row e,
    (∃ j col cell k f t cause,
      columns !! j = Some col ∧ row !! j = Some cell ∧
      find_field (map fst tfs) 0 col = Some k ∧ tfs !! k = Some (f, t) ∧
      sql_convertAssign t cell = inr cause ∧ Unwrap e = Some cause) →
    ∃ j col cell k f t cause,
      (col0 :: columns) !! j = Some col ∧ (cell0 :: row) !! j = Some cell ∧
      find_field (map fst tfs) 0 col = Some k ∧ tfs !! k = Some (f, t) ∧
      sql_convertAssign t cell = inr cause ∧ Unwrap e = Some cause).
  { intros col0 cell0 cs rw e (j & col & cell & k & f & t & cause & H).
    exists (S j), col, cell, k, f, t, cause. exact H. }
  induction columns as [|col columns IH]; intros row i fields fields' e Hfst;
    [done|].
  destruct row as [|cell row]; [done|].
  cbn [map scan_cells]. unfold target_of at 1.
  destruct (find_field (map fst tfs) 0 col) as [i0|] eqn:Hfind.
  2:{ intros Hrun. apply Hshift. by eapply IH. }
  destruct (tfs !! i0) as [[f0 t0]|] eqn:Hi0.
  2:{ intros Hrun. apply Hshift. by eapply IH. }
  cbn [snd].
  destruct (fields !! i0) as [fv|] eqn:Hfv.
  2:{ intros Hrun. apply Hshift. by eapply IH. }
  destruct (sql_convertAssign t0 cell) as [v1|err] eqn:Hconv.
  - intros Hrun. apply Hshift. eapply IH; [|exact Hrun].
    rewrite list_fmap_insert. cbn [fst].
    change (<[i0:=fv.1]> (map fst fields) = map fst tfs).
    rewrite list_insert_id; [done|]. by rewrite list_lookup_fmap, Hfv.
  - intros [= <- <-].
    exists 0%nat, col, cell, i0, f0, t0, err. done.
Qed.

Lemma scan_row_cases isPtr tfs columns row :
  (∃ rec, scan_row isPtr (TStruct tfs) columns row = Ret (inl rec) ∧
          binds isPtr tfs columns row rec) ∨
  (∃ e, scan_row isPtr (TStruct tfs) columns row = Ret (inr e) ∧
        bind_failure tfs columns row e).
Proof.
  unfold scan_row. rewrite scan_dest_targets. cbn [obind zero].
  set (fields0 := map (λ ft : StructField * GoType, (ft.1, zero ft.2)) tfs).
  assert (Hfst0 : map fst fields0 = map fst tfs).
  { unfold fields0. by rewrite map_map. }
  unfold rows_Scan. rewrite length_map.
  destruct (Nat.eqb_spec (length columns) (length row)) as [Hlen|Hlen];
    cbn [negb].
  2:{ right. eexists. split; [done|]. left. congruence. }
  destruct (scan_cells _ row 0 columns fields0) as [fields' [e|]] eqn:Hscan.
  - right. exists e. split; [done|]. right.
    by eapply scan_cells_failed.
  - left. eexists. split; [done|].
    destruct (scan_cells_bound _ _ _ _ _ _ _ Hfst0 Hscan) as [Hfst' Hall].
    exists fields'. split; [done|]. split; [done|].
    intros k f t Hk. destruct (Hall k f t Hk) as (v0 & v & Hv0 & Hv & Hb).
    exists v. split; [done|].
    destruct (bound_cell _ columns row k); [done|]. subst v.
    unfold fields0 in Hv0. rewrite list_lookup_fmap, Hk in Hv0.
    by injection Hv0 as <-.
Qed.

Lemma rows_loop_spec isPtr tfs columns rows :
  ∀ sliceValue,
    ∃ bound err,
      rows_loop isPtr (TStruct tfs) columns rows sliceValue
        = Ret (sliceValue ++ bound, err) ∧
      Forall2 (binds isPtr tfs columns) (take (length bound) rows) bound ∧
      match err with
      | None => length bound = length rows
      | Some e =>
          ∃ row, rows !! length bound = Some row ∧
                 scan_row isPtr (TStruct tfs) columns row = Ret (inr e) ∧
                 bind_failure tfs columns row e
      end.
Proof.
  induction rows as [|row rows IH]; intros sliceValue; simpl.
  { exists [], None. rewrite app_nil_r. split; [done|]. split; [constructor|done]. }
  destruct (scan_row_cases isPtr tfs columns row)
    as [(rec & Hrow & Hbinds)|(e & Hrow & Hfail)]; rewrite Hrow; simpl.
  - destruct (IH (sliceValue ++ [rec])) as (bound & err & -> & Hall & Herr).
    exists (rec :: bound), err. rewrite <- app_assoc. split; [done|].
    split; [simpl; by constructor|]. destruct err as [e|]; simpl; [|lia].
    done.
  - exists [], (Some e). rewrite app_nil_r. split; [done|].
    split; [constructor|]. exists row. done.
Qed.

End result_mapping.

(** C9.  When the query and [rows.Columns()] succeed, [QueryToStruct]
    appends to the destination, in arrival order, one record per row bound:
    in each, a field holds the converted cell of the (last) result column
    whose name resolves to it, a column resolves to the first exported
    field with that column name, the cell of a column that resolves to no
    field is dropped (the record is that of the row without it, and it
    cannot make the bind fail), and fields no column resolves to keep their
    zero value.
    The first row that fails to bind ends the call with the scan error; the
    records bound before it stay in the destination, after those it held
    already.  With every row bound the call returns [rows.Err()]. *)
Theorem QueryToStruct_partial_results {D : Type} `{!Driver D}
    (c : ClickHouseClient) (pt : GoType) (tfs : list (StructField * GoType))
    (isPtr : bool) (old : list Value) (query : string) (args : list Wire)
    (rows : Rows) (columns : list string) (w : World D) (d' : D) :
  db_QueryContext query args (drv w) = (inl rows, d') →
  rows_Columns rows = inl columns →
  ∃ bound err w',
    QueryToStruct c
      (VPtr pt (Some (VSlice (if isPtr then TPtr (TStruct tfs)
                              else TStruct tfs) old)))
      query args w
    = (Ret (VPtr pt (Some (VSlice (if isPtr then TPtr (TStruct tfs)
                                   else TStruct tfs) (old ++ bound))),
            err), w') ∧
    Forall2 (binds isPtr tfs columns)
      (take (length bound) (rows_data rows)) bound ∧
    match err with
    | None => length bound = length (rows_data rows) ∧ rows_Err rows = None
    | Some e =>
        (length bound = length (rows_data rows) ∧ rows_Err rows = Some e) ∨
        ∃ row, rows_data rows !! length bound = Some row ∧
               scan_row isPtr (TStruct tfs) columns row = Ret (inr e) ∧
               bind_failure tfs columns row e
    end ∧
    (∀ col k, find_field (map fst tfs) 0 col = Some k →
       ∃ f, map fst tfs !! k = Some f ∧ IsExported f = true ∧
            getColumnName f = col) ∧
    (∀ col, find_field (map fst tfs) 0 col = None →
       (∀ f, f ∈ map fst tfs → IsExported f = true →
             getColumnName f ≠ col) ∧
       ∀ cols1 cols2 row1 cell row2 k, length cols1 = length row1 →
         bound_cell (map fst tfs) (cols1 ++ col :: cols2)
           (row1 ++ cell :: row2) k =
         bound_cell (map fst tfs) (cols1 ++ cols2) (row1 ++ row2) k).
Proof.
  intros Hquery Hcols.
  destruct (rows_loop_spec isPtr tfs columns (rows_data rows) old)
    as (bound & lerr & Hloop & Hall & Herr).
  exists bound, (match lerr with Some e => Some e | None => rows_Err rows end).
  assert (Hrun : ∃ w',
    QueryToStruct c
      (VPtr pt (Some (VSlice (if isPtr then TPtr (TStruct tfs)
                              else TStruct tfs) old)))
      query args w
    = (Ret (VPtr pt (Some (VSlice (if isPtr then TPtr (TStruct tfs)
                                   else TStruct tfs) (old ++ bound))),
            match lerr with Some e => Some e | None => rows_Err rows end),
       w')).
  { unfold QueryToStruct.
    assert (Hptr : bool_decide (Type_Kind (if isPtr then TPtr (TStruct tfs)
                                           else TStruct tfs) = Pointer)
                   = isPtr) by (by destruct isPtr).
    rewrite Hptr.
    assert (Helem : (if isPtr then Type_Elem (if isPtr then TPtr (TStruct tfs)
                                              else TStruct tfs)
                     else Ret (if isPtr then TPtr (TStruct tfs)
                               else TStruct tfs)) = Ret (TStruct tfs))
      by (by destruct isPtr).
    rewrite Helem. unfold bind at 1, lift at 1.
    destruct (decide (Type_Kind (TStruct tfs) ≠ Struct)) as [Hne|_]; [done|].
    unfold bind at 1, Query. rewrite call_run, Hquery. cbn [fst snd].
    rewrite Hcols. unfold bind at 1, lift at 1. rewrite Hloop.
    unfold bind at 1, rows_Close, ret. cbn [fst snd]. eauto. }
  destruct Hrun as [w' Hrun]. exists w'. split; [done|]. split; [done|].
  split; [|split].
  - destruct lerr as [e|]; [by right|].
    destruct (rows_Err rows) as [e|]; [by left|done].
  - intros col k Hfind.
    apply find_field_spec in Hfind as (j & f & -> & Hj & Hexp & Hname).
    exists f. done.
  - intros col Hnone. split; [by eapply find_field_none|].
    intros cols1 cols2 row1 cell row2 k Hlen.
    by apply bound_cell_unmatched.
Qed.

Lemma QueryToStruct_partial_results_witness :
  ∃ bound err w',
    QueryToStruct (mkClient 1000)
      (VPtr (TSlice (TStruct Sample.UserT))
         (Some (VSlice (TStruct Sample.UserT) [])))
      "SELECT id, name, extra_unmapped FROM users" []
      (Scripted.world [] [Sample.user_rows])
    = (Ret (VPtr (TSlice (TStruct Sample.UserT))
              (Some (VSlice (TStruct Sample.UserT) ([] ++ bound))), err),
       w') ∧
    Forall2 (binds (D := Scripted.State) false Sample.UserT ["id"; "name"; "extra_unmapped"])
      (take (length bound) (rows_data Sample.user_rows)) bound ∧
    match err with
    | None => length bound = length (rows_data Sample.user_rows) ∧
              rows_Err Sample.user_rows = None
    | Some e =>
        (length bound = length (rows_data Sample.user_rows) ∧
         rows_Err Sample.user_rows = Some e) ∨
        ∃ row, rows_data Sample.user_rows !! length bound = Some row ∧
               scan_row (D := Scripted.State) false (TStruct Sample.UserT)
                 ["id"; "name"; "extra_unmapped"] row = Ret (inr e) ∧
               bind_failure (D := Scripted.State) Sample.UserT ["id"; "name"; "extra_unmapped"]
                 row e
    end ∧
    (∀ col k, find_field (map fst Sample.UserT) 0 col = Some k →
       ∃ f, map fst Sample.UserT !! k = Some f ∧ IsExported f = true ∧
            getColumnName f = col) ∧
    (∀ col, find_field (map fst Sample.UserT) 0 col = None →
       (∀ f, f ∈ map fst Sample.UserT → IsExported f = true →
             getColumnName f ≠ col) ∧
       ∀ cols1 cols2 row1 cell row2 k, length cols1 = length row1 →
         bound_cell (map fst Sample.UserT) (cols1 ++ col :: cols2)
           (row1 ++ cell :: row2) k =
         bound_cell (map fst Sample.UserT) (cols1 ++ cols2) (row1 ++ row2) k).
Proof.
  apply (QueryToStruct_partial_results (mkClient 1000)
           (TSlice (TStruct Sample.UserT)) Sample.UserT false []
           "SELECT id, name, extra_unmapped FROM users" []
           Sample.user_rows ["id"; "name"; "extra_unmapped"]
           (Scripted.world [] [Sample.user_rows])
           (Scripted.mkState [] 0%nat [])).
  - reflexivity.
  - reflexivity.
Defined.

(** The scenario of the specification: five rows, the third does not scan;
    two records are left in the destination and the scan error is
    returned. *)
Example QueryToStruct_third_row_fails :
  fst (QueryToStruct (mkClient 1000)
         (VPtr (TSlice (TStruct Sample.UserT))
            (Some (VSlice (TStruct Sample.UserT) [])))
         "SELECT id, name, extra_unmapped FROM users" []
         (Scripted.world [] [Sample.user_rows]))
  = Ret (VPtr (TSlice (TStruct Sample.UserT))
           (Some (VSlice (TStruct Sample.UserT)
              [ VStruct [ (Sample.exported "ID" [("db", "id")],
                           VBasic Int64 (SInt 1));
                          (Sample.exported "Name" [("json", "name")],
                           VBasic String_ (SString "a")) ];
                VStruct [ (Sample.exported "ID" [("db", "id")],
                           VBasic Int64 (SInt 2));
                          (Sample.exported "Name" [("json", "name")],
                           VBasic String_ (SString "b")) ] ])),
         Some (mkError
                 ("sql: Scan error on column index 0, name " +:+ dquote +:+
                  "id" +:+ dquote +:+
                  ": unsupported Scan, storing driver.Value into type")
                 (Some (Errorf
                    "unsupported Scan, storing driver.Value into type")))).
Proof. vm_compute. reflexivity. Qed.

(** ** The scenarios of the specification *)

(** A record type that uses the three resolution rules at once, with a
    skipped and an unexported field. *)
Example columns_of_event :
  analyzeStructure (Sample.event 1 "n" [])
  = Ret (["id"; "name"; "age"; "tags"; "note"], None).
Proof. reflexivity. Qed.

(** 2500 records with the default batch size: three chunks of 1000, 1000
    and 500 records. *)
Example ingest_2500_records :
  let run := BatchInsert 3 (mkClient 1000) "events"
               (VSlice Sample.RowT (Sample.rows 2500)) (Scripted.world [] []) in
  fst run = Ret None ∧
  Sample.kinds (log (snd run)) =
    ["P"] ++ replicate 1000 "A" ++ ["S"; "P"] ++ replicate 1000 "A" ++
    ["S"; "P"] ++ replicate 500 "A" ++ ["S"].
Proof. vm_compute. split; reflexivity. Qed.

(** The same call when the send of the second chunk fails: the first chunk
    is sent, no third chunk is prepared, and the error names the records of
    the second chunk by their first and last index. *)
Example ingest_2500_second_send_fails :
  let run := BatchInsert 3 (mkClient 1000) "events"
               (VSlice Sample.RowT (Sample.rows 2500))
               (Scripted.world (replicate 2003 None ++ [Some (Errorf "boom")])
                  []) in
  fst run = Ret (Some (mkError "failed to send batch 1000-1999: boom"
                         (Some (Errorf "boom")))) ∧
  Sample.kinds (log (snd run)) =
    ["P"] ++ replicate 1000 "A" ++ ["S"; "P"] ++ replicate 1000 "A" ++ ["S"].
Proof. vm_compute. split; reflexivity. Qed.

(** The DDL scenario: columns id and created_at, ordering key id, database
    d, table t. *)
Example ddl_scenario :
  GoStrings.Contains
    (create_table_stmt "d" "t" "id" "events"
       [mkColumn "id" "UInt64"; mkColumn "created_at" "DateTime"])
    "PARTITION BY toYYYYMM(created_at)" = true ∧
  GoStrings.Contains
    (create_table_stmt "d" "t" "id" "events"
       [mkColumn "id" "UInt64"; mkColumn "created_at" "DateTime"])
    "ORDER BY (id, intHash64(created_at))" = true ∧
  create_database_stmt "d"
  = "CREATE DATABASE IF NOT EXISTS d ON CLUSTER bms_cluster".
Proof. vm_compute. repeat split; reflexivity. Qed.

(** * Further properties of the client *)


Lemma sapp_assoc (s1 s2 s3 : string) : (s1 +:+ s2) +:+ s3 = s1 +:+ s2 +:+ s3.
Proof.
  induction s1 as [|c s1 IH]; [done|].
  change (String c ((s1 +:+ s2) +:+ s3) = String c (s1 +:+ s2 +:+ s3)).
  by rewrite IH.
Qed.

Lemma sapp_nil_r (s : string) : s +:+ "" = s.
Proof.
  induction s as [|c s IH]; [done|].
  change (String c (s +:+ "") = String c s). by rewrite IH.
Qed.

Lemma write_columns_Join cols :
  ∀ i sb,
    write_columns cols i (i + Z.of_nat (length cols)) sb =
    sb +:+ GoStrings.Join (map column_decl cols) ("," +:+ nl).
Proof.
  induction cols as [|col rest IH]; intros i sb.
  - simpl. by rewrite sapp_nil_r.
  - destruct rest as [|c2 rest].
    + cbn [write_columns length map GoStrings.Join].
      replace (i <? i + Z.of_nat 1 - 1) with false by (symmetry; apply Z.ltb_ge; lia).
      unfold column_decl. by rewrite ?sapp_assoc.
    + change (write_columns (col :: c2 :: rest) i
                (i + Z.of_nat (length (col :: c2 :: rest))) sb)
        with (write_columns (c2 :: rest) (i + 1)
                (i + Z.of_nat (length (col :: c2 :: rest)))
                (if i <? i + Z.of_nat (length (col :: c2 :: rest)) - 1
                 then (sb +:+ "  " +:+ col_Name col +:+ " " +:+ col_Type col)
                      +:+ "," +:+ nl
                 else sb +:+ "  " +:+ col_Name col +:+ " " +:+ col_Type col)).
      replace (i <? i + Z.of_nat (length (col :: c2 :: rest)) - 1) with true
        by (symmetry; apply Z.ltb_lt; cbn [length]; lia).
      replace (i + Z.of_nat (length (col :: c2 :: rest)))
        with ((i + 1) + Z.of_nat (length (c2 :: rest))) by (cbn [length]; lia).
      rewrite IH. cbn [map GoStrings.Join]. unfold column_decl.
      by rewrite !sapp_assoc.
Qed.

(** X1.  The statement of [CreateTable] and that of [CreateDistributedTable]
    are their fixed clauses around the column list, which is the
    declarations ["  name type"] of the columns, in order, joined by a comma
    and a line break: one line per column and no separator after the last
    one. *)
Theorem ddl_statements_join_columns database table order desc cols :
  create_table_stmt database table order desc cols =
    ("CREATE TABLE IF NOT EXISTS " +:+ database +:+ "." +:+ table +:+
     " ON CLUSTER bms_cluster (" +:+ nl +:+
     GoStrings.Join (map column_decl cols) ("," +:+ nl) +:+ nl +:+ ")" +:+ nl +:+
     "ENGINE = ReplicatedMergeTree('/clickhouse/tables/" +:+
     database +:+ "/{shard}/" +:+ table +:+ "', '{replica}')" +:+ nl +:+
     "PARTITION BY toYYYYMM(created_at)" +:+ nl +:+
     "ORDER BY (" +:+ order +:+ ", intHash64(created_at))" +:+ nl +:+
     "SAMPLE BY intHash64(created_at)" +:+ nl +:+
     "SETTINGS index_granularity = 8192" +:+ nl +:+
     "COMMENT '" +:+ desc +:+ "';") ∧
  create_distributed_stmt database table desc cols =
    ("CREATE TABLE IF NOT EXISTS " +:+ database +:+ "." +:+
     (table +:+ "_distributed") +:+ " ON CLUSTER bms_cluster (" +:+ nl +:+
     GoStrings.Join (map column_decl cols) ("," +:+ nl) +:+ nl +:+ ")" +:+ nl +:+
     "ENGINE = Distributed('bms_cluster', '" +:+ database +:+
     "', '" +:+ table +:+ "')" +:+ nl +:+
     "COMMENT '" +:+ desc +:+ "';").
Proof.
  unfold create_table_stmt, create_distributed_stmt.
  pose proof (write_columns_Join cols 0) as HJ.
  rewrite Z.add_0_l in HJ. rewrite !HJ.
  split; by rewrite !sapp_assoc.
Qed.

(** X2.  [CreateDistributedTable] refuses an empty column list with the
    error "columns must be provided" before it calls the driver.  With a
    column it sends the create-database statement and, when that is
    accepted, the create-table statement of the distributed table, both with
    create-if-not-exists semantics; it returns the error of the statement
    that failed, or of none.  It asks for no [created_at] column. *)
Theorem CreateDistributedTable_requires_columns {D : Type} `{!Driver D}
    (c : ClickHouseClient) distDB localTable desc cols (w : World D) :
  match cols with
  | [] =>
      CreateDistributedTable c distDB localTable desc cols w =
      (Ret (Some (Errorf "columns must be provided")), w)
  | _ :: _ =>
      ∃ r w',
        CreateDistributedTable c distDB localTable desc cols w = (Ret r, w') ∧
        ((∃ err, r = Some err ∧
                 new_events w w' =
                 [EvExec (create_database_stmt distDB) [] (Some err)]) ∨
         new_events w w' =
         [EvExec (create_database_stmt distDB) [] None;
          EvExec (create_distributed_stmt distDB localTable desc cols) [] r]) ∧
        Forall if_not_exists (new_events w w')
  end.
Proof.
  destruct cols as [|col rest]; [done|].
  unfold CreateDistributedTable.
  replace (Z.of_nat (length (col :: rest)) =? 0) with false
    by (symmetry; apply Z.eqb_neq; cbn [length]; lia).
  destruct (two_statements c (create_database_stmt distDB)
              (create_distributed_stmt distDB localTable desc (col :: rest)) w)
    as (r & w' & Hrun & Hev).
  exists r, w'. split; [exact Hrun|]. split; [exact Hev|].
  assert (Hdb : String.prefix "CREATE DATABASE IF NOT EXISTS "
                  (create_database_stmt distDB) = true) by apply prefix_app.
  assert (Htb : String.prefix "CREATE TABLE IF NOT EXISTS "
                  (create_distributed_stmt distDB localTable desc (col :: rest))
                = true).
  { unfold create_distributed_stmt.
    repeat apply prefix_app_l. apply write_columns_prefix. apply prefix_app. }
  destruct Hev as [(err & -> & ->)| ->].
  - constructor; [split; [done|by left]|constructor].
  - constructor; [split; [done|by left]|].
    constructor; [split; [done|by right]|constructor].
Qed.

(** X4.  [BatchInsert] looks at its data before it calls the driver: a
    value that is not a slice is refused with "data must be a slice", an
    empty slice is accepted at once, and a slice whose first element is
    neither a struct nor a pointer to a struct is refused with the error of
    [analyzeStructure] wrapped; in all three cases nothing reaches the
    driver and the world is as it was. *)
Theorem BatchInsert_validates_before_any_call {D : Type} `{!Driver D} fuel
    (c : ClickHouseClient) tableName data (w : World D) :
  match data with
  | VSlice _ [] => BatchInsert fuel c tableName data w = (Ret None, w)
  | VSlice _ (first :: _) =>
      if not_a_record first then
        BatchInsert fuel c tableName data w =
        (Ret (Some (mkError
           "failed to analyze data structure: data must be struct or pointer to struct"
           (Some (Errorf "data must be struct or pointer to struct")))), w)
      else True
  | _ => BatchInsert fuel c tableName data w =
         (Ret (Some (Errorf "data must be a slice")), w)
  end.
Proof.
  destruct data as [ |k s|fs|e xs|e xs|e t]; try reflexivity.
  destruct xs as [|first rest]; [reflexivity|].
  destruct (not_a_record first) eqn:Hrec; [|exact I].
  unfold BatchInsert.
  replace (Z.of_nat (length (first :: rest)) =? 0) with false
    by (symmetry; apply Z.eqb_neq; cbn [length]; lia).
  unfold bind, lift, Value_Index. simpl.
  destruct first as [ |k s|fs|e' ys|e' ys|e' t]; simpl in Hrec;
    try discriminate; try reflexivity.
  - apply bool_decide_eq_true in Hrec as [Hs Hp].
    unfold analyzeStructure. simpl.
    destruct (decide (k = Pointer)); [done|]. simpl.
    destruct (decide (k ≠ Struct)); [reflexivity|done].
  - apply bool_decide_eq_true in Hrec.
    unfold analyzeStructure. simpl.
    destruct (decide (Type_Kind e' ≠ Struct)); [reflexivity|done].
Qed.

Lemma int_add_0_l z : min_int ≤ z ≤ max_int → int_add 0 z = z.
Proof. intros Hz. unfold int_add. rewrite Z.add_0_l. by apply wrap64_small. Qed.

Lemma analyzeStructure_pointer tfs target :
  analyzeStructure (VPtr (TStruct tfs) target) =
  Ret (type_columns (TStruct tfs), None).
Proof.
  unfold analyzeStructure, type_columns. cbn [TypeOf Type_Kind Type_Elem].
  destruct (decide (Pointer = Pointer)); [|done]. cbn [obind Type_Kind].
  destruct (decide (Struct ≠ Struct)); [done|]. cbn [Type_Fields obind].
  by rewrite analyze_fields_spec.
Qed.

Lemma extractValues_nil_pointer f ft tfs columns :
  ∃ msg, extractValues (VPtr (TStruct ((f, ft) :: tfs)) None) columns =
         Panic msg.
Proof.
  unfold extractValues. cbn [TypeOf Type_Kind Type_Elem Value_Elem].
  destruct (decide (Pointer = Pointer)); [|done].
  cbn [obind fst snd Type_Fields map extract_fields Value_Field]. eauto.
Qed.

(** X5.  A nil pointer to a struct with at least one field passes
    [analyzeStructure], which reads the type alone, but not
    [extractValues], which reads the fields.  [BatchInsert] over a slice that
    starts with such a pointer therefore panics once the first batch is
    prepared, with nothing appended or sent, unless preparing the batch
    fails first. *)
Theorem BatchInsert_nil_pointer_record_panics {D : Type} `{!Driver D} fuel
    (c : ClickHouseClient) tableName elemT f ft tfs rest (w : World D) :
  0 < batchSize c ≤ max_int →
  ∃ r w',
    analyzeStructure (VPtr (TStruct ((f, ft) :: tfs)) None) =
      Ret (type_columns (TStruct ((f, ft) :: tfs)), None) ∧
    BatchInsert (S fuel) c tableName
      (VSlice elemT (VPtr (TStruct ((f, ft) :: tfs)) None :: rest)) w =
    (r, w') ∧
    ((∃ err, r = Ret (Some (Errorf_w "failed to prepare batch" err)) ∧
             new_events w w' =
             [EvPrepareBatch
                (insert_sql tableName (type_columns (TStruct ((f, ft) :: tfs))))
                (inr err)]) ∨
     (∃ msg b, r = Panic msg ∧
               new_events w w' =
               [EvPrepareBatch
                  (insert_sql tableName
                     (type_columns (TStruct ((f, ft) :: tfs))))
                  (inl b)])).
Proof.
  intros HB.
  assert (Hcols : analyzeStructure (VPtr (TStruct ((f, ft) :: tfs)) None) =
                  Ret (type_columns (TStruct ((f, ft) :: tfs)), None)).
    by apply analyzeStructure_pointer.
  destruct (extractValues_nil_pointer f ft tfs
              (type_columns (TStruct ((f, ft) :: tfs)))) as [msg Hpanic].
  set (first := VPtr (TStruct ((f, ft) :: tfs)) None) in *.
  set (columns := type_columns (TStruct ((f, ft) :: tfs))) in *.
  unfold BatchInsert.
  replace (Z.of_nat (length (first :: rest)) =? 0)
    with false by (symmetry; apply Z.eqb_neq; cbn [length]; lia).
  unfold bind at 1, lift at 1, Value_Index. cbn [Z.ltb Z.compare].
  change ((first :: rest) !! Z.to_nat 0) with (Some first). cbv iota beta.
  unfold bind at 1, lift at 1. rewrite Hcols. cbn [fst snd].
  cbn [insert_loop].
  replace (0 <? Z.of_nat (length (first :: rest))) with true
    by (symmetry; apply Z.ltb_lt; cbn [length]; lia).
  cbn [negb]. rewrite int_add_0_l by (unfold min_int; lia).
  assert (∃ n, Z.to_nat
            ((if batchSize c >? Z.of_nat (length (first :: rest))
              then Z.of_nat (length (first :: rest)) else batchSize c) - 0) =
            S n) as [n ->].
  { exists (Z.to_nat
        ((if batchSize c >? Z.of_nat (length (first :: rest))
          then Z.of_nat (length (first :: rest)) else batchSize c) - 0) - 1)%nat.
    destruct (batchSize c >? _); cbn [length]; lia. }
  unfold prepareBatch, bind at 1. rewrite call_run.
  fold (insert_sql tableName columns).
  destruct (conn_PrepareBatch (insert_sql tableName columns) (drv w))
    as [[b|err] d1] eqn:Hprep; cbn [fst snd].
  - cbn [append_loop]. unfold bind at 2, lift at 1, Value_Index.
    cbn [Z.ltb Z.compare].
    change ((first :: rest) !! Z.to_nat 0) with (Some first). cbv iota beta.
    unfold bind at 2, lift at 1. rewrite Hpanic. unfold bind.
    eexists _, _. split; [done|]. split; [reflexivity|].
    right. exists msg, b. split; [done|]. by apply new_events_app.
  - eexists _, _. split; [done|]. split; [reflexivity|].
    left. exists err. split; [done|]. by apply new_events_app.
Qed.

Lemma BatchInsert_nil_pointer_record_panics_witness :
  ∃ r w',
    analyzeStructure
      (VPtr (TStruct [(Sample.exported "ID" [("db", "id")], TBasic Uint64)]) None) =
      Ret (type_columns
             (TStruct [(Sample.exported "ID" [("db", "id")], TBasic Uint64)]),
           None) ∧
    BatchInsert 1 (mkClient 10) "t"
      (VSlice (TPtr Sample.RowT)
         [VPtr (TStruct [(Sample.exported "ID" [("db", "id")], TBasic Uint64)])
            None])
      (Scripted.world [] []) = (r, w') ∧
    ((∃ err, r = Ret (Some (Errorf_w "failed to prepare batch" err)) ∧
             new_events (Scripted.world [] []) w' =
             [EvPrepareBatch
                (insert_sql "t"
                   (type_columns
                      (TStruct [(Sample.exported "ID" [("db", "id")],
                                 TBasic Uint64)])))
                (inr err)]) ∨
     (∃ msg b, r = Panic msg ∧
               new_events (Scripted.world [] []) w' =
               [EvPrepareBatch
                  (insert_sql "t"
                     (type_columns
                        (TStruct [(Sample.exported "ID" [("db", "id")],
                                   TBasic Uint64)])))
                  (inl b)])).
Proof.
  apply (BatchInsert_nil_pointer_record_panics (D := Scripted.State) 0
           (mkClient 10) "t" (TPtr Sample.RowT)
           (Sample.exported "ID" [("db", "id")]) (TBasic Uint64) [] []
           (Scripted.world [] [])).
  unfold max_int. simpl. lia.
Defined.

(** The loop of [extractValues] stops at the first field for which no
    column is left. *)
Lemma extract_fields_take columns suffix :
  ∀ prefix values k,
    forallb (λ fv, wf (snd fv)) suffix = true →
    ∃ ws,
      extract_fields (map fst suffix) (length prefix)
        (VStruct (prefix ++ suffix)) columns values k = Ret (values ++ ws) ∧
      Forall2 (λ fv w, convertValue (snd fv) = Ret w)
        (take (length columns - k) (included suffix)) ws.
Proof.
  induction suffix as [|fv suffix IH]; intros prefix values k Hwf; simpl.
  { exists []. rewrite app_nil_r. split; [done|]. rewrite take_nil. constructor. }
  simpl in Hwf. apply andb_true_iff in Hwf as [Hwf1 Hwf2].
  rewrite list_lookup_middle by done. simpl.
  assert (Hstep : prefix ++ fv :: suffix = (prefix ++ [fv]) ++ suffix)
    by (by rewrite <- app_assoc).
  assert (Hlen' : S (length prefix) = length (prefix ++ [fv]))
    by (rewrite length_app; simpl; lia).
  unfold included in *. simpl. unfold has_column at 1.
  destruct (IsExported (fst fv)); simpl in *.
  - destruct (String.eqb (getColumnName (fst fv)) "-"); simpl in *.
    + rewrite Hstep, Hlen'. by apply IH.
    + destruct (Nat.leb_spec (length columns) k) as [Hle|Hgt].
      * exists []. rewrite app_nil_r. split; [done|].
        replace (length columns - k)%nat with 0%nat by lia. constructor.
      * destruct (proj1 (convertValue_wf_total (snd fv)) Hwf1) as [w Hw].
        rewrite Hw. simpl. rewrite Hstep, Hlen'.
        destruct (IH (prefix ++ [fv]) (values ++ [w]) (S k) Hwf2)
          as (ws & -> & Hws).
        exists (w :: ws). rewrite <- app_assoc. split; [done|].
        replace (length columns - k)%nat with (S (length columns - S k)) by lia.
        by constructor.
  - rewrite Hstep, Hlen'. by apply IH.
Qed.

(** X6.  [extractValues] never yields more values than there are columns:
    for a record with well-formed fields the tuple is the conversions of its
    first [length columns] included fields, in order, so its length is the
    smaller of the two counts.  Fields beyond the column list are dropped
    without an error. *)
Theorem extractValues_truncates item fs columns :
  record_fields item = Some fs →
  forallb (λ fv, wf (snd fv)) fs = true →
  ∃ values,
    extractValues item columns = Ret (values, None) ∧
    Forall2 (λ fv w, convertValue (snd fv) = Ret w)
      (take (length columns) (included fs)) values ∧
    length values = (length columns `min` length (included fs))%nat.
Proof.
  intros Hrec Hwf.
  destruct (extract_fields_take columns fs [] [] 0%nat Hwf) as (ws & Hws & Hall).
  simpl in Hws. rewrite Nat.sub_0_r in Hall.
  exists ws. split; [|split; [done|]].
  - destruct item as [ |k s|fs'|e xs|e xs|e [x|]]; simpl in Hrec; try discriminate.
    + injection Hrec as ->. unfold extractValues; simpl.
      rewrite map_map.
      change (map _ fs) with (map fst fs). by rewrite Hws.
    + destruct e as [ | | | |tfs]; try discriminate.
      destruct x as [ | |fs'| | | ]; try discriminate.
      destruct (decide (map fst tfs = map fst fs')) as [Heq|]; [|discriminate].
      injection Hrec as ->. unfold extractValues; simpl.
      rewrite Heq. by rewrite Hws.
    + destruct e; discriminate.
  - apply Forall2_length in Hall. rewrite <- Hall, length_take. done.
Qed.

Lemma extractValues_truncates_witness :
  ∃ values,
    extractValues (Sample.tag "a" "b") ["key"] = Ret (values, None) ∧
    Forall2 (λ fv w, convertValue (snd fv) = Ret w)
      (take (length ["key"])
         (included
            [ (Sample.exported "Key" [("db", "key")], VBasic String_ (SString "a"));
              (Sample.exported "Val" [("json", "val,omitempty")],
               VBasic String_ (SString "b")) ])) values ∧
    length values =
    (length ["key"] `min`
     length (included
        [ (Sample.exported "Key" [("db", "key")], VBasic String_ (SString "a"));
          (Sample.exported "Val" [("json", "val,omitempty")],
           VBasic String_ (SString "b")) ]))%nat.
Proof.
  apply (extractValues_truncates (Sample.tag "a" "b") _ ["key"]); reflexivity.
Defined.

Lemma find_field_column fields :
  ∀ i k f,
    NoDup (map getColumnName (List.filter has_column fields)) →
    fields !! k = Some f →
    has_column f = true →
    find_field fields i (getColumnName f) = Some (i + k)%nat.
Proof.
  induction fields as [|g rest IH]; intros i k f Hnd Hk Hf; [done|].
  assert (Hf' := Hf). unfold has_column in Hf'.
  apply andb_true_iff in Hf' as [Hexp Hdash].
  apply negb_true_iff in Hdash.
  destruct k as [|k]; simpl in Hk.
  - injection Hk as ->. simpl. rewrite Hexp. simpl.
    rewrite String.eqb_refl. f_equal. lia.
  - assert (Hin : getColumnName f ∈
                  map getColumnName (List.filter has_column rest)).
    { apply (list_elem_of_fmap_2 getColumnName).
      apply list_elem_of_In, filter_In. split; [|done].
      apply list_elem_of_In. by eapply list_elem_of_lookup_2. }
    simpl in Hnd. simpl.
    destruct (IsExported g) eqn:Hg; simpl.
    + destruct (String.eqb (getColumnName g) (getColumnName f)) eqn:Heq.
      * exfalso. apply String.eqb_eq in Heq.
        assert (Hcol : has_column g = true).
        { unfold has_column. rewrite Hg, Heq, Hdash. done. }
        rewrite Hcol in Hnd. simpl in Hnd. apply NoDup_cons in Hnd as [Hnot _].
        rewrite Heq in Hnot. done.
      * rewrite (IH (S i) k f); [f_equal; lia| |done|done].
        destruct (has_column g); [|done].
        simpl in Hnd. by apply NoDup_cons in Hnd as [_ ?].
    + rewrite (IH (S i) k f); [f_equal; lia| |done|done].
      unfold has_column at 1 in Hnd. rewrite Hg in Hnd. done.
Qed.

(** X7.  Ingestion and result mapping agree on the columns of a type whose
    column names are distinct: the column that [analyzeStructure] gives for
    field [k] is found again by [findStructField] at field [k], and the scan
    target of that column is the address of field [k]. *)
Theorem written_column_reads_back tfs k f t :
  NoDup (type_columns (TStruct tfs)) →
  tfs !! k = Some (f, t) →
  has_column f = true →
  findStructField (zero (TStruct tfs)) (getColumnName f) = Ret (Some k) ∧
  target_of tfs (getColumnName f) = FieldAddr k t.
Proof.
  intros Hnd Hk Hf.
  assert (Hfind : find_field (map fst tfs) 0 (getColumnName f) = Some k).
  { apply (find_field_column (map fst tfs) 0%nat k f); [done| |done].
    rewrite list_lookup_fmap, Hk. done. }
  split.
  - unfold findStructField. rewrite TypeOf_zero. simpl. by rewrite Hfind.
  - unfold target_of. by rewrite Hfind, Hk.
Qed.

Lemma written_column_reads_back_witness :
  findStructField (zero (TStruct Sample.UserT))
    (getColumnName (Sample.exported "Name" [("json", "name")])) =
  Ret (Some 1%nat) ∧
  target_of Sample.UserT
    (getColumnName (Sample.exported "Name" [("json", "name")])) =
  FieldAddr 1 (TBasic String_).
Proof.
  apply (written_column_reads_back Sample.UserT 1
           (Sample.exported "Name" [("json", "name")]) (TBasic String_));
    [|reflexivity|reflexivity].
  vm_compute. repeat constructor; set_solver.
Defined.

(** X8.  [QueryToStruct] leaves its destination as it was whenever no row
    is read.  A destination that is not a pointer to a slice, or whose
    elements are neither structs nor pointers to structs, is refused before
    any query is sent.  When the query fails, its error is returned and the
    driver has seen the query alone; when [rows.Columns()] fails, its error
    is returned and the rows are closed. *)
Theorem QueryToStruct_failure_keeps_dest {D : Type} `{!Driver D}
    (c : ClickHouseClient) dest query args (w : World D) :
  match dest with
  | VPtr pt (Some (VSlice elemType old)) =>
      if accepted_elem elemType then
        match db_QueryContext query args (drv w) with
        | (inr err, d) =>
            QueryToStruct c dest query args w =
            (Ret (dest, Some err),
             mkWorld d (log w ++ [EvQuery query args (inr err)]) (CKCONN w))
        | (inl rows, d) =>
            match rows_Columns rows with
            | inr err =>
                QueryToStruct c dest query args w =
                (Ret (dest, Some err),
                 mkWorld d
                   ((log w ++ [EvQuery query args (inl rows)]) ++ [EvRowsClose])
                   (CKCONN w))
            | inl _ => True
            end
        end
      else if rejected_elem elemType then
        QueryToStruct c dest query args w =
        (Ret (dest, Some (Errorf "slice elements must be structs")), w)
      else True
  | _ =>
      QueryToStruct c dest query args w =
      (Ret (dest, Some (Errorf "dest must be a pointer to slice")), w)
  end.
Proof.
  destruct dest as [ |k s|fs|e xs|e xs|pt [target|]]; try reflexivity.
  destruct target as [ |k s|fs|e xs|elemType old|e t]; try reflexivity.
  destruct (accepted_elem elemType) eqn:Hacc.
  - assert (Hrun : QueryToStruct c (VPtr pt (Some (VSlice elemType old)))
                     query args w =
                   (rows <- Query c query args ;;
                    match rows with
                    | inr err => ret (VPtr pt (Some (VSlice elemType old)), Some err)
                    | inl rows =>
                        match rows_Columns rows with
                        | inr err =>
                            _ <- rows_Close ;;
                            ret (VPtr pt (Some (VSlice elemType old)), Some err)
                        | inl columns =>
                            r <- lift (rows_loop
                                   (bool_decide (Type_Kind elemType = Pointer))
                                   (match elemType with TPtr e => e | t => t end)
                                   columns (rows_data rows) old) ;;
                            _ <- rows_Close ;;
                            ret (VPtr pt (Some (VSlice elemType (fst r))),
                                 match snd r with
                                 | Some err => Some err
                                 | None => rows_Err rows
                                 end)
                        end
                    end) w).
    { destruct elemType as [ | | |[ | | | |tfs]|tfs]; try discriminate;
        reflexivity. }
    destruct (db_QueryContext query args (drv w)) as [[rows|err] d] eqn:Hq.
    + destruct (rows_Columns rows) as [columns|err] eqn:Hcols; [exact I|].
      rewrite Hrun. unfold Query, bind at 1. rewrite call_run, Hq.
      cbn [fst snd]. rewrite Hcols. reflexivity.
    + rewrite Hrun. unfold Query, bind at 1. rewrite call_run, Hq.
      reflexivity.
  - destruct (rejected_elem elemType) eqn:Hrej; [|exact I].
    unfold QueryToStruct.
    destruct elemType as [k|n e|e|e|tfs]; try discriminate; simpl in Hrej.
    + destruct k; try (vm_compute in Hrej; discriminate); reflexivity.
    + reflexivity.
    + reflexivity.
    + apply bool_decide_eq_true in Hrej.
      unfold bind, lift. simpl.
      destruct (decide (Type_Kind e ≠ Struct)); [reflexivity|done].
Qed.

(** X9.  The constructor opens the native connection, pings it and opens
    the [database/sql] handle, in that order, and stops at the first
    failure: a failed open is not followed by a ping, a failed ping not by
    [OpenDB].  The package variable [CKCONN] is set to the new client on
    success and keeps its value on failure. *)
Theorem NewClickHouseClient_call_sequence {D : Type} `{!Driver D}
    (config : Config) (w : World D) :
  ∃ r w',
    NewClickHouseClient config w = (Ret r, w') ∧
    ((∃ err,
        r = inr (Errorf_w "failed to connect to ClickHouse" err) ∧
        new_events w w' = [EvOpen (conn_options config) (Some err)] ∧
        CKCONN w' = CKCONN w) ∨
     (∃ err,
        r = inr (Errorf_w "failed to ping ClickHouse" err) ∧
        new_events w w' =
        [EvOpen (conn_options config) None; EvPing (Some err)] ∧
        CKCONN w' = CKCONN w) ∨
     (∃ client,
        r = inl client ∧
        new_events w w' =
        [EvOpen (conn_options config) None; EvPing None;
         EvOpenDB (db_options config)] ∧
        CKCONN w' = client)).
Proof.
  destruct (NewClickHouseClient_cases config w)
    as [(err & d1 & Hopen & Hrun)|[(err & d1 & d2 & Hopen & Hping & Hrun)
       |(d1 & d2 & Hopen & Hping & Hrun)]];
    rewrite Hrun; eexists _, _; (split; [done|]).
  - left. exists err. split; [done|]. split; [|done].
    by apply new_events_app.
  - right; left. exists err. split; [done|]. split; [|done].
    apply new_events_app. simpl. by rewrite <- app_assoc.
  - right; right. eexists. split; [done|]. split; [|done].
    apply new_events_app. simpl. by rewrite <- !app_assoc.
Qed.

Lemma convert_fields_last cv fs :
  ∀ m m',
    convert_fields cv fs m = Ret m' →
    ∀ key,
      match last_named key fs with
      | Some fv => ∃ w, cv (snd fv) = Ret w ∧ m' !! key = Some w
      | None => m' !! key = m !! key
      end.
Proof.
  induction fs as [|fv rest IH]; intros m m' Hrun key.
  - simpl in Hrun. by injection Hrun as ->.
  - simpl in Hrun. unfold last_named. simpl. unfold has_column at 1.
    destruct (IsExported (fst fv)); simpl in *; [|by apply IH].
    destruct (String.eqb (getColumnName (fst fv)) "-"); simpl in *;
      [by apply IH|].
    destruct (cv (snd fv)) as [w| |] eqn:Hw; simpl in Hrun; try discriminate.
    specialize (IH _ _ Hrun key). unfold last_named in IH.
    destruct (String.eqb (getColumnName (fst fv)) key) eqn:Heq.
    + apply String.eqb_eq in Heq. rewrite last_cons.
      destruct (last _) as [fv'|]; [done|].
      exists w. split; [done|]. rewrite IH, Heq. apply lookup_insert_eq.
    + apply String.eqb_neq in Heq.
      destruct (last _) as [fv'|]; [done|].
      rewrite IH. by apply lookup_insert_ne.
Qed.

(** X10.  In the map that [convertValue] builds for an element of a struct
    slice, the entry of a column is the conversion of the last field of the
    element that resolves to this column: when two fields share a column
    name, the later one wins.  A name that no included field resolves to has
    no entry. *)
Theorem nested_record_later_field_wins elemType xs ms :
  convertValue (VSlice elemType xs) = Ret (WMaps ms) →
  Forall2 (λ x m, ∃ fs, x = VStruct fs ∧
             ∀ key,
               match last_named key fs with
               | Some fv => ∃ w, convertValue (snd fv) = Ret w ∧
                                 m !! key = Some w
               | None => m !! key = None
               end) xs ms.
Proof.
  intros Hrun. simpl in Hrun.
  destruct (Nat.eqb (length xs) 0); [discriminate|].
  destruct (decide (Type_Kind elemType = Struct)); [|discriminate].
  apply convert_elems_spec in Hrun as (ms' & [= ->] & Hms).
  simpl. eapply Forall2_impl; [exact Hms|].
  intros x m (fs & -> & Hm). exists fs. split; [done|]. intros key.
  pose proof (convert_fields_last _ _ _ _ Hm key) as Hlast.
  destruct (last_named key fs); [done|]. by rewrite Hlast, lookup_empty.
Qed.

Lemma nested_record_later_field_wins_witness :
  Forall2 (λ x (m : gmap string Wire), ∃ fs, x = VStruct fs ∧
             ∀ key,
               match last_named key fs with
               | Some fv => ∃ w, convertValue (snd fv) = Ret w ∧
                                 m !! key = Some w
               | None => m !! key = None
               end)
    [VStruct [ (Sample.exported "A" [("db", "k")], VBasic String_ (SString "first"));
               (Sample.exported "B" [("db", "k")], VBasic String_ (SString "second")) ]]
    [ <["k" := WRaw (VBasic String_ (SString "second"))]>
        (<["k" := WRaw (VBasic String_ (SString "first"))]> ∅) ].
Proof.
  apply (nested_record_later_field_wins
           (TStruct [ (Sample.exported "A" [("db", "k")], TBasic String_);
                      (Sample.exported "B" [("db", "k")], TBasic String_) ])).
  reflexivity.
Defined.

(** X11.  [Count] sends one query: the count of all rows of the table,
    followed by [WHERE] and the condition only when the condition is not
    empty, with the arguments as they are.  When the query fails the count
    is 0 and the error is that of the query; when it has no row the count
    is 0 and the error is [rows.Err()] or [sql.ErrNoRows]; otherwise the
    count is the converted first cell, returned with what [rows.Close()]
    returns (nil, or an error beside the count), or the count is 0 with the
    error of the scan. *)
Theorem Count_query_and_errors {D : Type} `{!Driver D} (c : ClickHouseClient)
    tableName where_ args (w : World D) :
  ∃ r w' res,
    Count c tableName where_ args w = (Ret r, w') ∧
    new_events w w' =
      [EvQuery (if String.eqb where_ ""
                then "SELECT COUNT(*) FROM " +:+ tableName
                else "SELECT COUNT(*) FROM " +:+ tableName +:+
                     " WHERE " +:+ where_)
         args res] ∧
    match res with
    | inr err => r = (VBasic Int64 (SInt 0), Some err)
    | inl rows =>
        match rows_data rows with
        | [] => r = (VBasic Int64 (SInt 0),
                     Some (default ErrNoRows (rows_Err rows)))
        | [cell] :: _ =>
            match sql_convertAssign (TBasic Int64) cell with
            | inl v => r = (v, rows_Close_error rows)
            | inr err => fst r = VBasic Int64 (SInt 0) ∧
                         (snd r ≫= Unwrap) = Some err
            end
        | _ :: _ => fst r = VBasic Int64 (SInt 0) ∧ snd r ≠ None
        end
    end.
Proof.
  unfold Count, QueryRow. unfold bind at 1. rewrite call_run.
  assert (Hq : (if negb (String.eqb where_ "")
                then ("SELECT COUNT(*) FROM " +:+ tableName) +:+
                     " WHERE " +:+ where_
                else "SELECT COUNT(*) FROM " +:+ tableName) =
               (if String.eqb where_ ""
                then "SELECT COUNT(*) FROM " +:+ tableName
                else "SELECT COUNT(*) FROM " +:+ tableName +:+
                     " WHERE " +:+ where_)).
  { destruct (String.eqb where_ ""); [done|]. simpl negb. cbv iota.
    by rewrite sapp_assoc. }
  rewrite Hq. clear Hq.
  set (query := if String.eqb where_ "" then _ else _).
  destruct (db_QueryContext query args (drv w)) as [[rows|err] d] eqn:Hrun;
    cbn [fst snd Row_Scan].
  - destruct (rows_data rows) as [|cells rest] eqn:Hdata.
    + eexists _, _, (inl rows). split; [reflexivity|]. split.
      * by apply new_events_app.
      * rewrite Hdata. done.
    + eexists _, _, (inl rows). split; [reflexivity|]. split.
      * by apply new_events_app.
      * rewrite Hdata. cbn [fst snd].
        destruct cells as [|cell [|cell2 cells]]; [done| |done].
        unfold rows_Scan. cbn [length Nat.eqb negb scan_cells].
        cbn [lookup list_lookup TypeOf].
        destruct (sql_convertAssign (TBasic Int64) cell) as [v|err]; done.
  - eexists _, _, (inr err). split; [reflexivity|]. split.
    + by apply new_events_app.
    + done.
Qed.

(** * Properties of the cipher *)

(** ** Bytes *)

Lemma N_lxor_byte a b : (a < 256 → b < 256 → N.lxor a b < 256)%N.
Proof.
  intros Ha Hb.
  destruct (N.eq_dec (N.lxor a b) 0) as [->|Hne]; [done|].
  change 256%N with (2 ^ 8)%N. apply N.log2_lt_pow2; [lia|].
  pose proof (N.log2_lxor a b) as Hlog.
  assert (Hla : (N.log2 a < 8)%N).
  { destruct (N.eq_dec a 0) as [->|]; [done|].
    apply N.log2_lt_pow2; [lia|done]. }
  assert (Hlb : (N.log2 b < 8)%N).
  { destruct (N.eq_dec b 0) as [->|]; [done|].
    apply N.log2_lt_pow2; [lia|done]. }
  lia.
Qed.

Lemma xor_byte_involutive a k :
  encrypt.xor_byte (encrypt.xor_byte a k) k = a.
Proof.
  unfold encrypt.xor_byte.
  rewrite N_ascii_embedding
    by (apply N_lxor_byte; apply N_ascii_bounded).
  rewrite N.lxor_assoc, N.lxor_nilpotent, N.lxor_0_r.
  apply ascii_N_embedding.
Qed.

(** ** The loops of [doEncode] *)

Section cipher.
Local Open Scope nat_scope.

Lemma encoded_up_to_step key bs cur i b k :
  encoded_up_to key bs cur i →
  cur !! i = Some b →
  key !! (i mod length key) = Some k →
  encoded_up_to key bs (<[i := encrypt.xor_byte b k]> cur) (S i).
Proof.
  intros [Hlen Hcur] Hb Hk. split; [by rewrite length_insert|].
  intros n b' Hn. specialize (Hcur n b' Hn).
  destruct (decide (n = i)) as [->|Hne].
  - rewrite Hb in Hcur. rewrite Nat.ltb_irrefl in Hcur. injection Hcur as ->.
    rewrite list_lookup_insert_eq by (by eapply lookup_lt_Some).
    replace (i <? S i) with true by (symmetry; apply Nat.ltb_lt; lia).
    by rewrite Hk.
  - rewrite list_lookup_insert_ne by done. rewrite Hcur.
    destruct (Nat.ltb_spec n i), (Nat.ltb_spec n (S i)); try done; lia.
Qed.

Lemma key_loop_spec key bs q :
  ∀ tmp j cur,
    drop j key = tmp →
    j ≤ length key →
    q * length key + j ≤ length bs →
    encoded_up_to key bs cur (q * length key + j) →
    ∃ cur',
      encrypt.key_loop tmp cur (q * length key + j) =
        (cur', (q * length key + length key) `min` length bs,
         bool_decide (length bs < q * length key + length key)) ∧
      encoded_up_to key bs cur'
        ((q * length key + length key) `min` length bs).
Proof.
  induction tmp as [|k tmp IH]; intros j cur Hdrop HjK Hj Hinv.
  - assert (j = length key) as ->.
    { apply (f_equal length) in Hdrop. rewrite length_drop in Hdrop.
      simpl in Hdrop. lia. }
    exists cur. simpl.
    rewrite Nat.min_l by lia. rewrite bool_decide_eq_false_2 by lia. done.
  - assert (HjK' : j < length key).
    { apply (f_equal length) in Hdrop. rewrite length_drop in Hdrop.
      simpl in Hdrop. lia. }
    assert (Hkj : key !! j = Some k).
    { pose proof (lookup_drop key j 0) as Hd.
      rewrite Hdrop, Nat.add_0_r in Hd. by rewrite <- Hd. }
    assert (Hk : key !! ((q * length key + j) mod length key) = Some k).
    { by rewrite Nat.add_comm, Nat.Div0.mod_add, Nat.mod_small by done. }
    simpl. destruct (cur !! (q * length key + j)) as [b|] eqn:Hb.
    + assert (q * length key + j < length bs).
      { destruct Hinv as [<- _]. by eapply lookup_lt_Some. }
      replace (S (q * length key + j)) with (q * length key + S j) by lia.
      apply (IH (S j)); [|lia|lia|].
      * rewrite (drop_S _ k j) in Hdrop by done. by injection Hdrop.
      * replace (q * length key + S j) with (S (q * length key + j)) by lia.
        by apply encoded_up_to_step.
    + assert (length bs = q * length key + j).
      { destruct Hinv as [Hlen _]. apply lookup_ge_None in Hb. lia. }
      exists cur. rewrite Nat.min_r by lia.
      rewrite bool_decide_eq_true_2 by lia. split; [congruence|].
      by replace (length bs) with (q * length key + j).
Qed.

Lemma encode_loop_spec key bs :
  0 < length key →
  ∀ fuel q cur,
    encoded_up_to key bs cur (q * length key) →
    length bs - q * length key ≤ fuel →
    ∃ out, encrypt.encode_loop fuel key cur (q * length key) = Ret out ∧
           encoded_up_to key bs out (length bs).
Proof.
  intros HK. induction fuel as [|fuel IH]; intros q cur Hinv Hfuel.
  - exists cur. destruct Hinv as [Hlen Hcur]. simpl. rewrite Hlen.
    replace (q * length key <? length bs) with false
      by (symmetry; apply Nat.ltb_ge; lia).
    split; [done|]. split; [done|]. intros n b Hn. rewrite (Hcur n b Hn).
    pose proof (lookup_lt_Some _ _ _ Hn).
    replace (n <? q * length key) with true by (symmetry; apply Nat.ltb_lt; lia).
    by replace (n <? length bs) with true by (symmetry; apply Nat.ltb_lt; lia).
  - simpl. destruct (Nat.ltb_spec (q * length key) (length cur)) as [Hlt|Hge];
      simpl.
    + destruct Hinv as [Hlen Hcur].
      destruct (key_loop_spec key bs q key 0 cur) as (cur' & Hrun & Hinv');
        [done|lia|lia|by rewrite Nat.add_0_r|].
      rewrite Nat.add_0_r in Hrun. rewrite Hrun.
      destruct (bool_decide_reflect (length bs < q * length key + length key))
        as [Hstop|Hgo].
      * exists cur'. split; [done|]. by rewrite Nat.min_r in Hinv' by lia.
      * rewrite Nat.min_l in Hinv' |- * by lia.
        replace (q * length key + length key) with (S q * length key) in * by lia.
        apply IH; [done|]. simpl. lia.
    + exists cur. destruct Hinv as [Hlen Hcur].
      split; [done|]. split; [done|]. intros n b Hn. rewrite (Hcur n b Hn).
      pose proof (lookup_lt_Some _ _ _ Hn).
      replace (n <? q * length key) with true by (symmetry; apply Nat.ltb_lt; lia).
      by replace (n <? length bs) with true by (symmetry; apply Nat.ltb_lt; lia).
Qed.

End cipher.

Lemma encoded_all key bs out :
  encoded_up_to key bs out (length bs) → out = xor_key key bs.
Proof.
  intros [Hlen Hout]. apply list_eq. intros n. unfold xor_key.
  rewrite list_lookup_imap.
  destruct (bs !! n) as [b|] eqn:Hb; simpl.
  - rewrite (Hout n b Hb).
    apply lookup_lt_Some in Hb. by apply Nat.ltb_lt in Hb as ->.
  - apply lookup_ge_None. apply lookup_ge_None in Hb. lia.
Qed.

Lemma bytes_length_pos str : str ≠ "" → (0 < length (encrypt.bytes str))%nat.
Proof. destruct str; [done|]. simpl. lia. Qed.

Lemma doEncode_spec fuel s bs :
  encrypt.Key s ≠ "" →
  (length bs ≤ fuel)%nat →
  encrypt.doEncode fuel s bs = Ret (xor_key (encrypt.bytes (encrypt.Key s)) bs).
Proof.
  intros Hkey Hfuel. unfold encrypt.doEncode.
  destruct (encode_loop_spec (encrypt.bytes (encrypt.Key s)) bs
              (bytes_length_pos _ Hkey) fuel 0 bs) as (out & Hrun & Hout).
  - split; [done|]. intros n b Hn. by rewrite Hn.
  - simpl. lia.
  - simpl in Hrun. rewrite Hrun. f_equal. by apply encoded_all.
Qed.

Lemma xor_key_length key bs : length (xor_key key bs) = length bs.
Proof. unfold xor_key. by rewrite length_imap. Qed.

Lemma xor_key_involutive key bs : xor_key key (xor_key key bs) = bs.
Proof.
  apply list_eq. intros n. unfold xor_key. rewrite !list_lookup_imap.
  destruct (bs !! n) as [b|]; simpl; [|done].
  by rewrite xor_byte_involutive.
Qed.

(** X12.  With a non-empty key, [doEncode] returns within [len(bs)] rounds
    and leaves every byte combined by exclusive or with the byte of the key
    at the same position modulo the length of the key; the number of bytes
    is unchanged. *)
Theorem doEncode_xors_with_repeated_key fuel s bs :
  encrypt.Key s ≠ "" →
  (length bs ≤ fuel)%nat →
  ∃ out,
    encrypt.doEncode fuel s bs = Ret out ∧
    length out = length bs ∧
    ∀ n b, bs !! n = Some b →
      ∃ k, encrypt.bytes (encrypt.Key s) !!
             (n mod length (encrypt.bytes (encrypt.Key s)))%nat = Some k ∧
           out !! n = Some (encrypt.xor_byte b k).
Proof.
  intros Hkey Hfuel. exists (xor_key (encrypt.bytes (encrypt.Key s)) bs).
  split; [by apply doEncode_spec|]. split; [apply xor_key_length|].
  intros n b Hn.
  destruct (lookup_lt_is_Some_2 (encrypt.bytes (encrypt.Key s))
              (n mod length (encrypt.bytes (encrypt.Key s)))%nat) as [k Hk].
  { apply Nat.mod_upper_bound. pose proof (bytes_length_pos _ Hkey). lia. }
  exists k. split; [done|]. unfold xor_key.
  by rewrite list_lookup_imap, Hn, Hk.
Qed.

Lemma doEncode_xors_with_repeated_key_witness :
  ∃ out,
    encrypt.doEncode 5 (encrypt.mkSimpleEncrypt "ab")
      (encrypt.bytes "hello") = Ret out ∧
    length out = length (encrypt.bytes "hello") ∧
    ∀ n b, encrypt.bytes "hello" !! n = Some b →
      ∃ k, encrypt.bytes (encrypt.Key (encrypt.mkSimpleEncrypt "ab")) !!
             (n mod length (encrypt.bytes
                              (encrypt.Key (encrypt.mkSimpleEncrypt "ab"))))%nat
           = Some k ∧
           out !! n = Some (encrypt.xor_byte b k).
Proof.
  apply (doEncode_xors_with_repeated_key 5 (encrypt.mkSimpleEncrypt "ab")
           (encrypt.bytes "hello")); [done|simpl; lia].
Defined.

(** X13.  Decoding undoes encoding: with a non-empty key and enough rounds,
    [Decode] after [Encode] leaves the caller's bytes as they were, and so
    does [Encode] after [Decode]. *)
Theorem Decode_undoes_Encode fuel s data :
  encrypt.Key s ≠ "" →
  (length data ≤ fuel)%nat →
  obind (encrypt.Encode fuel s data) (encrypt.Decode fuel s) = Ret data ∧
  obind (encrypt.Decode fuel s data) (encrypt.Encode fuel s) = Ret data.
Proof.
  intros Hkey Hfuel. unfold encrypt.Encode, encrypt.Decode.
  rewrite doEncode_spec by done. simpl.
  rewrite doEncode_spec by (by rewrite ?xor_key_length).
  by rewrite xor_key_involutive.
Qed.

Lemma Decode_undoes_Encode_witness :
  obind (encrypt.Encode 5 (encrypt.mkSimpleEncrypt "ab") (encrypt.bytes "hello"))
    (encrypt.Decode 5 (encrypt.mkSimpleEncrypt "ab")) =
  Ret (encrypt.bytes "hello") ∧
  obind (encrypt.Decode 5 (encrypt.mkSimpleEncrypt "ab") (encrypt.bytes "hello"))
    (encrypt.Encode 5 (encrypt.mkSimpleEncrypt "ab")) =
  Ret (encrypt.bytes "hello").
Proof.
  apply (Decode_undoes_Encode 5 (encrypt.mkSimpleEncrypt "ab")
           (encrypt.bytes "hello")); [done|simpl; lia].
Defined.

Lemma encode_loop_empty_key fuel b bs :
  encrypt.encode_loop fuel [] (b :: bs) 0 = OutOfFuel.
Proof. induction fuel as [|fuel IH]; [done|]. simpl. exact IH. Qed.

(** X14.  With an empty key the loop of [doEncode] does not advance: on a
    non-empty input it never returns, whatever the number of rounds, and
    neither do the functions that call it; on an empty input it returns at
    once. *)
Theorem doEncode_empty_key_never_returns fuel s str :
  encrypt.Key s = "" →
  match str with
  | "" => encrypt.doEncode fuel s (encrypt.bytes str) = Ret []
  | _ =>
      encrypt.doEncode fuel s (encrypt.bytes str) = OutOfFuel ∧
      encrypt.Encode fuel s (encrypt.bytes str) = OutOfFuel ∧
      encrypt.Encode2Hex fuel s str = OutOfFuel ∧
      encrypt.Encode2HexByCheck fuel s str = OutOfFuel
  end.
Proof.
  intros Hkey.
  unfold encrypt.Encode2Hex, encrypt.Encode2HexByCheck, encrypt.Encode,
    encrypt.doEncode.
  rewrite Hkey. destruct str as [|c str]; [by destruct fuel|].
  simpl encrypt.bytes. by rewrite encode_loop_empty_key.
Qed.

Lemma doEncode_empty_key_never_returns_witness :
  encrypt.doEncode 100 (encrypt.mkSimpleEncrypt "") (encrypt.bytes "a") =
    OutOfFuel ∧
  encrypt.Encode 100 (encrypt.mkSimpleEncrypt "") (encrypt.bytes "a") =
    OutOfFuel ∧
  encrypt.Encode2Hex 100 (encrypt.mkSimpleEncrypt "") "a" = OutOfFuel ∧
  encrypt.Encode2HexByCheck 100 (encrypt.mkSimpleEncrypt "") "a" = OutOfFuel.
Proof.
  apply (doEncode_empty_key_never_returns 100 (encrypt.mkSimpleEncrypt "") "a").
  reflexivity.
Defined.

(** ** The checksum *)

Lemma wrap64_mod z : wrap64 z mod 65536 = z mod 65536.
Proof.
  unfold wrap64.
  rewrite (Z.mod_eq (z + 2 ^ 63) (2 ^ 64)) by lia.
  replace (z + 2 ^ 63 - 2 ^ 64 * ((z + 2 ^ 63) / 2 ^ 64) - 2 ^ 63)
    with (z + (- (2 ^ 48) * ((z + 2 ^ 63) / 2 ^ 64)) * 65536) by lia.
  apply Z.mod_add. lia.
Qed.

Lemma check_loop_mod src :
  ∀ check, encrypt.check_loop src check mod 65536 =
           (check + byte_sum src) mod 65536.
Proof.
  induction src as [|b src IH]; intros check; simpl.
  - by rewrite Z.add_0_r.
  - rewrite IH. unfold int_add.
    rewrite Z.add_mod, wrap64_mod, <- Z.add_mod by lia.
    f_equal. lia.
Qed.

Lemma byte_of_int_mod z : encrypt.byte_of_int (z mod 256) = encrypt.byte_of_int z.
Proof. unfold encrypt.byte_of_int. by rewrite Z.mod_mod by lia. Qed.

Lemma calaCheckCode_spec src :
  encrypt.calaCheckCode src =
  [encrypt.byte_of_int (byte_sum src mod 65536 / 256);
   encrypt.byte_of_int (byte_sum src mod 65536)].
Proof.
  unfold encrypt.calaCheckCode.
  pose proof (check_loop_mod src 0) as Hmod. rewrite Z.add_0_l in Hmod.
  set (check := encrypt.check_loop src 0) in *.
  change 255 with (Z.ones 8). rewrite !Z.land_ones by lia.
  rewrite Z.shiftr_div_pow2 by lia. change (2 ^ 8) with 256.
  assert (H1 : (check / 256) mod 256 = (check mod 65536) / 256).
  { change 65536 with (256 * 256). rewrite Z.rem_mul_r by lia.
    rewrite (Z.mul_comm 256 ((check / 256) mod 256)), Z.div_add by lia.
    rewrite (Z.div_small (check mod 256)) by (apply Z.mod_pos_bound; lia).
    lia. }
  assert (H2 : check mod 256 = (check mod 65536) mod 256).
  { change 65536 with (256 * 256). rewrite Z.rem_mul_r by lia.
    rewrite (Z.mul_comm 256 ((check / 256) mod 256)), Z.mod_add by lia.
    by rewrite Z.mod_mod by lia. }
  rewrite H1, H2, Hmod. by rewrite byte_of_int_mod.
Qed.

Lemma calaCheckCode_length src : length (encrypt.calaCheckCode src) = 2%nat.
Proof. done. Qed.

Lemma verify_appended data check :
  length check = 2%nat →
  encrypt.verify (data ++ check) =
  Ret (bool_decide (encrypt.calaCheckCode data = check)).
Proof.
  intros Hlen. unfold encrypt.verify. rewrite length_app, Hlen.
  replace (length data + 2 <? 2)%nat with false
    by (symmetry; apply Nat.ltb_ge; lia).
  replace (length data + 2 - 2)%nat with (length data) by lia.
  by rewrite take_app_length, drop_app_length.
Qed.

Lemma byte_of_int_inj x y :
  encrypt.byte_of_int x = encrypt.byte_of_int y → x mod 256 = y mod 256.
Proof.
  unfold encrypt.byte_of_int. intros Heq.
  apply (f_equal N_of_ascii) in Heq.
  pose proof (Z.mod_pos_bound x 256 ltac:(lia)).
  pose proof (Z.mod_pos_bound y 256 ltac:(lia)).
  rewrite !N_ascii_embedding in Heq by lia. lia.
Qed.

Lemma calaCheckCode_inj a b :
  encrypt.calaCheckCode a = encrypt.calaCheckCode b →
  byte_sum a mod 65536 = byte_sum b mod 65536.
Proof.
  rewrite !calaCheckCode_spec. intros [= Hhi Hlo].
  apply byte_of_int_inj in Hhi, Hlo.
  pose proof (Z.mod_pos_bound (byte_sum a) 65536 ltac:(lia)).
  pose proof (Z.mod_pos_bound (byte_sum b) 65536 ltac:(lia)).
  set (x := byte_sum a mod 65536) in *. set (y := byte_sum b mod 65536) in *.
  rewrite (Z.mod_small (x / 256)) in Hhi
    by (split; [apply Z.div_pos; lia|apply Z.div_lt_upper_bound; lia]).
  rewrite (Z.mod_small (y / 256)) in Hhi
    by (split; [apply Z.div_pos; lia|apply Z.div_lt_upper_bound; lia]).
  rewrite (Z.div_mod x 256), (Z.div_mod y 256) by lia. lia.
Qed.

Lemma byte_sum_app a b : byte_sum (a ++ b) = byte_sum a + byte_sum b.
Proof. induction a as [|x a IH]; simpl; [done|]. unfold byte_sum in *. simpl. lia. Qed.

Lemma int_of_byte_range b : 0 ≤ encrypt.int_of_byte b < 256.
Proof. unfold encrypt.int_of_byte. pose proof (N_ascii_bounded b). lia. Qed.

Lemma int_of_byte_inj a b : encrypt.int_of_byte a = encrypt.int_of_byte b → a = b.
Proof.
  unfold encrypt.int_of_byte. intros Heq. apply N2Z.inj in Heq.
  by rewrite <- (ascii_N_embedding a), <- (ascii_N_embedding b), Heq.
Qed.

(** X15.  The check code is the sum of the bytes modulo 65536 as two bytes,
    the high one first, for an input of any length: the wrap-around of the
    64-bit sum does not reach its low sixteen bits.  [verify] accepts any
    bytes followed by their check code. *)
Theorem calaCheckCode_is_sum_mod_65536 src :
  encrypt.calaCheckCode src =
    [encrypt.byte_of_int (byte_sum src mod 65536 / 256);
     encrypt.byte_of_int (byte_sum src mod 65536)] ∧
  encrypt.verify (src ++ encrypt.calaCheckCode src) = Ret true.
Proof.
  split; [apply calaCheckCode_spec|].
  rewrite verify_appended by done. by rewrite bool_decide_eq_true_2.
Qed.

(** X17.  [verify] detects the change of any single byte of the payload:
    the bytes with one of them replaced by another value, followed by the
    check code of the original bytes, are refused. *)
Theorem verify_detects_single_byte_change pre b b' post :
  b ≠ b' →
  encrypt.verify (pre ++ b' :: post ++
                  encrypt.calaCheckCode (pre ++ b :: post)) = Ret false.
Proof.
  intros Hne.
  replace (pre ++ b' :: post ++ encrypt.calaCheckCode (pre ++ b :: post))
    with ((pre ++ b' :: post) ++ encrypt.calaCheckCode (pre ++ b :: post))
    by (by rewrite <- app_assoc).
  rewrite verify_appended by done. f_equal.
  apply bool_decide_eq_false_2. intros Heq.
  apply calaCheckCode_inj in Heq.
  rewrite !byte_sum_app in Heq.
  change (byte_sum (b' :: post)) with (encrypt.int_of_byte b' + byte_sum post) in Heq.
  change (byte_sum (b :: post)) with (encrypt.int_of_byte b + byte_sum post) in Heq.
  pose proof (int_of_byte_range b). pose proof (int_of_byte_range b').
  assert (encrypt.int_of_byte b ≠ encrypt.int_of_byte b')
    by (intros ?; by apply Hne, int_of_byte_inj).
  set (r := byte_sum pre + byte_sum post) in *.
  assert (Hd : (encrypt.int_of_byte b' - encrypt.int_of_byte b) mod 65536 = 0).
  { replace (encrypt.int_of_byte b' - encrypt.int_of_byte b)
      with ((byte_sum pre + (encrypt.int_of_byte b' + byte_sum post)) -
            (byte_sum pre + (encrypt.int_of_byte b + byte_sum post))) by lia.
    rewrite Zminus_mod, Heq, Z.sub_diag. done. }
  apply Z.mod_divide in Hd; [|lia]. destruct Hd as [q Hq]. lia.
Qed.

Lemma verify_detects_single_byte_change_witness :
  encrypt.verify (encrypt.bytes "ab" ++ "x"%char :: encrypt.bytes "d" ++
                  encrypt.calaCheckCode
                    (encrypt.bytes "ab" ++ "c"%char :: encrypt.bytes "d")) =
  Ret false.
Proof.
  apply (verify_detects_single_byte_change (encrypt.bytes "ab") "c"%char
           "x"%char (encrypt.bytes "d")).
  discriminate.
Defined.

(** X18.  The check code does not depend on the order of the bytes:
    [verify] accepts any rearrangement of the payload in front of the check
    code of the original. *)
Theorem verify_accepts_reordered_payload data data' :
  data ≡ₚ data' →
  encrypt.verify (data' ++ encrypt.calaCheckCode data) = Ret true.
Proof.
  intros Hperm. rewrite verify_appended by done. f_equal.
  apply bool_decide_eq_true_2. rewrite !calaCheckCode_spec.
  assert (Hsum : byte_sum data = byte_sum data').
  { induction Hperm as [|x l l' _ IH|x y l|l l' l'' _ IH1 _ IH2];
      unfold byte_sum in *; simpl; lia. }
  by rewrite Hsum.
Qed.

Lemma verify_accepts_reordered_payload_witness :
  encrypt.verify (encrypt.bytes "ba" ++
                  encrypt.calaCheckCode (encrypt.bytes "ab")) = Ret true.
Proof.
  apply (verify_accepts_reordered_payload (encrypt.bytes "ab")
           (encrypt.bytes "ba")).
  apply perm_swap.
Defined.

(** ** Hexadecimal text *)

Lemma hex_byte v :
  hex.reverseHexTable (hex.hextable (N.shiftr (N_of_ascii v) 4)) =
    Some (N.shiftr (N_of_ascii v) 4) ∧
  hex.reverseHexTable (hex.hextable (N.land (N_of_ascii v) 15)) =
    Some (N.land (N_of_ascii v) 15) ∧
  ascii_of_N (N.lor (N.shiftl (N.shiftr (N_of_ascii v) 4) 4)
                    (N.land (N_of_ascii v) 15)) = v.
Proof.
  destruct v as [[] [] [] [] [] [] [] []]; vm_compute; done.
Qed.

Lemma hex_round_trip data :
  hex.DecodeString (hex.EncodeToString data) = (data, None).
Proof.
  unfold hex.DecodeString. induction data as [|v data IH]; [done|].
  cbn [hex.EncodeToString String.list_ascii_of_string hex.Decode].
  destruct (hex_byte v) as (-> & -> & Hv).
  rewrite IH. simpl. by rewrite Hv.
Qed.

Lemma string_bytes str : encrypt.string_ (encrypt.bytes str) = str.
Proof. apply String.string_of_list_ascii_of_string. Qed.

(** X16.  What the hexadecimal variants encode, they decode: with a
    non-empty key and enough rounds, [Decode4Hex] gives back the string that
    [Encode2Hex] was given, and [Decode4HexByCheck] the string that
    [Encode2HexByCheck] was given. *)
Theorem hex_variants_round_trip fuel s str :
  encrypt.Key s ≠ "" →
  (length (encrypt.bytes str) ≤ fuel)%nat →
  obind (encrypt.Encode2Hex fuel s str) (encrypt.Decode4Hex fuel s) = Ret str ∧
  obind (encrypt.Encode2HexByCheck fuel s str) (encrypt.Decode4HexByCheck fuel s)
    = Ret str.
Proof.
  intros Hkey Hfuel.
  unfold encrypt.Encode2Hex, encrypt.Encode2HexByCheck, encrypt.Decode4Hex,
    encrypt.Decode4HexByCheck.
  rewrite doEncode_spec by done. cbn [obind].
  rewrite !hex_round_trip. cbn [fst].
  set (key := encrypt.bytes (encrypt.Key s)).
  split.
  - rewrite doEncode_spec by (rewrite ?xor_key_length; done).
    cbn [obind]. by rewrite xor_key_involutive, string_bytes.
  - rewrite length_app, calaCheckCode_length.
    replace (length (xor_key key (encrypt.bytes str)) + 2 <? 2)%nat
      with false by (symmetry; apply Nat.ltb_ge; lia).
    rewrite verify_appended by done. cbn [obind].
    rewrite bool_decide_eq_true_2 by done. cbn [negb].
    replace (length (xor_key key (encrypt.bytes str)) + 2 - 2)%nat
      with (length (xor_key key (encrypt.bytes str))) by lia.
    rewrite take_app_length.
    rewrite doEncode_spec by (rewrite ?xor_key_length; done).
    cbn [obind]. by rewrite xor_key_involutive, string_bytes.
Qed.

Lemma hex_variants_round_trip_witness :
  obind (encrypt.Encode2Hex 11 (encrypt.mkSimpleEncrypt "key") "hello world")
    (encrypt.Decode4Hex 11 (encrypt.mkSimpleEncrypt "key")) =
  Ret "hello world" ∧
  obind (encrypt.Encode2HexByCheck 11 (encrypt.mkSimpleEncrypt "key")
           "hello world")
    (encrypt.Decode4HexByCheck 11 (encrypt.mkSimpleEncrypt "key")) =
  Ret "hello world".
Proof.
  apply (hex_variants_round_trip 11 (encrypt.mkSimpleEncrypt "key")
           "hello world"); [done|simpl; lia].
Defined.

(** X19.  The variants that work in place do not carry the check code:
    [EncodeByCheck] leaves the caller the bytes of [Encode], no longer than
    before, and [DecodeByCheck] applied to them decodes them only when their
    own last two bytes happen to be the check code of the bytes before;
    otherwise it leaves them encoded. *)
Theorem in_place_check_code_is_lost fuel s data :
  encrypt.Key s ≠ "" →
  (length data ≤ fuel)%nat →
  encrypt.EncodeByCheck fuel s data = encrypt.Encode fuel s data ∧
  ∃ cipher,
    encrypt.EncodeByCheck fuel s data = Ret cipher ∧
    length cipher = length data ∧
    encrypt.DecodeByCheck fuel s cipher =
    Ret (if (2 <=? length cipher)%nat &&
            bool_decide (encrypt.calaCheckCode
                           (take (length cipher - 2) cipher) =
                         drop (length cipher - 2) cipher)
         then data else cipher).
Proof.
  intros Hkey Hfuel.
  unfold encrypt.EncodeByCheck, encrypt.Encode, encrypt.DecodeByCheck.
  rewrite doEncode_spec by done. cbn [obind]. split; [done|].
  set (cipher := xor_key (encrypt.bytes (encrypt.Key s)) data).
  assert (Hlen : length cipher = length data) by apply xor_key_length.
  exists cipher. split; [done|]. split; [done|].
  unfold encrypt.verify.
  destruct (Nat.ltb_spec (length cipher) 2) as [Hlt|Hge].
  - by replace (2 <=? length cipher)%nat with false
      by (symmetry; apply Nat.leb_gt; lia).
  - replace (2 <=? length cipher)%nat with true
      by (symmetry; apply Nat.leb_le; lia).
    cbn [obind andb].
    destruct (bool_decide _); cbn [negb]; [|done].
    rewrite doEncode_spec by (rewrite ?Hlen; done).
    unfold cipher. by rewrite xor_key_involutive.
Qed.

Lemma in_place_check_code_is_lost_witness :
  encrypt.EncodeByCheck 5 (encrypt.mkSimpleEncrypt "ab") (encrypt.bytes "hello")
  = encrypt.Encode 5 (encrypt.mkSimpleEncrypt "ab") (encrypt.bytes "hello") ∧
  ∃ cipher,
    encrypt.EncodeByCheck 5 (encrypt.mkSimpleEncrypt "ab")
      (encrypt.bytes "hello") = Ret cipher ∧
    length cipher = length (encrypt.bytes "hello") ∧
    encrypt.DecodeByCheck 5 (encrypt.mkSimpleEncrypt "ab") cipher =
    Ret (if (2 <=? length cipher)%nat &&
            bool_decide (encrypt.calaCheckCode
                           (take (length cipher - 2) cipher) =
                         drop (length cipher - 2) cipher)
         then encrypt.bytes "hello" else cipher).
Proof.
  apply (in_place_check_code_is_lost 5 (encrypt.mkSimpleEncrypt "ab")
           (encrypt.bytes "hello")); [done|simpl; lia].
Defined.

(** * Properties of the rotator *)

(** ** Backup names *)

Lemma backupFilename_eq r n :
  0 ≤ n < max_int →
  logger.backupFilename r n = logger.filename r +:+ "." +:+ pretty (n + 1).
Proof.
  intros Hn. unfold logger.backupFilename.
  destruct (Z.eqb_spec n 0) as [->|Hne]; [done|].
  unfold fmt_d, int_add. rewrite wrap64_small; [done|].
  unfold min_int, max_int in *. lia.
Qed.

Lemma backupFilename_inj r m n :
  0 ≤ m < max_int → 0 ≤ n < max_int →
  logger.backupFilename r m = logger.backupFilename r n → m = n.
Proof.
  intros Hm Hn. rewrite !backupFilename_eq by done. intros Heq.
  apply (inj (String.app _)) in Heq. apply (inj (String.app _)) in Heq.
  apply (inj pretty) in Heq. lia.
Qed.

Lemma backupFilename_ne r n :
  0 ≤ n < max_int → logger.backupFilename r n ≠ logger.filename r.
Proof.
  intros Hn. rewrite backupFilename_eq by done. intros Heq.
  rewrite <- (sapp_nil_r (logger.filename r)) in Heq at 2.
  apply (inj (String.app _)) in Heq. discriminate.
Qed.

(** ** Rotation *)

Lemma rename_step r fs n (fs1 : os.FS) :
  Z.of_nat (S n) < max_int →
  fs1 = match os.Stat (logger.backupFilename r (Z.of_nat n)) fs with
        | None => snd (os.Rename (logger.backupFilename r (Z.of_nat n))
                         (logger.backupFilename r (Z.of_nat (S n))) fs)
        | Some _ => fs
        end →
  fs1 !! logger.backupFilename r (Z.of_nat n) = None ∧
  fs1 !! logger.backupFilename r (Z.of_nat (S n)) =
    match fs !! logger.backupFilename r (Z.of_nat n) with
    | Some x => Some x
    | None => fs !! logger.backupFilename r (Z.of_nat (S n))
    end ∧
  ∀ path, path ≠ logger.backupFilename r (Z.of_nat n) →
          path ≠ logger.backupFilename r (Z.of_nat (S n)) →
          fs1 !! path = fs !! path.
Proof.
  intros Hn ->. unfold os.Stat, os.Rename.
  assert (Hne : logger.backupFilename r (Z.of_nat (S n)) ≠
                logger.backupFilename r (Z.of_nat n)).
  { intros Heq. apply backupFilename_inj in Heq; lia. }
  destruct (fs !! logger.backupFilename r (Z.of_nat n)) as [x|] eqn:Hx;
    cbn [snd].
  - split; [|split].
    + rewrite lookup_insert_ne by done. apply lookup_delete_eq.
    + apply lookup_insert_eq.
    + intros path H1 H2.
      rewrite lookup_insert_ne by done. by rewrite lookup_delete_ne.
  - done.
Qed.

Lemma rename_backups_spec r n :
  ∀ fs,
    Z.of_nat n < max_int →
    (∀ path,
       (∀ i, (i ≤ n)%nat → path ≠ logger.backupFilename r (Z.of_nat i)) →
       logger.rename_backups r n fs !! path = fs !! path) ∧
    (∀ i, (1 ≤ i < n)%nat →
       logger.rename_backups r n fs !! logger.backupFilename r (Z.of_nat i) =
       fs !! logger.backupFilename r (Z.of_nat (i - 1))) ∧
    ((1 ≤ n)%nat →
       logger.rename_backups r n fs !! logger.backupFilename r 0 = None ∧
       logger.rename_backups r n fs !! logger.backupFilename r (Z.of_nat n) =
       match fs !! logger.backupFilename r (Z.of_nat (n - 1)) with
       | Some x => Some x
       | None => fs !! logger.backupFilename r (Z.of_nat n)
       end).
Proof.
  induction n as [|n IH]; intros fs Hn.
  { split; [done|]. split; intros; lia. }
  cbn [logger.rename_backups].
  set (fs1 := match os.Stat _ fs with None => _ | Some _ => fs end).
  destruct (rename_step r fs n fs1 Hn eq_refl) as (Hn0 & Hn1 & Hother).
  destruct (IH fs1 ltac:(lia)) as (Ha & Hb & Hc).
  assert (Hdist : ∀ i j : nat, Z.of_nat i < max_int → Z.of_nat j < max_int →
            i ≠ j → logger.backupFilename r (Z.of_nat i) ≠
                    logger.backupFilename r (Z.of_nat j)).
  { intros i j Hi Hj Hij Heq. apply backupFilename_inj in Heq; lia. }
  split; [|split].
  - intros path Hpath. rewrite Ha by (intros i Hi; apply Hpath; lia).
    apply Hother; apply Hpath; lia.
  - intros i Hi. destruct (decide (i = n)) as [->|Hin].
    + destruct Hc as [_ Hc]; [lia|]. rewrite Hc, Hn0.
      rewrite Hother by (apply Hdist; lia).
      by destruct (fs !! logger.backupFilename r (Z.of_nat (n - 1))).
    + rewrite Hb by lia. apply Hother; apply Hdist; lia.
  - intros _. split.
    + destruct n as [|n]; [exact Hn0|]. by apply Hc; lia.
    + rewrite Ha by (intros i Hi; apply Hdist; lia).
      replace (S n - 1)%nat with n by lia. exact Hn1.
Qed.

Lemma rotate_spec r (fs : os.FS) :
  in_service r fs →
  0 ≤ logger.maxBackups r < max_int →
  ∃ r' fs',
    logger.rotate r fs = (None, r', fs') ∧
    in_service r' fs' ∧ same_settings r r' ∧
    logger.currentSize r' = 0 ∧
    fs' !! logger.filename r = Some [] ∧
    fs' !! logger.backupFilename r 0 = fs !! logger.filename r ∧
    (∀ i, 1 ≤ i < logger.maxBackups r →
       fs' !! logger.backupFilename r i =
       fs !! logger.backupFilename r (i - 1)) ∧
    (1 ≤ logger.maxBackups r →
       fs' !! logger.backupFilename r (logger.maxBackups r) =
       match fs !! logger.backupFilename r (logger.maxBackups r - 1) with
       | Some x => Some x
       | None => fs !! logger.backupFilename r (logger.maxBackups r)
       end) ∧
    (∀ path,
       path ≠ logger.filename r →
       (∀ i, 0 ≤ i ≤ logger.maxBackups r →
             path ≠ logger.backupFilename r i) →
       fs' !! path = fs !! path).
Proof.
  intros (Hfile & content & Hlog & Hsize) HN.
  unfold logger.rotate. rewrite Hfile. cbn [os.File_Close os.file_closed os.file_name].
  set (r1 := logger.mkLogRotator (logger.filename r) (logger.maxSize r)
               (logger.maxBackups r) (logger.currentSize r)
               (os.mkFile (logger.filename r) true)).
  assert (Hbf : ∀ n, logger.backupFilename r1 n = logger.backupFilename r n)
    by done.
  fold r1.
  change (logger.filename r1) with (logger.filename r).
  change (logger.maxBackups r1) with (logger.maxBackups r).
  rewrite Hbf.
  destruct (rename_backups_spec r1 (Z.to_nat (logger.maxBackups r)) fs)
    as (Ha & Hb & Hc); [lia|].
  set (fs1 := logger.rename_backups r1 (Z.to_nat (logger.maxBackups r)) fs)
    in *.
  assert (Hne0 : logger.backupFilename r 0 ≠ logger.filename r)
    by (apply backupFilename_ne; unfold max_int; lia).
  assert (Hlog1 : fs1 !! logger.filename r = Some content).
  { rewrite Ha; [done|]. intros i Hi. rewrite Hbf. apply not_eq_sym.
    apply backupFilename_ne. lia. }
  unfold os.Rename. rewrite Hlog1.
  unfold logger.openFile, os.OpenFile.
  change (logger.filename r1) with (logger.filename r).
  change (logger.maxBackups r1) with (logger.maxBackups r).
  change (logger.maxSize r1) with (logger.maxSize r).
  rewrite lookup_insert_ne by done. rewrite lookup_delete_eq.
  unfold os.File_Size. cbn [os.file_name]. rewrite lookup_insert_eq.
  eexists _, _. split; [reflexivity|].
  split; [|split; [done|]]; [|split; [done|]].
  { split; [done|]. exists []. cbn [logger.filename logger.currentSize].
    by rewrite lookup_insert_eq. }
  split; [apply lookup_insert_eq|].
  split.
  { rewrite lookup_insert_ne by done. by rewrite lookup_insert_eq. }
  assert (Hup : ∀ path, path ≠ logger.filename r →
                  path ≠ logger.backupFilename r 0 →
                  <[logger.filename r := []]>
                    (<[logger.backupFilename r 0 := content]>
                       (delete (logger.filename r) fs1)) !! path =
                  fs1 !! path).
  { intros path H1 H2. rewrite !lookup_insert_ne by done.
    by rewrite lookup_delete_ne. }
  assert (Hdist : ∀ i, 1 ≤ i < max_int →
            logger.backupFilename r i ≠ logger.backupFilename r 0).
  { intros i Hi Heq. apply backupFilename_inj in Heq; unfold max_int in *; lia. }
  split; [|split].
  - intros i Hi.
    rewrite Hup by (try apply backupFilename_ne; try apply Hdist; lia).
    specialize (Hb (Z.to_nat i) ltac:(lia)). rewrite !Hbf in Hb.
    replace (Z.of_nat (Z.to_nat i)) with i in Hb by lia.
    replace (Z.of_nat (Z.to_nat i - 1)) with (i - 1) in Hb by lia. done.
  - intros HN1.
    rewrite Hup by (try apply backupFilename_ne; try apply Hdist; lia).
    destruct Hc as [_ Hc]; [lia|]. rewrite !Hbf in Hc.
    replace (Z.of_nat (Z.to_nat (logger.maxBackups r)))
      with (logger.maxBackups r) in Hc by lia.
    replace (Z.of_nat (Z.to_nat (logger.maxBackups r) - 1))
      with (logger.maxBackups r - 1) in Hc by lia. done.
  - intros path Hp Hpi. rewrite Hup; [|done|apply Hpi; lia].
    apply Ha. intros i Hi. rewrite Hbf. apply Hpi. lia.
Qed.

(** X21.  A rotation of a rotator in service succeeds and moves every file
    one place up: the log file becomes backup 0 (the file [.1]), backup
    [i - 1] becomes backup [i] for every [i] up to [maxBackups], and a new,
    empty log file is opened with a current size of 0.  What backup
    [maxBackups] held is overwritten (it stays only if there was no backup
    below it), so [maxBackups + 1] backups are kept; no other file is
    touched. *)
Theorem rotate_shifts_backups r (fs : os.FS) :
  in_service r fs →
  0 ≤ logger.maxBackups r < max_int →
  ∃ r' fs',
    logger.rotate r fs = (None, r', fs') ∧
    in_service r' fs' ∧
    logger.currentSize r' = 0 ∧
    fs' !! logger.filename r = Some [] ∧
    fs' !! logger.backupFilename r 0 = fs !! logger.filename r ∧
    (∀ i, 1 ≤ i < logger.maxBackups r →
       fs' !! logger.backupFilename r i =
       fs !! logger.backupFilename r (i - 1)) ∧
    (1 ≤ logger.maxBackups r →
       fs' !! logger.backupFilename r (logger.maxBackups r) =
       match fs !! logger.backupFilename r (logger.maxBackups r - 1) with
       | Some x => Some x
       | None => fs !! logger.backupFilename r (logger.maxBackups r)
       end) ∧
    (∀ path,
       path ≠ logger.filename r →
       (∀ i, 0 ≤ i ≤ logger.maxBackups r →
             path ≠ logger.backupFilename r i) →
       fs' !! path = fs !! path) ∧
    ((∀ i, 0 ≤ i < logger.maxBackups r →
           is_Some (fs !! logger.backupFilename r i)) →
     ∀ i, 0 ≤ i ≤ logger.maxBackups r →
          is_Some (fs' !! logger.backupFilename r i)).
Proof.
  intros Hin HN.
  destruct (rotate_spec r fs Hin HN)
    as (r' & fs' & Hrun & Hin' & _ & Hsize & Hlog & H0 & Hmid & Htop & Hrest).
  exists r', fs'. do 8 (split; [done|]).
  intros Hall i Hi.
  destruct (decide (i = 0)) as [->|Hi0].
  { rewrite H0. destruct Hin as (_ & content & -> & _). by eexists. }
  destruct (decide (i = logger.maxBackups r)) as [->|HiN].
  - rewrite Htop by lia.
    destruct (Hall (logger.maxBackups r - 1) ltac:(lia)) as [x ->]. by eexists.
  - rewrite Hmid by lia. apply Hall. lia.
Qed.

Lemma sample_in_service : in_service sample_rotator sample_fs.
Proof.
  split; [done|]. exists (String.list_ascii_of_string "abc"). done.
Qed.

Lemma rotate_shifts_backups_witness :
  ∃ r' fs',
    logger.rotate sample_rotator sample_fs = (None, r', fs') ∧
    in_service r' fs' ∧
    logger.currentSize r' = 0 ∧
    fs' !! logger.filename sample_rotator = Some [] ∧
    fs' !! logger.backupFilename sample_rotator 0 =
      sample_fs !! logger.filename sample_rotator ∧
    (∀ i, 1 ≤ i < logger.maxBackups sample_rotator →
       fs' !! logger.backupFilename sample_rotator i =
       sample_fs !! logger.backupFilename sample_rotator (i - 1)) ∧
    (1 ≤ logger.maxBackups sample_rotator →
       fs' !! logger.backupFilename sample_rotator
                (logger.maxBackups sample_rotator) =
       match sample_fs !! logger.backupFilename sample_rotator
                            (logger.maxBackups sample_rotator - 1) with
       | Some x => Some x
       | None => sample_fs !! logger.backupFilename sample_rotator
                                (logger.maxBackups sample_rotator)
       end) ∧
    (∀ path,
       path ≠ logger.filename sample_rotator →
       (∀ i, 0 ≤ i ≤ logger.maxBackups sample_rotator →
             path ≠ logger.backupFilename sample_rotator i) →
       fs' !! path = sample_fs !! path) ∧
    ((∀ i, 0 ≤ i < logger.maxBackups sample_rotator →
           is_Some (sample_fs !! logger.backupFilename sample_rotator i)) →
     ∀ i, 0 ≤ i ≤ logger.maxBackups sample_rotator →
          is_Some (fs' !! logger.backupFilename sample_rotator i)).
Proof.
  apply (rotate_shifts_backups sample_rotator sample_fs).
  - exact sample_in_service.
  - unfold max_int. simpl. lia.
Defined.

(** ** Writing *)

(** X22.  A write to a rotator in service succeeds with all the bytes
    written, and leaves the rotator in service.  When the bytes fit under
    [maxSize] beside what the log file holds, they are appended to it and no
    other file changes; when they do not, the log file is rotated first: its
    content goes to backup 0 and the new log file holds exactly the bytes
    written.  A write of at most [maxSize] bytes therefore never leaves the
    log file larger than [maxSize]. *)
Theorem Write_appends_or_rotates r (fs : os.FS) p content :
  in_service r fs →
  fs !! logger.filename r = Some content →
  0 ≤ logger.maxBackups r < max_int →
  Z.of_nat (length content + length p) ≤ max_int →
  ∃ r' fs',
    logger.Write r p fs = ((Z.of_nat (length p), None), r', fs') ∧
    in_service r' fs' ∧ same_settings r r' ∧
    (if Z.of_nat (length content + length p) >? logger.maxSize r
     then fs' !! logger.filename r = Some p ∧
          fs' !! logger.backupFilename r 0 = Some content
     else fs' !! logger.filename r = Some (content ++ p) ∧
          ∀ path, path ≠ logger.filename r → fs' !! path = fs !! path) ∧
    (Z.of_nat (length p) ≤ logger.maxSize r →
     logger.currentSize r' ≤ logger.maxSize r).
Proof.
  intros Hin Hlog HN Hmax.
  assert (Hin0 := Hin). destruct Hin0 as (Hfile & content' & Hlog' & Hsize).
  rewrite Hlog in Hlog'. injection Hlog' as <-.
  unfold logger.Write. rewrite Hsize. unfold int_add at 1.
  rewrite wrap64_small by (unfold min_int; lia).
  replace (Z.of_nat (length content) + Z.of_nat (length p))
    with (Z.of_nat (length content + length p)) by lia.
  destruct (Z.gtb_spec (Z.of_nat (length content + length p))
              (logger.maxSize r)) as [Hgt|Hle].
  - destruct (rotate_spec r fs Hin HN)
      as (r1 & fs1 & -> & (Hfile1 & c1 & Hlog1 & Hsize1) & Hsame & Hzero &
          Hempty & H0 & _).
    destruct Hsame as (Hname & HmaxS & HmaxB).
    rewrite <- Hname in Hempty. rewrite Hempty in Hlog1. injection Hlog1 as <-.
    rewrite Hfile1. unfold os.File_Write. cbn [os.file_closed os.file_name].
    rewrite Hempty. cbn [default app].
    eexists _, _. split; [reflexivity|].
    cbn [logger.filename logger.maxSize logger.maxBackups logger.currentSize
         logger.file].
    rewrite Hzero, Hname, HmaxS, HmaxB. unfold int_add.
    rewrite Z.add_0_l, wrap64_small by (unfold min_int; lia).
    change (id [] ++ p) with p.
    split; [|split; [done|split]].
    + split; [done|]. exists p. by rewrite lookup_insert_eq.
    + split; [apply lookup_insert_eq|].
      rewrite lookup_insert_ne
        by (apply not_eq_sym, backupFilename_ne; unfold max_int; lia).
      by rewrite H0.
    + done.
  - rewrite Hfile. unfold os.File_Write. cbn [os.file_closed os.file_name].
    rewrite Hlog. cbn [default].
    eexists _, _. split; [reflexivity|].
    cbn [logger.filename logger.maxSize logger.maxBackups logger.currentSize
         logger.file].
    rewrite Hsize. unfold int_add. rewrite wrap64_small by (unfold min_int; lia).
    change (id content ++ p) with (content ++ p).
    split; [|split; [done|split]].
    + split; [done|]. exists (content ++ p).
      cbn [logger.filename logger.currentSize].
      rewrite lookup_insert_eq, length_app. split; [done|lia].
    + split; [apply lookup_insert_eq|].
      intros path Hpath. by rewrite lookup_insert_ne.
    + lia.
Qed.

Lemma Write_appends_or_rotates_witness :
  ∃ r' fs',
    logger.Write sample_rotator (String.list_ascii_of_string "defg") sample_fs =
      ((Z.of_nat (length (String.list_ascii_of_string "defg")), None), r', fs') ∧
    in_service r' fs' ∧ same_settings sample_rotator r' ∧
    (if Z.of_nat (length (String.list_ascii_of_string "abc") +
                  length (String.list_ascii_of_string "defg"))
        >? logger.maxSize sample_rotator
     then fs' !! logger.filename sample_rotator =
            Some (String.list_ascii_of_string "defg") ∧
          fs' !! logger.backupFilename sample_rotator 0 =
            Some (String.list_ascii_of_string "abc")
     else fs' !! logger.filename sample_rotator =
            Some (String.list_ascii_of_string "abc" ++
                  String.list_ascii_of_string "defg") ∧
          ∀ path, path ≠ logger.filename sample_rotator →
                  fs' !! path = sample_fs !! path) ∧
    (Z.of_nat (length (String.list_ascii_of_string "defg")) ≤
       logger.maxSize sample_rotator →
     logger.currentSize r' ≤ logger.maxSize sample_rotator).
Proof.
  apply (Write_appends_or_rotates sample_rotator sample_fs
           (String.list_ascii_of_string "defg")
           (String.list_ascii_of_string "abc")).
  - exact sample_in_service.
  - reflexivity.
  - unfold max_int. simpl. lia.
  - unfold max_int. simpl. lia.
Defined.

(** ** Construction and closing *)

(** X23.  On an ideal file system, where the directory of the log file can
    be made and the log file can be opened and sized, [NewRotator] refuses a
    [maxSize] that is not positive and a negative [maxBackups], in this
    order, without touching the file system, and otherwise returns a rotator
    in service with the settings it was given: the log file is created
    empty when it is not there and kept as it is when it is, and
    [currentSize] is its size.  (On a real file system the call can also
    hand back the error of [os.MkdirAll], [os.OpenFile] or [file.Stat];
    these are outside the ideal file system.) *)
Theorem NewRotator_validates_and_opens filename maxSize maxBackups (fs : os.FS) :
  match logger.NewRotator filename maxSize maxBackups fs with
  | (inr err, fs') =>
      fs' = fs ∧
      ((maxSize ≤ 0 ∧ err = Errorf "maxSize 必须大于 0") ∨
       (0 < maxSize ∧ maxBackups < 0 ∧ err = Errorf "maxBackups 不能为负数"))
  | (inl r, fs') =>
      0 < maxSize ∧ 0 ≤ maxBackups ∧
      in_service r fs' ∧
      logger.filename r = filename ∧ logger.maxSize r = maxSize ∧
      logger.maxBackups r = maxBackups ∧
      fs' = match fs !! filename with
            | Some _ => fs
            | None => <[filename := []]> fs
            end
  end.
Proof.
  unfold logger.NewRotator.
  destruct (Z.leb_spec maxSize 0) as [Hs|Hs]; [split; [done|left; done]|].
  destruct (Z.ltb_spec maxBackups 0) as [Hb|Hb]; [split; [done|right; done]|].
  unfold logger.openFile, os.OpenFile, os.File_Size.
  cbn [logger.filename logger.maxSize logger.maxBackups os.file_name].
  do 2 (split; [done|]). split; [|done].
  split; [done|]. cbn [logger.filename logger.currentSize].
  destruct (fs !! filename) as [content|] eqn:Hlog.
  - exists content. by rewrite Hlog.
  - exists []. by rewrite lookup_insert_eq.
Qed.

(** X24.  Once a rotator in service is closed, a second [Close] fails, and
    every [Write] fails with no byte written and no file changed, whether or
    not the write would have rotated the log file. *)
Theorem Write_after_Close_fails r (fs : os.FS) p :
  in_service r fs →
  ∃ r1,
    logger.Close r = (None, r1) ∧
    fst (logger.Close r1) = Some os.ErrClosed ∧
    ∃ r2, logger.Write r1 p fs = ((0, Some os.ErrClosed), r2, fs).
Proof.
  intros (Hfile & _). unfold logger.Close. rewrite Hfile.
  cbn [os.File_Close os.file_closed os.file_name].
  eexists. split; [reflexivity|]. split; [done|].
  unfold logger.Write, logger.rotate.
  cbn [logger.file logger.currentSize logger.maxSize os.File_Close
       os.file_closed].
  destruct (_ >? _); cbn [os.File_Write logger.file os.file_closed];
    eexists; reflexivity.
Qed.

Lemma Write_after_Close_fails_witness :
  ∃ r1,
    logger.Close sample_rotator = (None, r1) ∧
    fst (logger.Close r1) = Some os.ErrClosed ∧
    ∃ r2, logger.Write r1 (String.list_ascii_of_string "x") sample_fs =
          ((0, Some os.ErrClosed), r2, sample_fs).
Proof.
  apply (Write_after_Close_fails sample_rotator sample_fs
           (String.list_ascii_of_string "x")).
  exact sample_in_service.
Defined.

(** X20.  The backups of a log file are named after it with a number
    behind a dot, backup [num] with [num + 1]: the case of [num = 0] is the
    general one.  The names of different backups differ, and none is the
    name of the log file. *)
Theorem backup_names_are_distinct r m n :
  0 ≤ m < max_int →
  0 ≤ n < max_int →
  logger.backupFilename r n =
    logger.filename r +:+ "." +:+ pretty (n + 1) ∧
  logger.backupFilename r n ≠ logger.filename r ∧
  (logger.backupFilename r m = logger.backupFilename r n → m = n).
Proof.
  intros Hm Hn. split; [by apply backupFilename_eq|].
  split; [by apply backupFilename_ne|]. by apply backupFilename_inj.
Qed.

Lemma backup_names_are_distinct_witness :
  logger.backupFilename sample_rotator 2 =
    logger.filename sample_rotator +:+ "." +:+ pretty (2 + 1) ∧
  logger.backupFilename sample_rotator 2 ≠ logger.filename sample_rotator ∧
  (logger.backupFilename sample_rotator 0 = logger.backupFilename sample_rotator 2
   → 0 = 2).
Proof.
  apply (backup_names_are_distinct sample_rotator 0 2);
    unfold max_int; simpl; lia.
Defined.

(** * Properties of the helpers *)

(** ** Removing repeated elements *)

Lemma repeated_spec x later : utils.repeated x later = true ↔ x ∈ later.
Proof.
  induction later as [|y later IH]; simpl.
  - split; [done|]. by intros ?%not_elem_of_nil.
  - destruct (String.eqb_spec x y) as [->|Hne].
    + split; [intros _; left|done].
    + rewrite IH. split; [by right|]. intros Hin.
      apply elem_of_cons in Hin as [?|?]; done.
Qed.

Lemma remove_loop_app arr newArr :
  utils.remove_loop arr newArr = newArr ++ utils.remove_loop arr [].
Proof.
  revert newArr. induction arr as [|x rest IH]; intros newArr; simpl.
  - by rewrite app_nil_r.
  - destruct (utils.repeated x rest); simpl; [apply IH|].
    rewrite (IH (newArr ++ [x])), (IH [x]). by rewrite <- app_assoc.
Qed.

Lemma RemoveRepeatedElement_cons x rest :
  utils.RemoveRepeatedElement (x :: rest) =
  if utils.repeated x rest then utils.RemoveRepeatedElement rest
  else x :: utils.RemoveRepeatedElement rest.
Proof.
  unfold utils.RemoveRepeatedElement. simpl.
  destruct (utils.repeated x rest); simpl; [done|].
  by rewrite remove_loop_app.
Qed.

Lemma RemoveRepeatedElement_elem arr x :
  x ∈ utils.RemoveRepeatedElement arr ↔ x ∈ arr.
Proof.
  induction arr as [|y rest IH]; [done|].
  rewrite RemoveRepeatedElement_cons.
  destruct (utils.repeated y rest) eqn:Hrep.
  - apply repeated_spec in Hrep. rewrite IH. set_solver.
  - rewrite !elem_of_cons, IH. done.
Qed.

Lemma RemoveRepeatedElement_NoDup arr :
  NoDup (utils.RemoveRepeatedElement arr).
Proof.
  induction arr as [|y rest IH]; [constructor|].
  rewrite RemoveRepeatedElement_cons.
  destruct (utils.repeated y rest) eqn:Hrep; [done|].
  constructor; [|done]. rewrite RemoveRepeatedElement_elem.
  intros Hin. apply repeated_spec in Hin. congruence.
Qed.

Lemma RemoveRepeatedElement_sublist arr :
  sublist (utils.RemoveRepeatedElement arr) arr.
Proof.
  induction arr as [|y rest IH]; [constructor|].
  rewrite RemoveRepeatedElement_cons.
  destruct (utils.repeated y rest); by constructor.
Qed.

Lemma RemoveRepeatedElement_id arr :
  NoDup arr → utils.RemoveRepeatedElement arr = arr.
Proof.
  induction 1 as [|x rest Hx _ IH]; [done|].
  rewrite RemoveRepeatedElement_cons, IH.
  destruct (utils.repeated x rest) eqn:Hrep; [|done].
  by apply repeated_spec in Hrep.
Qed.

(** X25.  [RemoveRepeatedElement] returns the distinct elements of its
    argument: each of them once, in the order of their last occurrences.
    Applied to its own result, or to any slice without repetitions, it
    changes nothing.  [SetListStringadd] returns in this way the distinct
    elements of both its arguments. *)
Theorem RemoveRepeatedElement_keeps_each_once arr list1 list2 :
  NoDup (utils.RemoveRepeatedElement arr) ∧
  (∀ x, x ∈ utils.RemoveRepeatedElement arr ↔ x ∈ arr) ∧
  sublist (utils.RemoveRepeatedElement arr) arr ∧
  (∀ x, utils.RemoveRepeatedElement (arr ++ [x]) =
        utils.RemoveRepeatedElement (List.filter (λ y, negb (String.eqb y x)) arr)
        ++ [x]) ∧
  utils.RemoveRepeatedElement (utils.RemoveRepeatedElement arr) =
    utils.RemoveRepeatedElement arr ∧
  NoDup (utils.SetListStringadd list1 list2) ∧
  (∀ x, x ∈ utils.SetListStringadd list1 list2 ↔ x ∈ list1 ∨ x ∈ list2).
Proof.
  split; [apply RemoveRepeatedElement_NoDup|].
  split; [apply RemoveRepeatedElement_elem|].
  split; [apply RemoveRepeatedElement_sublist|].
  split.
  { intros x. induction arr as [|y rest IH]; [done|].
    change ((y :: rest) ++ [x]) with (y :: rest ++ [x]).
    rewrite RemoveRepeatedElement_cons. simpl.
    destruct (String.eqb_spec y x) as [->|Hne]; simpl.
    - replace (utils.repeated x (rest ++ [x])) with true; [done|].
      symmetry. apply repeated_spec. set_solver.
    - rewrite RemoveRepeatedElement_cons, IH.
      assert (Hrep : utils.repeated y (rest ++ [x]) =
                     utils.repeated y
                       (List.filter (λ y0, negb (String.eqb y0 x)) rest)).
      { apply eq_true_iff_eq. rewrite !repeated_spec.
        rewrite elem_of_app, list_elem_of_singleton.
        rewrite (list_elem_of_In (List.filter _ rest)), filter_In,
          <- list_elem_of_In.
        rewrite negb_true_iff.
        destruct (String.eqb_spec y x); [done|]. tauto. }
      rewrite Hrep.
      by destruct (utils.repeated y (List.filter _ rest)). }
  split; [apply RemoveRepeatedElement_id, RemoveRepeatedElement_NoDup|].
  unfold utils.SetListStringadd.
  split; [apply RemoveRepeatedElement_NoDup|].
  intros x. by rewrite RemoveRepeatedElement_elem, elem_of_app.
Qed.

(** ** The largest element *)

Lemma max_loop_spec rest :
  ∀ maxval,
    (utils.max_loop rest maxval = maxval ∨ utils.max_loop rest maxval ∈ rest) ∧
    maxval ≤ utils.max_loop rest maxval ∧
    Forall (λ x, x ≤ utils.max_loop rest maxval) rest.
Proof.
  induction rest as [|x rest IH]; intros maxval; simpl.
  - split; [by left|]. split; [lia|constructor].
  - destruct (IH (if maxval <? x then x else maxval)) as (Hin & Hle & Hall).
    destruct (Z.ltb_spec maxval x) as [Hlt|Hge].
    + split; [right; destruct Hin as [->|?]; set_solver|].
      split; [lia|]. by constructor.
    + split; [destruct Hin as [->|?]; [by left|right; set_solver]|].
      split; [done|]. constructor; [lia|done].
Qed.

(** X26.  [ListMaxVal] panics on an empty slice; on any other it returns an
    element of the slice that no element exceeds. *)
Theorem ListMaxVal_is_the_maximum list :
  match utils.ListMaxVal list with
  | Ret maxval => maxval ∈ list ∧ Forall (λ x, x ≤ maxval) list
  | Panic _ => list = []
  | OutOfFuel => False
  end.
Proof.
  destruct list as [|first rest]; [done|]. simpl.
  destruct (max_loop_spec rest first) as (Hin & Hle & Hall).
  split; [destruct Hin as [->|?]; set_solver|]. by constructor.
Qed.

(** ** Removing neighbours that repeat, and empty strings *)

Lemma duplicates_loop_app prev a ret :
  utils.duplicates_loop prev a ret = ret ++ utils.duplicates_loop prev a [].
Proof.
  revert prev ret. induction a as [|x rest IH]; intros prev ret; simpl.
  - by rewrite app_nil_r.
  - destruct (_ || _); [apply IH|].
    rewrite (IH _ (ret ++ [x])), (IH _ [x]). by rewrite <- app_assoc.
Qed.

Lemma duplicates_loop_cons prev x rest :
  utils.duplicates_loop prev (x :: rest) [] =
  if match prev with
     | Some p => String.eqb p x
     | None => false
     end || Nat.eqb (String.length x) 0
  then utils.duplicates_loop (Some x) rest []
  else x :: utils.duplicates_loop (Some x) rest [].
Proof.
  simpl. destruct (_ || _); [done|]. by rewrite duplicates_loop_app.
Qed.

Lemma length_zero_empty x : Nat.eqb (String.length x) 0 = true ↔ x = "".
Proof. destruct x; simpl; split; done. Qed.

Lemma duplicates_loop_sublist prev a :
  sublist (utils.duplicates_loop prev a []) a.
Proof.
  revert prev. induction a as [|x rest IH]; intros prev; [constructor|].
  rewrite duplicates_loop_cons. destruct (_ || _); by constructor.
Qed.

Lemma duplicates_loop_elem prev a x :
  x ∈ utils.duplicates_loop prev a [] → x ∈ a ∧ x ≠ "".
Proof.
  revert prev. induction a as [|y rest IH]; intros prev.
  { by intros ?%not_elem_of_nil. }
  rewrite duplicates_loop_cons.
  destruct (_ || _) eqn:Hskip.
  - intros Hin. apply IH in Hin as [? ?]. set_solver.
  - intros Hin. apply elem_of_cons in Hin as [->|Hin].
    + split; [set_solver|]. intros ->.
      apply orb_false_iff in Hskip as [_ Hlen]. done.
    + apply IH in Hin as [? ?]. set_solver.
Qed.

Lemma duplicates_loop_keeps prev a x :
  x ∈ a → x ≠ "" → prev ≠ Some x → x ∈ utils.duplicates_loop prev a [].
Proof.
  revert prev. induction a as [|y rest IH]; intros prev Hin Hne Hprev.
  { by apply not_elem_of_nil in Hin. }
  rewrite duplicates_loop_cons.
  destruct (decide (x = y)) as [->|Hxy].
  - replace (_ || _) with false; [set_solver|].
    symmetry. apply orb_false_iff. split.
    + destruct prev as [p|]; [|done]. apply String.eqb_neq. congruence.
    + destruct (Nat.eqb (String.length y) 0) eqn:Hlen; [|done].
      by apply length_zero_empty in Hlen.
  - apply elem_of_cons in Hin as [?|Hin]; [done|].
    assert (x ∈ utils.duplicates_loop (Some y) rest [])
      by (apply IH; [done|done|congruence]).
    destruct (_ || _); set_solver.
Qed.

Lemma duplicates_loop_above p a x :
  StronglySorted String.le a →
  Forall (String.le p) a →
  x ∈ utils.duplicates_loop (Some p) a [] → x ≠ p.
Proof.
  induction a as [|y rest IH]; intros Hsorted Hall Hin.
  { by apply not_elem_of_nil in Hin. }
  apply StronglySorted_inv in Hsorted as [Hsorted Hy].
  apply Forall_cons in Hall as [Hpy Hall].
  rewrite duplicates_loop_cons in Hin.
  destruct (String.eqb_spec p y) as [<-|Hne].
  - rewrite orb_true_l in Hin. by apply IH.
  - assert (Hx : x ∈ y :: rest).
    { destruct (_ || _); [right|apply elem_of_cons in Hin as [->|Hin];
                                  [by left|right]];
        by apply duplicates_loop_elem in Hin as [? _]. }
    intros ->. apply Hne. apply (anti_symm String.le); [done|].
    apply elem_of_cons in Hx as [->|Hx]; [done|].
    rewrite Forall_forall in Hy. by apply Hy.
Qed.

(** X27.  [RemoveDuplicatesAndEmpty] returns, in their order, the elements
    of a sorted slice that are not empty, each of them once.  (It compares
    an element with the one before it only, so the slice has to be
    sorted.) *)
Theorem RemoveDuplicatesAndEmpty_of_sorted a :
  StronglySorted String.le a →
  NoDup (utils.RemoveDuplicatesAndEmpty a) ∧
  (∀ x, x ∈ utils.RemoveDuplicatesAndEmpty a ↔ x ∈ a ∧ x ≠ "") ∧
  sublist (utils.RemoveDuplicatesAndEmpty a) a.
Proof.
  intros Hsorted. unfold utils.RemoveDuplicatesAndEmpty.
  split; [|split; [|apply duplicates_loop_sublist]].
  - generalize (@None string).
    induction a as [|y rest IH]; intros prev; [constructor|].
    apply StronglySorted_inv in Hsorted as [Hsorted Hy].
    rewrite duplicates_loop_cons.
    destruct (_ || _); [by apply IH|].
    constructor; [|by apply IH].
    intros Hin. by apply duplicates_loop_above in Hin.
  - intros x. split; [apply duplicates_loop_elem|].
    intros [Hin Hne]. by apply duplicates_loop_keeps.
Qed.

Lemma RemoveDuplicatesAndEmpty_of_sorted_witness :
  NoDup (utils.RemoveDuplicatesAndEmpty [""; "a"; "a"; "b"]) ∧
  (∀ x, x ∈ utils.RemoveDuplicatesAndEmpty [""; "a"; "a"; "b"] ↔
        x ∈ [""; "a"; "a"; "b"] ∧ x ≠ "") ∧
  sublist (utils.RemoveDuplicatesAndEmpty [""; "a"; "a"; "b"])
    [""; "a"; "a"; "b"].
Proof.
  apply (RemoveDuplicatesAndEmpty_of_sorted [""; "a"; "a"; "b"]).
  repeat (constructor; [|by repeat constructor]). constructor.
Defined.

(** ** Splitting and joining *)

Lemma Join_cons x y rest sep :
  GoStrings.Join (x :: y :: rest) sep =
  x +:+ sep +:+ GoStrings.Join (y :: rest) sep.
Proof. done. Qed.

Lemma Join_Split s sep :
  GoStrings.Join (GoStrings.Split s sep) (String sep "") = s.
Proof.
  induction s as [|c s IH]; [done|]. simpl.
  pose proof (Split_nonempty s sep) as Hne.
  destruct (Ascii.eqb_spec c sep) as [->|Hc].
  - destruct (GoStrings.Split s sep) as [|h t]; [done|].
    rewrite Join_cons, IH. done.
  - destruct (GoStrings.Split s sep) as [|h t]; [done|].
    destruct t as [|h' t]; simpl in *; [by rewrite IH|].
    rewrite <- IH. done.
Qed.

Lemma Split_no_sep s sep :
  Forall (λ part, has_byte sep part = false) (GoStrings.Split s sep).
Proof.
  induction s as [|c s IH]; simpl; [by repeat constructor|].
  pose proof (Split_nonempty s sep) as Hne.
  destruct (Ascii.eqb_spec c sep) as [->|Hc]; [by constructor|].
  destruct (GoStrings.Split s sep) as [|h t]; [done|].
  apply Forall_cons in IH as [Hh Ht]. constructor; [|done].
  simpl. rewrite Hh. by apply Ascii.eqb_neq in Hc as ->.
Qed.

Lemma Split_app_no_sep part s sep :
  has_byte sep part = false →
  GoStrings.Split (part +:+ String sep s) sep = part :: GoStrings.Split s sep.
Proof.
  induction part as [|c part IH]; intros Hno.
  - simpl. by rewrite Ascii.eqb_refl.
  - simpl in Hno. apply orb_false_iff in Hno as [Hc Hno].
    change (String c part +:+ String sep s)
      with (String c (part +:+ String sep s)).
    simpl. rewrite Hc, IH by done. done.
Qed.

Lemma Split_single part sep :
  has_byte sep part = false → GoStrings.Split part sep = [part].
Proof.
  induction part as [|c part IH]; intros Hno; [done|].
  simpl in Hno. apply orb_false_iff in Hno as [Hc Hno].
  simpl. rewrite Hc, IH by done. done.
Qed.

Lemma Split_Join parts sep :
  parts ≠ [] →
  Forall (λ part, has_byte sep part = false) parts →
  GoStrings.Split (GoStrings.Join parts (String sep "")) sep = parts.
Proof.
  induction parts as [|x rest IH]; intros Hne Hall; [done|].
  apply Forall_cons in Hall as [Hx Hrest].
  destruct rest as [|y rest]; [by apply Split_single|].
  rewrite Join_cons.
  change (String sep "" +:+ GoStrings.Join (y :: rest) (String sep ""))
    with (String sep (GoStrings.Join (y :: rest) (String sep ""))).
  rewrite Split_app_no_sep by done. by rewrite IH.
Qed.

Lemma Join_app xs ys sep :
  xs ≠ [] → ys ≠ [] →
  GoStrings.Join (xs ++ ys) sep =
  GoStrings.Join xs sep +:+ sep +:+ GoStrings.Join ys sep.
Proof.
  induction xs as [|x xs IH]; intros Hxs Hys; [done|].
  destruct xs as [|x' xs].
  - destruct ys as [|y ys]; [done|]. done.
  - change ((x :: x' :: xs) ++ ys) with (x :: x' :: (xs ++ ys)).
    rewrite !Join_cons.
    change (x' :: xs ++ ys) with ((x' :: xs) ++ ys).
    rewrite IH by done. by rewrite !sapp_assoc.
Qed.

Lemma Split_length s sep :
  length (GoStrings.Split s sep) = S (count_byte sep s).
Proof.
  induction s as [|c s IH]; [done|]. simpl.
  pose proof (Split_nonempty s sep) as Hne.
  destruct (Ascii.eqb c sep); simpl; [by rewrite IH|].
  destruct (GoStrings.Split s sep) as [|h t]; [done|]. by rewrite <- IH.
Qed.

Lemma Split_has_byte c s sep :
  has_byte c s = false →
  Forall (λ part, has_byte c part = false) (GoStrings.Split s sep).
Proof.
  induction s as [|c' s IH]; intros Hno; simpl; [by repeat constructor|].
  simpl in Hno. apply orb_false_iff in Hno as [Hc Hno].
  pose proof (Split_nonempty s sep) as Hne.
  specialize (IH Hno).
  destruct (Ascii.eqb c' sep); [by constructor|].
  destruct (GoStrings.Split s sep) as [|h t]; [done|].
  apply Forall_cons in IH as [Hh Ht]. constructor; [|done].
  simpl. by rewrite Hc, Hh.
Qed.

Lemma ReplaceAll_removes s old :
  has_byte old (utils.ReplaceAll s old "") = false.
Proof.
  induction s as [|c s IH]; [done|]. simpl.
  destruct (Ascii.eqb c old) eqn:Hc; [done|]. simpl. by rewrite Hc.
Qed.

Lemma ReplaceAll_has_byte c s old :
  has_byte c s = false → has_byte c (utils.ReplaceAll s old "") = false.
Proof.
  induction s as [|c' s IH]; [done|]. simpl. intros Hno.
  apply orb_false_iff in Hno as [Hc Hno].
  destruct (Ascii.eqb c' old); [by apply IH|]. simpl. by rewrite Hc, IH.
Qed.

Lemma ReplaceAll_count c s old :
  c ≠ old → count_byte c (utils.ReplaceAll s old "") = count_byte c s.
Proof.
  intros Hne. induction s as [|c' s IH]; [done|]. simpl.
  destruct (Ascii.eqb_spec c' old) as [->|Hc'].
  - change (count_byte c ("" +:+ utils.ReplaceAll s old ""))
      with (count_byte c (utils.ReplaceAll s old "")).
    rewrite IH. rewrite Ascii.eqb_sym. by apply Ascii.eqb_neq in Hne as ->.
  - simpl. by rewrite IH.
Qed.

(** X29.  [StringToSlice] removes the square brackets and cuts at the
    commas: it returns one element more than its argument has commas, so
    never an empty slice, and for the empty string or a pair of brackets a
    slice of one empty element.  No element holds a comma or a bracket, and
    joined by commas the elements give the argument without its brackets. *)
Theorem StringToSlice_cuts_at_commas s :
  length (utils.StringToSlice s) = S (count_byte "," s) ∧
  Forall (λ part, has_byte "," part = false ∧ has_byte "[" part = false ∧
                  has_byte "]" part = false) (utils.StringToSlice s) ∧
  GoStrings.Join (utils.StringToSlice s) "," =
    utils.ReplaceAll (utils.ReplaceAll s "[" "") "]" "".
Proof.
  unfold utils.StringToSlice. split; [|split].
  - rewrite Split_length, !ReplaceAll_count by done. done.
  - set (t := utils.ReplaceAll (utils.ReplaceAll s "[" "") "]" "").
    pose proof (Split_no_sep t ",") as H1.
    pose proof (Split_has_byte "[" t ","
                  (ReplaceAll_has_byte _ _ _ (ReplaceAll_removes s "["))) as H2.
    pose proof (Split_has_byte "]" t "," (ReplaceAll_removes _ "]")) as H3.
    rewrite Forall_forall in H1, H2, H3. apply Forall_forall.
    intros part Hin. auto.
  - apply Join_Split.
Qed.

(** * Properties of the logger *)

(** ** Short paths *)

(** X28.  [getShortPath] returns the last two components of a path of more
    than two, and the path itself otherwise: what it returns is always the
    end of its argument and has at most one slash. *)
Theorem getShortPath_is_the_end_of_the_path file :
  (∃ front, file = front +:+ logger.getShortPath file) ∧
  (length (GoStrings.Split (logger.getShortPath file) "/") ≤ 2)%nat ∧
  logger.getShortPath file =
    match reverse (GoStrings.Split file "/") with
    | last :: before :: _ :: _ => before +:+ "/" +:+ last
    | _ => file
    end.
Proof.
  unfold logger.getShortPath.
  pose proof (Join_Split file "/") as Hjoin.
  pose proof (Split_no_sep file "/") as Hno.
  set (parts := GoStrings.Split file "/") in *.
  destruct (Nat.ltb_spec 2 (length parts)) as [Hlt|Hge].
  - assert (Hparts : parts = take (length parts - 2) parts ++
                             drop (length parts - 2) parts)
      by (by rewrite take_drop).
    assert (Hlen : length (drop (length parts - 2) parts) = 2%nat)
      by (rewrite length_drop; lia).
    destruct (drop (length parts - 2) parts) as [|a [|b [|c rest]]] eqn:Hdrop;
      try discriminate.
    split; [|split].
    + exists (GoStrings.Join (take (length parts - 2) parts) "/" +:+ "/").
      rewrite <- Hjoin at 1. rewrite Hparts at 1.
      rewrite Join_app; [by rewrite sapp_assoc| |done].
      intros Hnil. apply (f_equal length) in Hnil.
      rewrite length_take in Hnil. simpl in Hnil. lia.
    + rewrite Split_Join; [done|done|].
      rewrite <- Hdrop. by apply Forall_drop.
    + rewrite Hparts at 1. rewrite reverse_app. simpl.
      destruct (reverse (take (length parts - 2) parts)) as [|x xs] eqn:Hrev;
        [|done].
      apply (f_equal length) in Hrev. rewrite length_reverse, length_take in Hrev.
      simpl in Hrev. lia.
  - split; [by exists ""|]. split; [done|].
    destruct (reverse parts) as [|x [|y [|z zs]]] eqn:Hrev; try done.
    apply (f_equal length) in Hrev. rewrite length_reverse in Hrev.
    simpl in Hrev. lia.
Qed.

(** ** Fields *)

Lemma range_assign_spec {V : Type} (entries : list (string * V)) :
  ∀ m : gmap string V,
    logger.range_assign entries m = list_to_map (reverse entries) ∪ m.
Proof.
  unfold logger.range_assign.
  induction entries as [|[k v] entries IH]; intros m; simpl.
  - by rewrite (left_id_L ∅ (∪)).
  - rewrite IH, reverse_cons, list_to_map_app. simpl.
    rewrite insert_empty, <- (assoc_L (∪)).
    by rewrite <- insert_union_singleton_l.
Qed.

Lemma range_assign_map {V : Type} (entries : list (string * V))
    (f m : gmap string V) :
  entries ≡ₚ map_to_list f → logger.range_assign entries m = f ∪ m.
Proof.
  intros Hperm. rewrite range_assign_spec. f_equal.
  rewrite <- (list_to_map_to_list f).
  apply list_to_map_proper.
  - rewrite fmap_reverse, reverse_Permutation, Hperm.
    apply NoDup_fst_map_to_list.
  - by rewrite reverse_Permutation.
Qed.

(** X30.  [WithFields] merges the new fields into those of the entry: a key
    of the new fields gets its new value, every other key of the entry keeps
    its value, and nothing else of the entry changes.  The result does not
    depend on the order in which the runtime iterates over the two maps. *)
Theorem WithFields_new_fields_win {V LoggerRef TimeT : Type}
    (e : logger.Entry V LoggerRef TimeT) (fields : gmap string V)
    order1 order2 :
  order1 ≡ₚ map_to_list (logger.Fields e) →
  order2 ≡ₚ map_to_list fields →
  logger.WithFields e fields order1 order2 =
    logger.mkEntry (logger.Logger e) (logger.Time e) (logger.Level e)
      (logger.Message e) (fields ∪ logger.Fields e) (logger.File e)
      (logger.Line e) (logger.Func e) (logger.callDepth e) ∧
  ∀ k, logger.Fields (logger.WithFields e fields order1 order2) !! k =
       match fields !! k with
       | Some v => Some v
       | None => logger.Fields e !! k
       end.
Proof.
  intros H1 H2. unfold logger.WithFields.
  rewrite (range_assign_map order1 (logger.Fields e)) by done.
  rewrite (range_assign_map order2 fields) by done.
  rewrite (right_id_L ∅ (∪)). split; [done|].
  intros k. cbn [logger.Fields]. rewrite lookup_union.
  destruct (fields !! k), (logger.Fields e !! k); done.
Qed.

Lemma WithFields_new_fields_win_witness :
  logger.WithFields sample_entry sample_fields
    (map_to_list (logger.Fields sample_entry)) (map_to_list sample_fields) =
    logger.mkEntry (logger.Logger sample_entry) (logger.Time sample_entry)
      (logger.Level sample_entry) (logger.Message sample_entry)
      (sample_fields ∪ logger.Fields sample_entry) (logger.File sample_entry)
      (logger.Line sample_entry) (logger.Func sample_entry)
      (logger.callDepth sample_entry) ∧
  ∀ k, logger.Fields
         (logger.WithFields sample_entry sample_fields
            (map_to_list (logger.Fields sample_entry))
            (map_to_list sample_fields)) !! k =
       match sample_fields !! k with
       | Some v => Some v
       | None => logger.Fields sample_entry !! k
       end.
Proof.
  apply (WithFields_new_fields_win sample_entry sample_fields); reflexivity.
Defined.

(** * Conversion of values that share storage *)



(** Conversion over a store does for a finite tree what conversion of the
    tree does: it returns, once the recursion may go deep enough. *)









(** * The statements of the DDL builders *)

Lemma create_table_stmt_text database table order desc cols :
  create_table_stmt database table order desc cols =
    "CREATE TABLE IF NOT EXISTS " +:+ database +:+ "." +:+ table +:+
    " ON CLUSTER bms_cluster (" +:+ nl +:+
    GoStrings.Join (map column_decl cols) ("," +:+ nl) +:+ nl +:+ ")" +:+ nl +:+
    "ENGINE = ReplicatedMergeTree('/clickhouse/tables/" +:+
    database +:+ "/{shard}/" +:+ table +:+ "', '{replica}')" +:+ nl +:+
    "PARTITION BY toYYYYMM(created_at)" +:+ nl +:+
    "ORDER BY (" +:+ order +:+ ", intHash64(created_at))" +:+ nl +:+
    "SAMPLE BY intHash64(created_at)" +:+ nl +:+
    "SETTINGS index_granularity = 8192" +:+ nl +:+
    "COMMENT '" +:+ desc +:+ "';".
Proof.
  unfold create_table_stmt.
  pose proof (write_columns_Join cols 0) as HJ.
  rewrite Z.add_0_l in HJ. rewrite HJ. by rewrite !sapp_assoc.
Qed.

Lemma create_distributed_stmt_text database table desc cols :
  create_distributed_stmt database table desc cols =
    "CREATE TABLE IF NOT EXISTS " +:+ database +:+ "." +:+
    (table +:+ "_distributed") +:+ " ON CLUSTER bms_cluster (" +:+ nl +:+
    GoStrings.Join (map column_decl cols) ("," +:+ nl) +:+ nl +:+ ")" +:+ nl +:+
    "ENGINE = Distributed('bms_cluster', '" +:+ database +:+
    "', '" +:+ table +:+ "')" +:+ nl +:+
    "COMMENT '" +:+ desc +:+ "';".
Proof.
  unfold create_distributed_stmt.
  pose proof (write_columns_Join cols 0) as HJ.
  rewrite Z.add_0_l in HJ. rewrite HJ. by rewrite !sapp_assoc.
Qed.

(** C2, amended.  Whatever the arguments, the statements that [CreateTable]
    and [CreateDistributedTable] hand to the driver are the ones written out
    here and no others: the create-database statement ends in
    [ON CLUSTER bms_cluster], the create-table statement has
    [ON CLUSTER bms_cluster] between the table name and the column list,
    and the engine clause of the distributed table is
    [Distributed('bms_cluster', database, table)].  The cluster is this fixed
    name in every one of them; the builders take a database, a table, an
    ordering key, a description and the columns, and no cluster. *)
Theorem statements_name_bms_cluster {D : Type} `{!Driver D}
    (c : ClickHouseClient) (database table order desc : string)
    (cols : list Column) (w : World D) :
  Forall (λ ev, ∃ r,
     ev = EvExec ("CREATE DATABASE IF NOT EXISTS " +:+ database +:+
                  " ON CLUSTER bms_cluster") [] r ∨
     ev = EvExec
            ("CREATE TABLE IF NOT EXISTS " +:+ database +:+ "." +:+ table +:+
             " ON CLUSTER bms_cluster (" +:+ nl +:+
             GoStrings.Join (map column_decl cols) ("," +:+ nl) +:+ nl +:+
             ")" +:+ nl +:+
             "ENGINE = ReplicatedMergeTree('/clickhouse/tables/" +:+
             database +:+ "/{shard}/" +:+ table +:+ "', '{replica}')" +:+ nl +:+
             "PARTITION BY toYYYYMM(created_at)" +:+ nl +:+
             "ORDER BY (" +:+ order +:+ ", intHash64(created_at))" +:+ nl +:+
             "SAMPLE BY intHash64(created_at)" +:+ nl +:+
             "SETTINGS index_granularity = 8192" +:+ nl +:+
             "COMMENT '" +:+ desc +:+ "';") [] r)
    (new_events w (snd (CreateTable c database table order desc cols w))) ∧
  Forall (λ ev, ∃ r,
     ev = EvExec ("CREATE DATABASE IF NOT EXISTS " +:+ database +:+
                  " ON CLUSTER bms_cluster") [] r ∨
     ev = EvExec
            ("CREATE TABLE IF NOT EXISTS " +:+ database +:+ "." +:+
             (table +:+ "_distributed") +:+
             " ON CLUSTER bms_cluster (" +:+ nl +:+
             GoStrings.Join (map column_decl cols) ("," +:+ nl) +:+ nl +:+
             ")" +:+ nl +:+
             "ENGINE = Distributed('bms_cluster', '" +:+ database +:+
             "', '" +:+ table +:+ "')" +:+ nl +:+
             "COMMENT '" +:+ desc +:+ "';") [] r)
    (new_events w (snd (CreateDistributedTable c database table desc cols w))).
Proof.
  rewrite <- create_table_stmt_text, <- create_distributed_stmt_text.
  change ("CREATE DATABASE IF NOT EXISTS " +:+ database +:+
          " ON CLUSTER bms_cluster") with (create_database_stmt database).
  split.
  - unfold CreateTable. destruct (hasCreatedAt cols); simpl.
    2:{ rewrite new_events_same. constructor. }
    destruct (two_statements c (create_database_stmt database)
                (create_table_stmt database table order desc cols) w)
      as (r & w' & -> & Hev). simpl.
    destruct Hev as [(err & -> & ->)| ->]; repeat constructor; eauto.
  - unfold CreateDistributedTable.
    destruct (Z.of_nat (length cols) =? 0); simpl.
    { rewrite new_events_same. constructor. }
    destruct (two_statements c (create_database_stmt database)
                (create_distributed_stmt database table desc cols) w)
      as (r & w' & -> & Hev). simpl.
    destruct Hev as [(err & -> & ->)| ->]; repeat constructor; eauto.
Qed.
